(** * Cholesky factorisation and triangular solve of [mat64/la/cholesky.go]

    A shallow embedding of [CholeskyL], [CholeskyR] and [CholeskySolve].

    - [float64] is the kernel's binary64 type [PrimFloat.float]: the same
      IEEE 754 values and roundings as Go's, with a single NaN.
    - [*mat64.Dense] is a location in a heap of dense matrices, so that the
      in-place update of the right-hand side and the aliasing of arguments
      are visible.
    - A Go panic is the [Panic] result; the heap reached so far is kept.
    - Every [for] loop of the source has a bound that is fixed when the loop
      starts, so each is a fold over the list of its indices. *)

From Stdlib Require Import ZArith Lia Floats List Bool Reals Lra.
From stdpp Require Import base list.
Import ListNotations.

Set Default Proof Using "Type".

(** ** Go's [math] functions used by the source *)

Module math.

Definition IsNaN (x : float) : bool := negb (x =? x)%float.

(** [IsInf(x, 1)]: [x] is positive infinity. *)
Definition IsPosInf (x : float) : bool := (x =? infinity)%float.

Definition Signbit (x : float) : bool := get_sign x.

(** [math.Max], with the special cases of the Go library in their order. *)
Definition Max (x y : float) : float :=
  if IsPosInf x || IsPosInf y then infinity
  else if IsNaN x || IsNaN y then nan
  else if (x =? 0)%float && (x =? y)%float then
    (if Signbit x then y else x)
  else if (y <? x)%float then x else y.

Definition Sqrt (x : float) : float := PrimFloat.sqrt x.

Definition Abs (x : float) : float := PrimFloat.abs x.

End math.

(** ** Panics and results *)

Inductive Error : Set :=
| ErrSquare            (* mat64.ErrSquare: the factor is not square *)
| ErrShape             (* mat64.ErrShape: dimension mismatch *)
| ErrIndexOutOfRange   (* an element or row access outside the matrix or slice *)
| ErrNilPointer.       (* a dereference of a pointer that holds no matrix *)

Inductive result (A : Type) : Type :=
| Ok (a : A)
| Panic (e : Error).
Arguments Ok {A} a.
Arguments Panic {A} e.

(** ** The dense matrix container *)

Module mat64.

(** Modelled from the spec: the [mat64.Dense] type is not among the source
    files. A dense matrix is a row count, a column count and the elements
    in row-major order. *)
Record Dense : Type := mkDense { rows : nat; cols : nat; data : list float }.

(** The container's invariant: the backing slice holds [rows * cols]
    elements. *)
Definition wf (A : Dense) : Prop := length (data A) = rows A * cols A.

Definition wfb (A : Dense) : bool := length (data A) =? rows A * cols A.

(** A slice of [n] zeros: [make([]float64, n)]. *)
Definition make (n : nat) : list float := replicate n 0%float.

(** Modelled from the spec: element access; [None] outside
    [0 <= i < rows], [0 <= j < cols]. *)
Definition at_ (A : Dense) (i j : nat) : option float :=
  if (i <? rows A) && (j <? cols A) then data A !! (i * cols A + j) else None.

(** Modelled from the spec: element update, with the same bounds. *)
Definition set_ (A : Dense) (i j : nat) (v : float) : option Dense :=
  if (i <? rows A) && (j <? cols A) && (i * cols A + j <? length (data A))
  then Some (mkDense (rows A) (cols A) (<[i * cols A + j := v]> (data A)))
  else None.

(** The elements of row [i]. *)
Definition rowView (A : Dense) (i : nat) : list float :=
  take (cols A) (drop (i * cols A) (data A)).

(** Go's [copy(dst, src)]: the first [min (len dst) (len src)] elements of
    [dst] are overwritten. *)
Definition copy (dst src : list float) : list float :=
  take (length dst) src ++ drop (length src) dst.

(** Modelled from the spec: whole-row get, [Row(dst, i)] copies row [i]
    into [dst]. *)
Definition row (A : Dense) (dst : list float) (i : nat) : option (list float) :=
  if i <? rows A then Some (copy dst (rowView A i)) else None.

(** Modelled from the spec: whole-row set, [SetRow(i, src)] copies [src]
    into row [i]. *)
Definition setRow (A : Dense) (i : nat) (src : list float) : option Dense :=
  if i <? rows A
  then Some (mkDense (rows A) (cols A)
               (take (i * cols A) (data A)
                ++ copy (rowView A i) src
                ++ drop (i * cols A + cols A) (data A)))
  else None.

(** The element at [(i, j)], or zero outside the matrix: used to state
    properties of elements that are known to exist. *)
Definition get (A : Dense) (i j : nat) : float :=
  default 0%float (at_ A i j).

(** A matrix from its rows, for examples. *)
Definition ofRows (r c : nat) (l : list (list float)) : Dense :=
  mkDense r c (concat l).

End mat64.

Export mat64 (Dense).

(** ** Heap, and the monad of the embedded code *)

Abbreviation loc := nat.
Abbreviation heap := (list Dense).

Definition M (A : Type) : Type := heap -> result A * heap.

Definition ret {A} (a : A) : M A := fun h => (Ok a, h).

Definition panic {A} (e : Error) : M A := fun h => (Panic e, h).

Definition bind {A B} (m : M A) (k : A -> M B) : M B :=
  fun h =>
    match m h with
    | (Ok a, h') => k a h'
    | (Panic e, h') => (Panic e, h')
    end.

Notation "'let*' x ':=' m 'in' k" := (bind m (fun x => k))
  (at level 10, x pattern, m at level 100, k at level 200, only parsing).
Notation "m ;;; k" := (bind m (fun _ => k))
  (at level 100, right associativity, only parsing).

(** A loop over the indices in [l], threading the loop-carried variables. *)
Fixpoint foldM {S : Type} (body : nat -> S -> M S) (l : list nat) (s : S) : M S :=
  match l with
  | [] => ret s
  | i :: l' => let* s' := body i s in foldM body l' s'
  end.

(** [for i := lo; i < hi; i++ { body }] *)
Definition for_ {S : Type} (lo hi : nat) (body : nat -> S -> M S) (s : S) : M S :=
  foldM body (seq lo (hi - lo)) s.

(** [for i := n - 1; i >= 0; i-- { body }] *)
Definition for_down {S : Type} (n : nat) (body : nat -> S -> M S) (s : S) : M S :=
  foldM body (rev (seq 0 n)) s.

(** *** Slices local to a function *)

(** [s[i]] *)
Definition index (s : list float) (i : nat) : M float :=
  match s !! i with
  | Some v => ret v
  | None => panic ErrIndexOutOfRange
  end.

(** [s[i] = v] *)
Definition store (s : list float) (i : nat) (v : float) : M (list float) :=
  if i <? length s then ret (<[i := v]> s) else panic ErrIndexOutOfRange.

(** *** Methods of [*mat64.Dense] *)

Definition deref (p : loc) : M Dense :=
  fun h => match h !! p with
           | Some A => (Ok A, h)
           | None => (Panic ErrNilPointer, h)
           end.

Definition assign (p : loc) (A : Dense) : M unit :=
  fun h => (Ok tt, <[p := A]> h).

Definition lift {A} (e : Error) (o : option A) : M A :=
  match o with
  | Some a => ret a
  | None => panic e
  end.

(** [mat64.NewDense(r, c, mat)]: the source ignores the error, which arises
    only when [len(mat) != r * c]; the pointer is then nil. *)
Definition NewDense (r c : nat) (mat : list float) : M loc :=
  fun h =>
    if length mat =? r * c
    then (Ok (length h), h ++ [mat64.mkDense r c mat])
    else (Ok (length h), h).

Definition Dims (p : loc) : M (nat * nat) :=
  let* A := deref p in ret (mat64.rows A, mat64.cols A).

Definition At (p : loc) (i j : nat) : M float :=
  let* A := deref p in lift ErrIndexOutOfRange (mat64.at_ A i j).

Definition Set_ (p : loc) (i j : nat) (v : float) : M unit :=
  let* A := deref p in
  let* A' := lift ErrIndexOutOfRange (mat64.set_ A i j v) in
  assign p A'.

Definition Row (p : loc) (dst : list float) (i : nat) : M (list float) :=
  let* A := deref p in lift ErrIndexOutOfRange (mat64.row A dst i).

Definition SetRow (p : loc) (i : nat) (src : list float) : M unit :=
  let* A := deref p in
  let* A' := lift ErrIndexOutOfRange (mat64.setRow A i src) in
  assign p A'.

(** ** The three functions of [cholesky.go] *)

Module la.

(** The loop-carried variables of the loops of [CholeskyL]. *)
Definition outerL : Type := bool * list float * list float.
Definition innerL : Type := float * bool * list float * list float.

(** The body of [for k := 0; k < j; k++] in [CholeskyL]. *)
Definition CholeskyL_inner (a l : loc) (j k : nat) (st : innerL) : M innerL :=
  let '(d, spd, lRowj, lRowk) := st in
  let s := 0%float in
  let* lRowk := Row l lRowk k in
  let* s := for_ 0 k (fun i s =>
         let* x := index lRowk i in
         let* y := index lRowj i in
         ret (s + x * y)%float) s in
  let* ajk := At a j k in
  let* lkk := At l k k in
  let s := ((ajk - s) / lkk)%float in
  let* lRowj := store lRowj k s in
  let d := (d + s * s)%float in
  let* spd := (if spd
          then let* akj := At a k j in let* ajk := At a j k in ret (akj =? ajk)%float
          else ret false) in
  ret (d, spd, lRowj, lRowk).

(** The body of [for j := 0; j < n; j++] in [CholeskyL]. *)
Definition CholeskyL_outer (a l : loc) (n j : nat) (st : outerL) : M outerL :=
  let '(spd, lRowj, lRowk) := st in
  let d := 0%float in
  let* lRowj := Row l lRowj j in
  let* (d, spd, lRowj, lRowk) := for_ 0 j (CholeskyL_inner a l j) (d, spd, lRowj, lRowk) in
  SetRow l j lRowj ;;;
  let* ajj := At a j j in
  let d := (ajj - d)%float in
  let spd := spd && (0 <? d)%float in
  Set_ l j j (math.Sqrt (math.Max d 0)) ;;;
  for_ (j + 1) n (fun k _ => Set_ l j k 0%float) tt ;;;
  ret (spd, lRowj, lRowk).

Definition CholeskyL (a : loc) : M (loc * bool) :=
  let* (m, n) := Dims a in
  let spd := m =? n in
  let* l := NewDense n n (mat64.make (n * n)) in
  let lRowj := mat64.make n in
  let lRowk := mat64.make n in
  let* (spd, _, _) := for_ 0 n (CholeskyL_outer a l n) (spd, lRowj, lRowk) in
  ret (l, spd).

(** The body of [for k := 0; k < j; k++] in [CholeskyR]. *)
Definition CholeskyR_inner (a r : loc) (j k : nat) (st : float * bool)
  : M (float * bool) :=
  let '(d, spd) := st in
  let* s := At a k j in
  let* s := for_ 0 k (fun i s =>
         let* x := At r i k in
         let* y := At r i j in
         ret (s - x * y)%float) s in
  let* rkk := At r k k in
  let s := (s / rkk)%float in
  Set_ r k j s ;;;
  let d := (d + s * s)%float in
  let* spd := (if spd
          then let* akj := At a k j in let* ajk := At a j k in ret (akj =? ajk)%float
          else ret false) in
  ret (d, spd).

(** The body of [for j := 0; j < n; j++] in [CholeskyR]. *)
Definition CholeskyR_outer (a r : loc) (n j : nat) (spd : bool) : M bool :=
  let d := 0%float in
  let* (d, spd) := for_ 0 j (CholeskyR_inner a r j) (d, spd) in
  let* ajj := At a j j in
  let d := (ajj - d)%float in
  let spd := spd && (0 <? d)%float in
  Set_ r j j (math.Sqrt (math.Max d 0)) ;;;
  for_ (j + 1) n (fun k _ => Set_ r k j 0%float) tt ;;;
  ret spd.

Definition CholeskyR (a : loc) : M (loc * bool) :=
  let* (m, n) := Dims a in
  let spd := m =? n in
  let* r := NewDense n n (mat64.make (n * n)) in
  let* spd := for_ 0 n (CholeskyR_outer a r n) spd in
  ret (r, spd).

(** [x.Set(k, j, x.At(k, j) - x.At(i, j) * l.At(p, q))] *)
Definition elim (x l : loc) (k j i p q : nat) : M unit :=
  let* xkj := At x k j in
  let* xij := At x i j in
  let* lpq := At l p q in
  Set_ x k j (xkj - xij * lpq)%float.

(** [x.Set(k, j, x.At(k, j) / l.At(k, k))] *)
Definition scale (x l : loc) (k j : nat) : M unit :=
  let* xkj := At x k j in
  let* lkk := At l k k in
  Set_ x k j (xkj / lkk)%float.

Definition CholeskySolve (l b : loc) : M loc :=
  let* (m, n) := Dims l in
  if negb (n =? m) then panic ErrSquare else
  let* (_, bn) := Dims b in
  if negb (n =? bn) then panic ErrShape else
  let nx := bn in
  let x := b in
  (* Solve L*Y = B *)
  for_ 0 n (fun k _ =>
    for_ 0 nx (fun j _ =>
      for_ 0 k (fun i _ => elim x l k j i k i) tt ;;;
      scale x l k j) tt) tt ;;;
  (* Solve L'*X = Y *)
  for_down n (fun k _ =>
    for_ 0 nx (fun j _ =>
      for_ (k + 1) n (fun i _ => elim x l k j i i k) tt ;;;
      scale x l k j) tt) tt ;;;
  ret x.

End la.

Import mat64 la.

(** * The vocabulary of the properties *)

(** The element of a slice, or zero past its end. *)
Definition sget (u : list float) (i : nat) : float := default 0%float (u !! i).

(** [confined N w E Q m]: started on a heap with at least [N] locations, [m]
    keeps at least [N] locations, leaves every location below [N] other
    than [w] as it was, panics only with an error in [E], and returns a
    value in [Q]. *)
Definition confined (N : nat) (w : option loc) (E : Error -> Prop)
    {A : Type} (Q : A -> Prop) (m : M A) : Prop :=
  forall h, N <= length h ->
    N <= length (m h).2
    /\ (forall p, p < N -> Some p <> w -> (m h).2 !! p = h !! p)
    /\ match (m h).1 with
       | Ok a => Q a
       | Panic e => E e
       end.

Definition any {A : Type} : A -> Prop := fun _ => True.

(** The two substitution passes of [CholeskySolve], after its checks. *)
Definition substitute (l x : loc) (n nx : nat) : M loc :=
  for_ 0 n (fun k _ =>
    for_ 0 nx (fun j _ =>
      for_ 0 k (fun i _ => elim x l k j i k i) tt ;;;
      scale x l k j) tt) tt ;;;
  for_down n (fun k _ =>
    for_ 0 nx (fun j _ =>
      for_ (k + 1) n (fun i _ => elim x l k j i i k) tt ;;;
      scale x l k j) tt) tt ;;;
  ret x.

Definition access_error (e : Error) : Prop :=
  e = ErrIndexOutOfRange \/ e = ErrNilPointer.

(** [s] after [for i := 0; i < k; i++ { s += l[k,i] * l[j,i] }] from zero. *)
Definition dotL (L : Dense) (k j : nat) : float :=
  fold_left (fun s i => (s + get L k i * get L j i)%float) (seq 0 k) 0%float.

(** [d] after the inner loop of row [j] of [CholeskyL]. *)
Definition sumsqL (L : Dense) (j : nat) : float :=
  fold_left (fun d k => (d + get L j k * get L j k)%float) (seq 0 j) 0%float.

(** The pivot of row [j] of [CholeskyL]: [d = a[j,j] - d] before the square
    root. *)
Definition pivotL (A L : Dense) (j : nat) : float :=
  (get A j j - sumsqL L j)%float.

(** [s] after [for i := 0; i < k; i++ { s -= r[i,k] * r[i,j] }] from
    [a[k,j]]. *)
Definition accR (A R : Dense) (k j : nat) : float :=
  fold_left (fun s i => (s - get R i k * get R i j)%float) (seq 0 k) (get A k j).

(** [d] after the inner loop of column [j] of [CholeskyR]. *)
Definition sumsqR (R : Dense) (j : nat) : float :=
  fold_left (fun d k => (d + get R k j * get R k j)%float) (seq 0 j) 0%float.

(** The pivot of column [j] of [CholeskyR]. *)
Definition pivotR (A R : Dense) (j : nat) : float :=
  (get A j j - sumsqR R j)%float.

(** The first [k] symmetry checks of index [j]: [a[i,j] == a[j,i]] for
    [i < k]. *)
Definition symmetric_prefix (A : Dense) (j k : nat) : bool :=
  forallb (fun i => (get A i j =? get A j i)%float) (seq 0 k).

(** The symmetry checks of index [j]: [a[k,j] == a[j,k]] for [k < j]. *)
Definition symmetric_upto (A : Dense) (j : nat) : bool :=
  symmetric_prefix A j j.

(** The flag after [j] rounds of the outer loop, from the pivots [piv]. *)
Definition flag_upto (A : Dense) (piv : nat -> float) (j : nat) : bool :=
  (rows A =? cols A)
  && forallb (fun i => symmetric_upto A i && (0 <? piv i)%float) (seq 0 j).

(** An [n] by [n] matrix. *)
Definition square (n : nat) (L : Dense) : Prop :=
  rows L = n /\ cols L = n /\ wf L.

(** Row [j] of the lower factor of [A]. *)
Definition rowL (A L : Dense) (n j : nat) : Prop :=
  (forall k, k < j -> get L j k = ((get A j k - dotL L k j) / get L k k)%float)
  /\ get L j j = math.Sqrt (math.Max (pivotL A L j) 0)
  /\ (forall k, j < k < n -> get L j k = 0%float).

(** Column [j] of the upper factor of [A]. *)
Definition colR (A R : Dense) (n j : nat) : Prop :=
  (forall k, k < j -> get R k j = (accR A R k j / get R k k)%float)
  /\ get R j j = math.Sqrt (math.Max (pivotR A R j) 0)
  /\ (forall k, j < k < n -> get R k j = 0%float).

(** The lower factor and flag that [CholeskyL] returns for [A]. *)
Definition factorL (A L : Dense) (spd : bool) : Prop :=
  square (cols A) L
  /\ (forall j, j < cols A -> rowL A L (cols A) j)
  /\ spd = flag_upto A (pivotL A L) (cols A).

(** The upper factor and flag that [CholeskyR] returns for [A]. *)
Definition factorR (A R : Dense) (spd : bool) : Prop :=
  square (cols A) R
  /\ (forall j, j < cols A -> colR A R (cols A) j)
  /\ spd = flag_upto A (pivotR A R) (cols A).

(** The sums of the inner loops of [CholeskyL], over the row buffer. *)
Definition dotU (L : Dense) (k : nat) (u : list float) : float :=
  fold_left (fun s i => (s + get L k i * sget u i)%float) (seq 0 k) 0%float.

Definition sumsqU (u : list float) (k : nat) : float :=
  fold_left (fun d i => (d + sget u i * sget u i)%float) (seq 0 k) 0%float.

(** [d] after [k] rounds of the inner loop of column [j] of [CholeskyR]. *)
Definition sumsqR_prefix (R : Dense) (j k : nat) : float :=
  fold_left (fun d i => (d + get R i j * get R i j)%float) (seq 0 k) 0%float.

(** A positive number or positive infinity. *)
Definition positive_sf (x : spec_float) : Prop :=
  match x with
  | S754_finite false _ _ | S754_infinity false => True
  | _ => False
  end.

(** The [n] by [n] matrix of zeros. *)
Definition zero_matrix (n : nat) : Dense := mkDense n n (make (n * n)).

(** [|x - y| < 1e-9], the tolerance of the examples of the specification. *)
Definition within_tolerance (x y : float) : bool :=
  (math.Abs (x - y) <? 1 / 1000000000)%float.

(** [L, _ := CholeskyL(a); CholeskySolve(L, b)] *)
Definition factorise_and_solve (a b : loc) : M loc :=
  let* (l, _) := CholeskyL a in CholeskySolve l b.

(** The real number that a finite float stands for, and zero for the
    others. *)
Definition F2R (x : float) : R :=
  match Prim2SF x with
  | S754_finite s m e => ((if s then -1 else 1) * IZR (Zpos m) * powerRZ 2 e)%R
  | _ => 0%R
  end.

(** A zero or a finite number: neither an infinity nor a NaN. *)
Definition finite (x : float) : bool :=
  match Prim2SF x with
  | S754_zero _ | S754_finite _ _ _ => true
  | _ => false
  end.

(** [f 0 + ... + f (n - 1)] *)
Definition sumR (n : nat) (f : nat -> R) : R :=
  fold_right (fun i acc => (f i + acc)%R) 0%R (seq 0 n).

(** [x' A x] over the reals. *)
Definition quadratic_form (A : Dense) (x : nat -> R) : R :=
  sumR (cols A) (fun i => sumR (cols A) (fun j => (F2R (get A i j) * x i * x j)%R)).

(** [A] is symmetric and positive definite: its entries are finite,
    [A' = A], and [x' A x > 0] for every vector [x] other than zero. *)
Definition SPD (A : Dense) : Prop :=
  wf A /\ rows A = cols A
  /\ (forall i j, i < cols A -> j < cols A ->
        finite (get A i j) = true /\ get A i j = get A j i)
  /\ forall x : nat -> R,
       (exists i, i < cols A /\ x i <> 0%R) -> (0 < quadratic_form A x)%R.

(** A symmetric positive-definite matrix with integer entries below [2^53],
    the sum of [M M'] for the lower triangular
    [M = [[65066435,0,0,0],[0,1,0,0],[59515875,-35328446,51230113,0],
    [-29051158,66564117,-50266769,1]]] and of the matrix whose one entry,
    at [(0,0)], is one. Its last pivot is so small beside its entries that
    the rounding of the inner sums decides its sign. *)
Definition gap : Dense :=
  ofRows 4 4
    [[4233640963609226; 0; 3872485812155625; -1890255283681730];
     [0; 1; -35328446; 66564117];
     [3872485812155625; -35328446; 7414762951783310; -6655784157120329];
     [-1890255283681730; 66564117; -6655784157120329; 7801499518830015]]%float.

(** [s] after [s := a[j,k]; for i := 0; i < k; i++ { s -= l[k,i] * l[j,i] }]:
    the sum of [CholeskyR], taken over the entries of the lower factor. *)
Definition subtract_in_turn (A L : Dense) (k j : nat) : float :=
  fold_left (fun s i => (s - get L k i * get L j i)%float) (seq 0 k) (get A j k).

(** Subtracting the sum of the products and subtracting the products in
    turn round to the same value, at every place below the diagonal and
    right of the first column. *)
Definition orders_agree (A L : Dense) : Prop :=
  forall j k, 1 <= k -> k < j -> j < cols A ->
    (get A j k - dotL L k j)%float = subtract_in_turn A L k j.

(** A symmetric matrix of order three on which the two orders agree. *)
Definition A3 : Dense := ofRows 3 3 [[4; 2; 2]; [2; 5; 3]; [2; 3; 6]]%float.

(** [x[k,j]] after [for i := 0; i < k; i++ { x[k,j] -= x[i,j] * l[k,i] }],
    from [s]. *)
Definition forward_sum (L X : Dense) (k j : nat) (s : float) : float :=
  fold_left (fun s i => (s - get X i j * get L k i)%float) (seq 0 k) s.

(** [x[k,j]] after [for i := k + 1; i < n; i++ { x[k,j] -= x[i,j] * l[i,k] }],
    from [s]. *)
Definition backward_sum (L X : Dense) (n k j : nat) (s : float) : float :=
  fold_left (fun s i => (s - get X i j * get L i k)%float)
    (seq (k + 1) (n - (k + 1))) s.

(** [Y] is what the first pass of [CholeskySolve] makes of [B]. *)
Definition forward_solved (L B Y : Dense) (n : nat) : Prop :=
  forall k j, k < n -> j < n ->
    get Y k j = (forward_sum L Y k j (get B k j) / get L k k)%float.

(** [X] is what the second pass of [CholeskySolve] makes of [Y]. *)
Definition backward_solved (L Y X : Dense) (n : nat) : Prop :=
  forall k j, k < n -> j < n ->
    get X k j = (backward_sum L X n k j (get Y k j) / get L k k)%float.

(** [A] has a positive diagonal and zeros elsewhere, within its first [n]
    rows and columns. *)
Definition positive_diagonal (A : Dense) (n : nat) : Prop :=
  forall i j, i < n -> j < n ->
    if decide (i = j) then (0 <? get A i j)%float = true
    else get A i j = 0%float.

(** ** Example matrices *)

Module Examples.

Definition I2 : Dense := ofRows 2 2 [[1; 0]; [0; 1]]%float.
Definition I3 : Dense := ofRows 3 3 [[1; 0; 0]; [0; 1; 0]; [0; 0; 1]]%float.
(** A stored shape of 2 rows and 3 columns. *)
Definition L23 : Dense := ofRows 2 3 [[1; 0; 0]; [0; 1; 0]]%float.
Definition A1 : Dense := ofRows 2 2 [[4; 2]; [2; 3]]%float.
Definition B21 : Dense := ofRows 2 1 [[1]; [2]]%float.
Definition B22 : Dense := ofRows 2 2 [[1; 0]; [2; 0]]%float.
Definition B23 : Dense := ofRows 2 3 [[1; 2; 3]; [4; 5; 6]]%float.
Definition B32 : Dense := ofRows 3 2 [[1; 2]; [3; 4]; [5; 6]]%float.

End Examples.

Module Inputs.

(** An asymmetric input whose pivots are positive. *)
Definition asymmetric : Dense := ofRows 2 2 [[4; 2]; [3; 3]]%float.

(** A symmetric input with a negative eigenvalue. *)
Definition indefinite : Dense := ofRows 2 2 [[1; 2]; [2; 1]]%float.

End Inputs.

(** ** Further example matrices *)

Definition D3 : Dense := ofRows 3 3 [[2; 0; 0]; [0; 2; 0]; [0; 0; 2]]%float.
Definition L2 : Dense := ofRows 2 2 [[2; 0]; [1; 1]]%float.

(** A matrix that agrees with the leading block of order two of [A3] on
    and below the diagonal, and one that agrees with it on and above. *)
Definition A3_lower_block : Dense := ofRows 2 2 [[4; 7]; [2; 5]]%float.
Definition A3_upper_block : Dense := ofRows 2 2 [[4; 2]; [7; 5]]%float.

Definition empty_matrix : Dense := mkDense 0 0 [].
Definition no_columns : Dense := mkDense 3 0 [].

(** A right-hand side whose first column starts as that of [Examples.B22]. *)
Definition C32 : Dense := ofRows 3 2 [[1; 5]; [2; 6]; [3; 7]]%float.

(** * Proofs *)

(** * Properties of the matrix container *)

Section DenseLemmas.

Implicit Types (A : Dense) (i j : nat) (u : list float).

Lemma flat_index_lt r c i j : i < r -> j < c -> i * c + j < r * c.
Proof. nia. Qed.

Lemma flat_index_inj c i j i' j' :
  j < c -> j' < c -> i * c + j = i' * c + j' -> i = i' /\ j = j'.
Proof.
  intros Hj Hj' Heq.
  destruct (Nat.lt_trichotomy i i') as [Hlt|[->|Hlt]].
  - assert (S i * c <= i' * c) by (apply Nat.mul_le_mono_r; lia). simpl in *. lia.
  - lia.
  - assert (S i' * c <= i * c) by (apply Nat.mul_le_mono_r; lia). simpl in *. lia.
Qed.

Lemma at_eq_lookup A i j :
  i < rows A -> j < cols A -> at_ A i j = data A !! (i * cols A + j).
Proof.
  intros Hi Hj. unfold at_.
  apply Nat.ltb_lt in Hi, Hj. by rewrite Hi, Hj.
Qed.

Lemma at_Some_get A i j :
  wf A -> i < rows A -> j < cols A -> at_ A i j = Some (get A i j).
Proof.
  intros Hwf Hi Hj. unfold get. rewrite at_eq_lookup by done.
  destruct (lookup_lt_is_Some_2 (data A) (i * cols A + j)) as [x Hx].
  - rewrite Hwf. by apply flat_index_lt.
  - by rewrite Hx.
Qed.

Lemma at_outside A i j : ~ (i < rows A /\ j < cols A) -> at_ A i j = None.
Proof.
  intros H. unfold at_.
  destruct (i <? rows A) eqn:Hi; [|done].
  destruct (j <? cols A) eqn:Hj; [|done].
  apply Nat.ltb_lt in Hi, Hj. tauto.
Qed.

Lemma at_is_Some A i j : is_Some (at_ A i j) -> i < rows A /\ j < cols A.
Proof.
  intros [x Hx]. unfold at_ in Hx.
  destruct (i <? rows A) eqn:Hi; [|done].
  destruct (j <? cols A) eqn:Hj; [|done].
  apply Nat.ltb_lt in Hi, Hj. tauto.
Qed.

Lemma set_eq A i j v :
  wf A -> i < rows A -> j < cols A ->
  set_ A i j v = Some (mkDense (rows A) (cols A) (<[i * cols A + j := v]> (data A))).
Proof.
  intros Hwf Hi Hj. unfold set_.
  assert (i * cols A + j < length (data A)) as Hl
    by (rewrite Hwf; by apply flat_index_lt).
  apply Nat.ltb_lt in Hi, Hj, Hl. by rewrite Hi, Hj, Hl.
Qed.

Lemma set_is_Some A i j v : is_Some (set_ A i j v) -> i < rows A /\ j < cols A.
Proof.
  intros [x Hx]. unfold set_ in Hx.
  destruct (i <? rows A) eqn:Hi; [|done].
  destruct (j <? cols A) eqn:Hj; [|done].
  apply Nat.ltb_lt in Hi, Hj. tauto.
Qed.

Lemma set_dims A A' i j v :
  set_ A i j v = Some A' -> rows A' = rows A /\ cols A' = cols A.
Proof.
  unfold set_. destruct (_ && _); [|done]. by intros [= <-].
Qed.

Lemma set_wf A A' i j v : wf A -> set_ A i j v = Some A' -> wf A'.
Proof.
  unfold set_, wf. intros Hwf. destruct (_ && _); [|done].
  intros [= <-]. simpl. by rewrite length_insert.
Qed.

Lemma get_set A A' i j v i' j' :
  wf A -> set_ A i j v = Some A' -> i' < rows A -> j' < cols A ->
  get A' i' j' = if decide (i' = i /\ j' = j) then v else get A i' j'.
Proof.
  intros Hwf Hset Hi' Hj'.
  destruct (set_is_Some A i j v) as [Hi Hj]; [by eexists|].
  rewrite set_eq in Hset by done. injection Hset as <-.
  unfold get. rewrite !at_eq_lookup by done. simpl.
  case_decide as Heq.
  - destruct Heq as [-> ->]. rewrite list_lookup_insert_eq; [done|].
    rewrite Hwf. by apply flat_index_lt.
  - rewrite list_lookup_insert_ne; [done|].
    intros Hflat. destruct (flat_index_inj _ _ _ _ _ Hj Hj' Hflat). naive_solver.
Qed.

Lemma copy_same_length (dst src : list float) :
  length dst = length src -> copy dst src = src.
Proof.
  intros Hl. unfold copy. rewrite Hl, firstn_all.
  rewrite <- Hl, drop_all. apply app_nil_r.
Qed.

Lemma rowView_length A i : wf A -> i < rows A -> length (rowView A i) = cols A.
Proof.
  intros Hwf Hi. unfold rowView. rewrite length_take, length_drop, Hwf. nia.
Qed.

Lemma rowView_lookup A i j :
  j < cols A -> rowView A i !! j = data A !! (i * cols A + j).
Proof.
  intros Hj. unfold rowView. rewrite lookup_take_lt by done.
  by rewrite lookup_drop.
Qed.

Lemma sget_rowView A i j :
  i < rows A -> j < cols A -> sget (rowView A i) j = get A i j.
Proof.
  intros Hi Hj. unfold sget, get.
  by rewrite rowView_lookup, at_eq_lookup.
Qed.

Lemma row_eq A dst i :
  wf A -> i < rows A -> length dst = cols A -> row A dst i = Some (rowView A i).
Proof.
  intros Hwf Hi Hl. unfold row. apply Nat.ltb_lt in Hi as Hi'. rewrite Hi'.
  rewrite copy_same_length; [done|]. by rewrite rowView_length.
Qed.

Lemma setRow_eq A i src :
  wf A -> i < rows A -> length src = cols A ->
  setRow A i src
  = Some (mkDense (rows A) (cols A)
            (take (i * cols A) (data A) ++ src ++ drop (i * cols A + cols A) (data A))).
Proof.
  intros Hwf Hi Hl. unfold setRow. apply Nat.ltb_lt in Hi as Hi'. rewrite Hi'.
  rewrite copy_same_length; [done|]. by rewrite rowView_length.
Qed.

Lemma setRow_dims A A' i src :
  setRow A i src = Some A' -> rows A' = rows A /\ cols A' = cols A.
Proof.
  unfold setRow. destruct (i <? rows A); [|done]. by intros [= <-].
Qed.

Lemma setRow_wf A A' i src :
  wf A -> length src = cols A -> setRow A i src = Some A' -> wf A'.
Proof.
  intros Hwf Hl Hs.
  assert (i < rows A) as Hi.
  { unfold setRow in Hs. destruct (i <? rows A) eqn:E; [|done].
    by apply Nat.ltb_lt. }
  rewrite setRow_eq in Hs by done. injection Hs as <-.
  unfold wf in *. simpl.
  rewrite !length_app, length_take, length_drop, Hwf, Hl. nia.
Qed.

Lemma get_setRow A A' i src i' j' :
  wf A -> length src = cols A -> setRow A i src = Some A' ->
  i' < rows A -> j' < cols A ->
  get A' i' j' = if decide (i' = i) then sget src j' else get A i' j'.
Proof.
  intros Hwf Hl Hs Hi' Hj'.
  assert (i < rows A) as Hi.
  { unfold setRow in Hs. destruct (i <? rows A) eqn:E; [|done].
    by apply Nat.ltb_lt. }
  rewrite setRow_eq in Hs by done. injection Hs as <-.
  unfold get, sget. rewrite !at_eq_lookup by done. simpl.
  assert (length (take (i * cols A) (data A)) = i * cols A) as Ht
    by (rewrite length_take, Hwf; nia).
  case_decide as Heq.
  - subst i'. rewrite lookup_app_r by lia. rewrite Ht.
    rewrite lookup_app_l by lia. f_equal. f_equal. lia.
  - destruct (decide (i' < i)) as [Hlt|Hge].
    + rewrite lookup_app_l by nia. rewrite lookup_take_lt by nia. done.
    + rewrite lookup_app_r by nia. rewrite lookup_app_r by nia.
      rewrite lookup_drop, Ht, Hl. f_equal. f_equal. nia.
Qed.

Lemma sget_insert u i v k :
  i < length u -> sget (<[i := v]> u) k = if decide (k = i) then v else sget u k.
Proof.
  intros Hi. unfold sget. case_decide as Heq.
  - subst k. by rewrite list_lookup_insert_eq.
  - by rewrite list_lookup_insert_ne.
Qed.

Lemma get_make n i j : get (mkDense n n (make (n * n))) i j = 0%float.
Proof.
  unfold get, at_, make. simpl. destruct (_ && _) eqn:E; [|done].
  destruct (replicate (n * n) 0%float !! (i * n + j)) eqn:Hl; [|done].
  apply lookup_replicate in Hl as [-> _]. done.
Qed.

End DenseLemmas.

(** * Running the primitives *)

Section Run.

Context {A B : Type}.

Lemma bind_Ok (m : M A) (k : A -> M B) h a h' :
  m h = (Ok a, h') -> bind m k h = k a h'.
Proof. intros H. unfold bind. by rewrite H. Qed.

Lemma bind_Panic (m : M A) (k : A -> M B) h e h' :
  m h = (Panic e, h') -> bind m k h = (Panic e, h').
Proof. intros H. unfold bind. by rewrite H. Qed.

End Run.

Lemma Dims_run p h A : h !! p = Some A -> Dims p h = (Ok (rows A, cols A), h).
Proof. intros H. unfold Dims, bind, deref. by rewrite H. Qed.

Lemma At_run p h A i j :
  h !! p = Some A -> wf A -> i < rows A -> j < cols A ->
  At p i j h = (Ok (get A i j), h).
Proof.
  intros H Hwf Hi Hj. unfold At, bind, deref. rewrite H.
  by rewrite at_Some_get.
Qed.

Lemma Set_run p h A i j v :
  h !! p = Some A -> wf A -> i < rows A -> j < cols A ->
  exists A', set_ A i j v = Some A' /\ Set_ p i j v h = (Ok tt, <[p := A']> h).
Proof.
  intros H Hwf Hi Hj. eexists. split; [by apply set_eq|].
  unfold Set_, bind, deref. rewrite H. by rewrite set_eq.
Qed.

Lemma Row_run p h A dst i :
  h !! p = Some A -> wf A -> i < rows A -> length dst = cols A ->
  Row p dst i h = (Ok (rowView A i), h).
Proof.
  intros H Hwf Hi Hl. unfold Row, bind, deref. rewrite H.
  by rewrite row_eq.
Qed.

Lemma SetRow_run p h A i src :
  h !! p = Some A -> wf A -> i < rows A -> length src = cols A ->
  exists A', setRow A i src = Some A' /\ SetRow p i src h = (Ok tt, <[p := A']> h).
Proof.
  intros H Hwf Hi Hl. eexists. split; [by apply setRow_eq|].
  unfold SetRow, bind, deref. rewrite H. by rewrite setRow_eq.
Qed.

Lemma index_run u i h : i < length u -> index u i h = (Ok (sget u i), h).
Proof.
  intros Hi. unfold index, sget.
  destruct (lookup_lt_is_Some_2 u i Hi) as [x ->]. done.
Qed.

Lemma store_run u i v h : i < length u -> store u i v h = (Ok (<[i := v]> u), h).
Proof. intros Hi. unfold store. apply Nat.ltb_lt in Hi. by rewrite Hi. Qed.

(** ** Loops *)

Section Loops.

Context {S : Type}.
Implicit Types (body : nat -> S -> M S).

Lemma foldM_app body l1 l2 s h :
  foldM body (l1 ++ l2) s h
  = bind (foldM body l1 s) (fun s' => foldM body l2 s') h.
Proof.
  revert s h. induction l1 as [|i l1 IH]; intros s h; simpl.
  - done.
  - unfold bind. destruct (body i s h) as [[s'|e] h']; [|done].
    rewrite IH. done.
Qed.

(** The invariant rule for a loop that does not panic. *)
Lemma foldM_seq_inv (I : nat -> S -> heap -> Prop) body len lo s h :
  I lo s h ->
  (forall i s h, lo <= i < lo + len -> I i s h ->
     exists s' h', body i s h = (Ok s', h') /\ I (Datatypes.S i) s' h') ->
  exists s' h', foldM body (seq lo len) s h = (Ok s', h') /\ I (lo + len) s' h'.
Proof.
  revert lo s h. induction len as [|len IH]; intros lo s h HI Hstep; simpl.
  - exists s, h. by rewrite Nat.add_0_r.
  - destruct (Hstep lo s h) as (s1 & h1 & Hb & HI1); [lia|done|].
    destruct (IH (Datatypes.S lo) s1 h1 HI1) as (s2 & h2 & Hf & HI2).
    { intros i s' h' Hi. apply Hstep. lia. }
    exists s2, h2. split.
    + by rewrite (bind_Ok _ _ _ _ _ Hb).
    + replace (lo + Datatypes.S len) with (Datatypes.S lo + len) by lia. done.
Qed.

Lemma for__inv (I : nat -> S -> heap -> Prop) body lo hi s h :
  lo <= hi ->
  I lo s h ->
  (forall i s h, lo <= i < hi -> I i s h ->
     exists s' h', body i s h = (Ok s', h') /\ I (Datatypes.S i) s' h') ->
  exists s' h', for_ lo hi body s h = (Ok s', h') /\ I hi s' h'.
Proof.
  intros Hle HI Hstep. unfold for_.
  destruct (foldM_seq_inv I body (hi - lo) lo s h HI) as (s' & h' & Hf & HI').
  - intros i s0 h0 Hi. apply Hstep. lia.
  - exists s', h'. split; [done|]. replace hi with (lo + (hi - lo)) by lia. done.
Qed.

End Loops.

(** * What a computation can touch *)

Lemma any_I {A : Type} (a : A) : any a.
Proof. exact I. Qed.

#[local] Hint Resolve any_I : core.

Section Confined.

Variables (N : nat) (w : option loc) (E : Error -> Prop).
Hypothesis E_index : E ErrIndexOutOfRange.
Hypothesis E_nil : E ErrNilPointer.

Lemma confined_ret {A} (Q : A -> Prop) a : Q a -> confined N w E Q (ret a).
Proof using Type. intros HQ h Hh. by simpl. Qed.

Lemma confined_panic {A} (Q : A -> Prop) e : E e -> confined N w E Q (panic e).
Proof using Type. intros HE h Hh. by simpl. Qed.

Lemma confined_bind {A B} (Q : A -> Prop) (Q' : B -> Prop) m k :
  confined N w E Q m ->
  (forall a, Q a -> confined N w E Q' (k a)) ->
  confined N w E Q' (bind m k).
Proof using Type.
  intros Hm Hk h Hh. destruct (Hm h Hh) as (Hlen & Hsame & Hres).
  unfold bind. destruct (m h) as [[a|e] h1]; simpl in *.
  - destruct (Hk a Hres h1 Hlen) as (Hlen' & Hsame' & Hres').
    split; [done|]. split; [|done].
    intros p Hp Hw. rewrite Hsame' by done. by apply Hsame.
  - done.
Qed.

Lemma confined_weaken {A} (Q Q' : A -> Prop) m :
  (forall a, Q a -> Q' a) -> confined N w E Q m -> confined N w E Q' m.
Proof using Type.
  intros HQ Hm h Hh. destruct (Hm h Hh) as (Hlen & Hsame & Hres).
  split; [done|]. split; [done|]. destruct (m h).1; auto.
Qed.

Lemma confined_foldM {S} (body : nat -> S -> M S) l s :
  (forall i s, confined N w E any (body i s)) ->
  confined N w E any (foldM body l s).
Proof using Type.
  intros Hbody. revert s. induction l as [|i l IH]; intros s; simpl.
  - by apply confined_ret.
  - eapply confined_bind; [apply Hbody|]. intros s' _. apply IH.
Qed.

Lemma confined_for_ {S} (body : nat -> S -> M S) lo hi s :
  (forall i s, confined N w E any (body i s)) ->
  confined N w E any (for_ lo hi body s).
Proof using Type. apply confined_foldM. Qed.

Lemma confined_for_down {S} (body : nat -> S -> M S) n s :
  (forall i s, confined N w E any (body i s)) ->
  confined N w E any (for_down n body s).
Proof using Type. apply confined_foldM. Qed.

Lemma confined_deref p : confined N w E any (deref p).
Proof using E_nil.
  intros h Hh. unfold deref. destruct (h !! p); simpl; auto.
Qed.

Lemma confined_lift {A} (o : option A) :
  confined N w E any (lift ErrIndexOutOfRange o).
Proof using E_index.
  destruct o; simpl; [by apply confined_ret|by apply confined_panic].
Qed.

Lemma confined_assign p A :
  N <= p \/ w = Some p -> confined N w E any (assign p A).
Proof using Type.
  intros Hp h Hh. unfold assign. simpl. rewrite length_insert.
  split; [done|]. split; [|done].
  intros q Hq Hw. apply list_lookup_insert_ne.
  destruct Hp as [Hp| ->]; [lia|congruence].
Qed.

Lemma confined_Dims p : confined N w E any (Dims p).
Proof using E_nil.
  eapply confined_bind; [apply confined_deref|]. intros A _.
  by apply confined_ret.
Qed.

Lemma confined_At p i j : confined N w E any (At p i j).
Proof using E_nil E_index.
  eapply confined_bind; [apply confined_deref|]. intros A _.
  apply confined_lift.
Qed.

Lemma confined_Row p dst i : confined N w E any (Row p dst i).
Proof using E_nil E_index.
  eapply confined_bind; [apply confined_deref|]. intros A _.
  apply confined_lift.
Qed.

Lemma confined_Set_ p i j v :
  N <= p \/ w = Some p -> confined N w E any (Set_ p i j v).
Proof using E_nil E_index.
  intros Hp.
  eapply confined_bind; [apply confined_deref|]. intros A _.
  eapply confined_bind; [apply confined_lift|]. intros A' _.
  by apply confined_assign.
Qed.

Lemma confined_SetRow p i src :
  N <= p \/ w = Some p -> confined N w E any (SetRow p i src).
Proof using E_nil E_index.
  intros Hp.
  eapply confined_bind; [apply confined_deref|]. intros A _.
  eapply confined_bind; [apply confined_lift|]. intros A' _.
  by apply confined_assign.
Qed.

Lemma confined_index u i : confined N w E any (index u i).
Proof using E_index.
  unfold index. destruct (u !! i); [by apply confined_ret|by apply confined_panic].
Qed.

Lemma confined_store u i v : confined N w E any (store u i v).
Proof using E_index.
  unfold store. destruct (i <? length u);
    [by apply confined_ret|by apply confined_panic].
Qed.

Lemma confined_NewDense r c mat :
  confined N w E (fun l => N <= l) (NewDense r c mat).
Proof using Type.
  intros h Hh. unfold NewDense. destruct (length mat =? r * c); simpl.
  - rewrite length_app. split; [lia|]. split; [|done].
    intros p Hp _. apply lookup_app_l. lia.
  - done.
Qed.

Lemma confined_symmetry_check (spd : bool) a j k :
  confined N w E any
    (if spd
     then let* akj := At a k j in let* ajk := At a j k in ret (akj =? ajk)%float
     else ret false).
Proof using E_nil E_index.
  destruct spd; [|by apply confined_ret].
  eapply confined_bind; [apply confined_At|]. intros ? _.
  eapply confined_bind; [apply confined_At|]. intros ? _.
  by apply confined_ret.
Qed.

Lemma confined_CholeskyL_inner a l j k st :
  N <= l -> confined N w E any (CholeskyL_inner a l j k st).
Proof using E_nil E_index.
  intros Hl. destruct st as [[[d spd] lRowj] lRowk]. unfold CholeskyL_inner.
  eapply confined_bind; [apply confined_Row|]. intros u _.
  eapply confined_bind.
  { apply confined_for_. intros i s.
    eapply confined_bind; [apply confined_index|]. intros ? _.
    eapply confined_bind; [apply confined_index|]. intros ? _.
    by apply confined_ret. }
  intros s _.
  eapply confined_bind; [apply confined_At|]. intros ? _.
  eapply confined_bind; [apply confined_At|]. intros ? _.
  eapply confined_bind; [apply confined_store|]. intros ? _.
  eapply confined_bind; [apply confined_symmetry_check|]. intros ? _.
  by apply confined_ret.
Qed.

Lemma confined_CholeskyL_outer a l n j st :
  N <= l -> confined N w E any (CholeskyL_outer a l n j st).
Proof using E_nil E_index.
  intros Hl. destruct st as [[spd lRowj] lRowk]. unfold CholeskyL_outer.
  eapply confined_bind; [apply confined_Row|]. intros u _.
  eapply confined_bind.
  { apply confined_for_. intros k st. by apply confined_CholeskyL_inner. }
  intros [[[d spd'] u'] v'] _.
  eapply confined_bind; [apply confined_SetRow; by left|]. intros ? _.
  eapply confined_bind; [apply confined_At|]. intros ? _.
  eapply confined_bind; [apply confined_Set_; by left|]. intros ? _.
  eapply confined_bind.
  { apply confined_for_. intros k st. apply confined_Set_; by left. }
  intros ? _. by apply confined_ret.
Qed.

Lemma confined_CholeskyL a : confined N w E any (CholeskyL a).
Proof using E_nil E_index.
  unfold CholeskyL.
  eapply confined_bind; [apply confined_Dims|]. intros [m n] _.
  eapply confined_bind; [apply confined_NewDense|]. intros l Hl.
  eapply confined_bind.
  { apply confined_for_. intros j st. by apply confined_CholeskyL_outer. }
  intros [[spd ?] ?] _. by apply confined_ret.
Qed.

Lemma confined_CholeskyR_inner a r j k st :
  N <= r -> confined N w E any (CholeskyR_inner a r j k st).
Proof using E_nil E_index.
  intros Hr. destruct st as [d spd]. unfold CholeskyR_inner.
  eapply confined_bind; [apply confined_At|]. intros s0 _.
  eapply confined_bind.
  { apply confined_for_. intros i s.
    eapply confined_bind; [apply confined_At|]. intros ? _.
    eapply confined_bind; [apply confined_At|]. intros ? _.
    by apply confined_ret. }
  intros s _.
  eapply confined_bind; [apply confined_At|]. intros ? _.
  eapply confined_bind; [apply confined_Set_; by left|]. intros ? _.
  eapply confined_bind; [apply confined_symmetry_check|]. intros ? _.
  by apply confined_ret.
Qed.

Lemma confined_CholeskyR_outer a r n j spd :
  N <= r -> confined N w E any (CholeskyR_outer a r n j spd).
Proof using E_nil E_index.
  intros Hr. unfold CholeskyR_outer.
  eapply confined_bind.
  { apply confined_for_. intros k st. by apply confined_CholeskyR_inner. }
  intros [d spd'] _.
  eapply confined_bind; [apply confined_At|]. intros ? _.
  eapply confined_bind; [apply confined_Set_; by left|]. intros ? _.
  eapply confined_bind.
  { apply confined_for_. intros k st. apply confined_Set_; by left. }
  intros ? _. by apply confined_ret.
Qed.

Lemma confined_CholeskyR a : confined N w E any (CholeskyR a).
Proof using E_nil E_index.
  unfold CholeskyR.
  eapply confined_bind; [apply confined_Dims|]. intros [m n] _.
  eapply confined_bind; [apply confined_NewDense|]. intros r Hr.
  eapply confined_bind.
  { apply confined_for_. intros j st. by apply confined_CholeskyR_outer. }
  intros spd _. by apply confined_ret.
Qed.

Lemma confined_elim x l k j i p q :
  w = Some x -> confined N w E any (elim x l k j i p q).
Proof using E_nil E_index.
  intros Hx. unfold elim.
  eapply confined_bind; [apply confined_At|]. intros ? _.
  eapply confined_bind; [apply confined_At|]. intros ? _.
  eapply confined_bind; [apply confined_At|]. intros ? _.
  apply confined_Set_. by right.
Qed.

Lemma confined_scale x l k j :
  w = Some x -> confined N w E any (scale x l k j).
Proof using E_nil E_index.
  intros Hx. unfold scale.
  eapply confined_bind; [apply confined_At|]. intros ? _.
  eapply confined_bind; [apply confined_At|]. intros ? _.
  apply confined_Set_. by right.
Qed.

Lemma confined_substitute l x n nx :
  w = Some x -> confined N w E (fun y => y = x) (substitute l x n nx).
Proof using E_nil E_index.
  intros Hx. unfold substitute.
  eapply confined_bind.
  { apply confined_for_. intros k _. apply confined_for_. intros j _.
    eapply confined_bind.
    - apply confined_for_. intros i _. by apply confined_elim.
    - intros ? _. by apply confined_scale. }
  intros ? _.
  eapply confined_bind.
  { apply confined_for_down. intros k _. apply confined_for_. intros j _.
    eapply confined_bind.
    - apply confined_for_. intros i _. by apply confined_elim.
    - intros ? _. by apply confined_scale. }
  intros ? _. by apply confined_ret.
Qed.

End Confined.

Lemma CholeskySolve_unfold l b :
  CholeskySolve l b
  = (let* (m, n) := Dims l in
     if negb (n =? m) then panic ErrSquare else
     let* (_, bn) := Dims b in
     if negb (n =? bn) then panic ErrShape else
     substitute l b n bn).
Proof. reflexivity. Qed.

Lemma confined_CholeskySolve N l b :
  confined N (Some b) any (fun x => x = b) (CholeskySolve l b).
Proof.
  rewrite CholeskySolve_unfold.
  eapply confined_bind; [by apply confined_Dims|]. intros [m n] _.
  destruct (negb (n =? m)); [by apply confined_panic|].
  eapply confined_bind; [by apply confined_Dims|]. intros [bm bn] _.
  destruct (negb (n =? bn)); [by apply confined_panic|].
  by apply confined_substitute.
Qed.

(** * The checks of [CholeskySolve] *)

(** The substitution passes panic only through an access outside a matrix. *)
Lemma substitute_panics l x n nx h e :
  (substitute l x n nx h).1 = Panic e -> access_error e.
Proof.
  intros Hp.
  destruct (confined_substitute 0 (Some x) access_error
              (or_introl eq_refl) (or_intror eq_refl) l x n nx eq_refl h)
    as (_ & _ & Hres); [lia|].
  by rewrite Hp in Hres.
Qed.

Lemma CholeskySolve_checked h l b L B :
  h !! l = Some L -> rows L = cols L -> h !! b = Some B -> cols B = cols L ->
  CholeskySolve l b h = substitute l b (cols L) (cols B) h.
Proof.
  intros Hl Hsq Hb Hc. rewrite CholeskySolve_unfold.
  rewrite (bind_Ok _ _ _ _ _ (Dims_run _ _ _ Hl)). simpl.
  rewrite Hsq, Nat.eqb_refl. simpl.
  rewrite (bind_Ok _ _ _ _ _ (Dims_run _ _ _ Hb)). simpl.
  by rewrite Hc, Nat.eqb_refl.
Qed.

(** What the dimension check of [CholeskySolve] compares: the order of the
    factor with the column count of the right-hand side. *)
Lemma CholeskySolve_ErrShape_iff h l b L B :
  h !! l = Some L -> rows L = cols L -> h !! b = Some B ->
  ((CholeskySolve l b h).1 = Panic ErrShape) <-> (cols B <> cols L).
Proof.
  intros Hl Hsq Hb. destruct (decide (cols B = cols L)) as [Heq|Hne].
  - rewrite (CholeskySolve_checked h l b L B) by done. split; [|done].
    intros Hp. apply substitute_panics in Hp. by destruct Hp.
  - split; [done|]. intros _. rewrite CholeskySolve_unfold.
    rewrite (bind_Ok _ _ _ _ _ (Dims_run _ _ _ Hl)). simpl.
    rewrite Hsq, Nat.eqb_refl. simpl.
    rewrite (bind_Ok _ _ _ _ _ (Dims_run _ _ _ Hb)). simpl.
    assert ((cols L =? cols B) = false) as -> by (apply Nat.eqb_neq; congruence).
    done.
Qed.

(** C1 (the code departs from the claim): the dimension check of
    [CholeskySolve] compares the order [n] of the factor with the number of
    columns of [B], not with its number of rows. A [B] with [n] rows and one
    column is refused with the dimension-mismatch error; a [B] with three
    rows is accepted by a factor of order two, and its third row is left
    out; a [B] with two rows passes the check of a factor of order three and
    the call ends in an out-of-range access. *)
Theorem CholeskySolve_dimension_check_compares_columns :
  (CholeskySolve 0 1 [Examples.I2; Examples.B21]).1 = Panic ErrShape
  /\ (CholeskySolve 0 1 [Examples.I2; Examples.B32])
     = (Ok 1, [Examples.I2; Examples.B32])
  /\ (CholeskySolve 0 1 [Examples.I3; Examples.B23]).1 = Panic ErrIndexOutOfRange.
Proof. repeat split; vm_compute; reflexivity. Qed.

(** C8: a factor whose row count differs from its column count makes
    [CholeskySolve] panic with [ErrSquare], whatever the right-hand side;
    the heap is left as it was. *)
Theorem CholeskySolve_non_square_factor (h : heap) (l b : loc) (L : Dense) :
  h !! l = Some L -> rows L <> cols L ->
  CholeskySolve l b h = (Panic ErrSquare, h).
Proof.
  intros Hl Hne. rewrite CholeskySolve_unfold.
  rewrite (bind_Ok _ _ _ _ _ (Dims_run _ _ _ Hl)). simpl.
  assert ((cols L =? rows L) = false) as -> by (apply Nat.eqb_neq; congruence).
  done.
Qed.

Lemma CholeskySolve_non_square_factor_witness :
  CholeskySolve 0 1 [Examples.L23; Examples.B21]
  = (Panic ErrSquare, [Examples.L23; Examples.B21]).
Proof.
  apply (CholeskySolve_non_square_factor _ 0 1 Examples.L23);
    [reflexivity | simpl; lia].
Defined.

(** * Frame *)

(** C9: [CholeskyL] and [CholeskyR] leave every matrix of the heap they are
    called on as it was, their argument included; [CholeskySolve] leaves
    every matrix other than [b] as it was, the factor included when it is
    not [b] itself; and the pointer [CholeskySolve] returns is [b]. This
    holds as well when the call panics. *)
Theorem only_right_hand_side_is_mutated :
  (forall (h : heap) (a p : loc) (P : Dense),
      h !! p = Some P -> (CholeskyL a h).2 !! p = Some P)
  /\ (forall (h : heap) (a p : loc) (P : Dense),
      h !! p = Some P -> (CholeskyR a h).2 !! p = Some P)
  /\ (forall (h : heap) (l b p : loc) (P : Dense),
      h !! p = Some P -> p <> b -> (CholeskySolve l b h).2 !! p = Some P)
  /\ (forall (h : heap) (l b x : loc),
      (CholeskySolve l b h).1 = Ok x -> x = b).
Proof.
  repeat split.
  - intros h a p P Hp.
    destruct (confined_CholeskyL (length h) None any I I a h) as (_ & Hsame & _);
      [lia|].
    rewrite Hsame; [done| |done]. by eapply lookup_lt_Some.
  - intros h a p P Hp.
    destruct (confined_CholeskyR (length h) None any I I a h) as (_ & Hsame & _);
      [lia|].
    rewrite Hsame; [done| |done]. by eapply lookup_lt_Some.
  - intros h l b p P Hp Hne.
    destruct (confined_CholeskySolve (length h) l b h) as (_ & Hsame & _); [lia|].
    rewrite Hsame; [done| |congruence]. by eapply lookup_lt_Some.
  - intros h l b x Hx.
    destruct (confined_CholeskySolve 0 l b h) as (_ & _ & Hres); [lia|].
    by rewrite Hx in Hres.
Qed.

Lemma only_right_hand_side_is_mutated_witness :
  (CholeskyL 0 [Examples.A1; Examples.B22]).2 !! 0 = Some Examples.A1
  /\ (CholeskyR 0 [Examples.A1; Examples.B22]).2 !! 0 = Some Examples.A1
  /\ (CholeskySolve 0 1 [Examples.I2; Examples.B22]).2 !! 0 = Some Examples.I2
  /\ 1 = 1.
Proof.
  destruct only_right_hand_side_is_mutated as (HL & HR & HS & HX).
  split; [|split; [|split]].
  - apply HL. reflexivity.
  - apply HR. reflexivity.
  - apply HS; [reflexivity | lia].
  - apply (HX [Examples.I2; Examples.B22] 0 1 1). vm_compute. reflexivity.
Defined.

(** * What the factorisations compute *)

(** ** Sums *)

Lemma fold_left_ext_in {X Y : Type} (f g : X -> Y -> X) (l : list Y) (x : X) :
  (forall a y, In y l -> f a y = g a y) -> fold_left f l x = fold_left g l x.
Proof.
  revert x. induction l as [|y l IH]; intros x Hfg; simpl; [done|].
  rewrite Hfg by (by left). apply IH. intros a y' Hy'. apply Hfg. by right.
Qed.

Lemma seq_S_end (lo len : nat) : seq lo (S len) = seq lo len ++ [lo + len].
Proof. apply seq_S. Qed.

Lemma in_seq_0 (i k : nat) : In i (seq 0 k) <-> i < k.
Proof. rewrite in_seq. lia. Qed.

Lemma forallb_seq_S (f : nat -> bool) (k : nat) :
  forallb f (seq 0 (S k)) = forallb f (seq 0 k) && f k.
Proof. rewrite seq_S_end, forallb_app. simpl. by rewrite andb_true_r. Qed.

Lemma forallb_seq_true (f : nat -> bool) (k : nat) :
  forallb f (seq 0 k) = true <-> forall i, i < k -> f i = true.
Proof.
  rewrite forallb_forall. split; intros H i Hi; apply H; by apply in_seq_0.
Qed.

Lemma forallb_ext_in (f g : nat -> bool) (l : list nat) :
  (forall i, In i l -> f i = g i) -> forallb f l = forallb g l.
Proof.
  induction l as [|i l IH]; intros Hfg; simpl; [done|].
  rewrite Hfg by (by left). f_equal. apply IH. intros i' Hi'. apply Hfg. by right.
Qed.

Lemma dotL_ext L L' k j :
  (forall i, i < k -> get L k i = get L' k i /\ get L j i = get L' j i) ->
  dotL L k j = dotL L' k j.
Proof.
  intros H. apply fold_left_ext_in. intros s i Hi%in_seq_0.
  destruct (H i Hi) as [-> ->]. done.
Qed.

Lemma sumsqL_ext L L' j :
  (forall k, k < j -> get L j k = get L' j k) -> sumsqL L j = sumsqL L' j.
Proof.
  intros H. apply fold_left_ext_in. intros s i Hi%in_seq_0. by rewrite H.
Qed.

Lemma accR_ext A R R' k j :
  (forall i, i < k -> get R i k = get R' i k /\ get R i j = get R' i j) ->
  accR A R k j = accR A R' k j.
Proof.
  intros H. apply fold_left_ext_in. intros s i Hi%in_seq_0.
  destruct (H i Hi) as [-> ->]. done.
Qed.

Lemma sumsqR_ext R R' j :
  (forall k, k < j -> get R k j = get R' k j) -> sumsqR R j = sumsqR R' j.
Proof.
  intros H. apply fold_left_ext_in. intros s i Hi%in_seq_0. by rewrite H.
Qed.

Lemma flag_upto_ext A piv piv' j :
  (forall i, i < j -> piv i = piv' i) -> flag_upto A piv j = flag_upto A piv' j.
Proof.
  intros H. unfold flag_upto. f_equal. apply forallb_ext_in.
  intros i Hi%in_seq_0. by rewrite H.
Qed.

Lemma flag_upto_S A piv j :
  flag_upto A piv (S j)
  = flag_upto A piv j && symmetric_upto A j && (0 <? piv j)%float.
Proof.
  unfold flag_upto. rewrite forallb_seq_S. by rewrite !andb_assoc.
Qed.

(** A loop whose body only computes. *)
Lemma for__pure {S : Type} (f : S -> nat -> S) (body : nat -> S -> M S) lo hi s h :
  (forall i s, lo <= i < hi -> body i s h = (Ok (f s i), h)) ->
  for_ lo hi body s h = (Ok (fold_left f (seq lo (hi - lo)) s), h).
Proof.
  intros Hbody. unfold for_.
  assert (forall len lo' s, lo <= lo' -> lo' + len <= Nat.max lo hi ->
            foldM body (seq lo' len) s h = (Ok (fold_left f (seq lo' len) s), h))
    as Hgen.
  { induction len as [|len IH]; intros lo' s' Hlo Hhi; simpl; [done|].
    rewrite (bind_Ok _ _ _ _ _ (Hbody lo' s' ltac:(lia))). apply IH; lia. }
  apply Hgen; lia.
Qed.

(** * Loops, continued *)

Section MoreLoops.

Context {S : Type}.
Implicit Types (body : nat -> S -> M S).

Lemma for__first body lo hi s h :
  lo < hi ->
  for_ lo hi body s h = bind (body lo s) (fun s' => for_ (lo + 1) hi body s') h.
Proof.
  intros Hlt. unfold for_.
  replace (hi - lo) with (Datatypes.S (hi - (lo + 1))) by lia.
  simpl. by rewrite Nat.add_1_r.
Qed.

Lemma for__empty body lo hi s h : hi <= lo -> for_ lo hi body s h = (Ok s, h).
Proof. intros Hle. unfold for_. by replace (hi - lo) with 0 by lia. Qed.

Lemma for__split body lo mid hi s h :
  lo <= mid <= hi ->
  for_ lo hi body s h = bind (for_ lo mid body s) (fun s' => for_ mid hi body s') h.
Proof.
  intros Hle. unfold for_.
  replace (hi - lo) with ((mid - lo) + (hi - mid)) by lia.
  rewrite seq_app, foldM_app. by replace (lo + (mid - lo)) with mid by lia.
Qed.

Lemma for_down_S body n s h :
  for_down (Datatypes.S n) body s h
  = bind (body n s) (fun s' => for_down n body s') h.
Proof. unfold for_down. rewrite seq_S_end, rev_app_distr. done. Qed.

(** The invariant rule for a descending loop that does not panic. *)
Lemma for_down_inv (I : nat -> S -> heap -> Prop) body n s h :
  I n s h ->
  (forall k s h, k < n -> I (Datatypes.S k) s h ->
     exists s' h', body k s h = (Ok s', h') /\ I k s' h') ->
  exists s' h', for_down n body s h = (Ok s', h') /\ I 0 s' h'.
Proof.
  revert s h. induction n as [|n IH]; intros s h HI Hstep.
  - by exists s, h.
  - destruct (Hstep n s h ltac:(lia) HI) as (s1 & h1 & Hb & HI1).
    destruct (IH s1 h1 HI1) as (s2 & h2 & Hf & HI2).
    { intros k s' h' Hk. apply Hstep. lia. }
    exists s2, h2. split; [|done].
    rewrite for_down_S. by rewrite (bind_Ok _ _ _ _ _ Hb).
Qed.

End MoreLoops.

(** * Running on the heap of a factorisation *)

(** While [CholeskyL] and [CholeskyR] run, the heap is the one they were
    called on, [h], followed by the factor under construction. *)

Section OnTheHeap.

Variables (h : heap) (a : loc) (A : Dense) (n : nat).
Hypothesis Ha : h !! a = Some A.
Hypothesis HwfA : wf A.

Lemma lookup_snoc_new (L : Dense) : (h ++ [L]) !! length h = Some L.
Proof using Type. by rewrite lookup_app_r, Nat.sub_diag. Qed.

Lemma lookup_snoc_old (L : Dense) : (h ++ [L]) !! a = Some A.
Proof using Ha. by apply lookup_app_l_Some. Qed.

Lemma insert_snoc (L L' : Dense) : <[length h := L']> (h ++ [L]) = h ++ [L'].
Proof using Type.
  rewrite insert_app_r_alt by done. by rewrite Nat.sub_diag.
Qed.

Lemma At_arg L i j :
  i < rows A -> j < cols A -> At a i j (h ++ [L]) = (Ok (get A i j), h ++ [L]).
Proof using Ha HwfA. intros Hi Hj. apply At_run; [apply lookup_snoc_old|done..]. Qed.

Lemma At_arg_outside L i j :
  ~ (i < rows A /\ j < cols A) ->
  At a i j (h ++ [L]) = (Panic ErrIndexOutOfRange, h ++ [L]).
Proof using Ha.
  intros Hout. unfold At, bind, deref. rewrite lookup_snoc_old.
  by rewrite at_outside.
Qed.

Lemma At_new L i j :
  square n L -> i < n -> j < n ->
  At (length h) i j (h ++ [L]) = (Ok (get L i j), h ++ [L]).
Proof using Type.
  intros (Hr & Hc & Hwf) Hi Hj.
  apply At_run; [apply lookup_snoc_new|done|lia..].
Qed.

Lemma Set_new L i j v :
  square n L -> i < n -> j < n ->
  exists L', Set_ (length h) i j v (h ++ [L]) = (Ok tt, h ++ [L'])
    /\ square n L'
    /\ forall i' j', i' < n -> j' < n ->
         get L' i' j' = if decide (i' = i /\ j' = j) then v else get L i' j'.
Proof using Type.
  intros (Hr & Hc & Hwf) Hi Hj.
  destruct (Set_run (length h) (h ++ [L]) L i j v) as (L' & Hset & Hrun);
    [apply lookup_snoc_new|done|lia..|].
  exists L'. rewrite insert_snoc in Hrun. split; [done|].
  destruct (set_dims _ _ _ _ _ Hset) as [Hr' Hc']. split.
  - split; [lia|]. split; [lia|]. by eapply set_wf.
  - intros i' j' Hi' Hj'. eapply get_set; [done..|lia|lia].
Qed.

Lemma Row_new L dst i :
  square n L -> i < n -> length dst = n ->
  Row (length h) dst i (h ++ [L]) = (Ok (rowView L i), h ++ [L])
  /\ length (rowView L i) = n
  /\ forall j, j < n -> sget (rowView L i) j = get L i j.
Proof using Type.
  intros (Hr & Hc & Hwf) Hi Hl. split; [|split].
  - apply Row_run; [apply lookup_snoc_new|done|lia..].
  - rewrite rowView_length; [done..|lia].
  - intros j Hj. apply sget_rowView; lia.
Qed.

Lemma SetRow_new L i src :
  square n L -> i < n -> length src = n ->
  exists L', SetRow (length h) i src (h ++ [L]) = (Ok tt, h ++ [L'])
    /\ square n L'
    /\ forall i' j', i' < n -> j' < n ->
         get L' i' j' = if decide (i' = i) then sget src j' else get L i' j'.
Proof using Type.
  intros (Hr & Hc & Hwf) Hi Hl.
  destruct (SetRow_run (length h) (h ++ [L]) L i src) as (L' & Hset & Hrun);
    [apply lookup_snoc_new|done|lia..|].
  exists L'. rewrite insert_snoc in Hrun. split; [done|].
  destruct (setRow_dims _ _ _ _ Hset) as [Hr' Hc']. split.
  - split; [lia|]. split; [lia|]. eapply setRow_wf; [done| |done]. lia.
  - intros i' j' Hi' Hj'. eapply get_setRow; [done| |done|lia|lia]. lia.
Qed.

(** [spd = spd && a.At(k, j) == a.At(j, k)] *)
Lemma symmetry_check_run (spd : bool) L j k :
  j < rows A -> k < rows A -> j < cols A -> k < cols A ->
  (if spd
   then let* akj := At a k j in let* ajk := At a j k in ret (akj =? ajk)%float
   else ret false) (h ++ [L])
  = (Ok (spd && (get A k j =? get A j k)%float), h ++ [L]).
Proof using Ha HwfA.
  intros Hj Hk Hj' Hk'. destruct spd; [|done].
  rewrite (bind_Ok _ _ _ _ _ (At_arg L k j Hk Hj')).
  rewrite (bind_Ok _ _ _ _ _ (At_arg L j k Hj Hk')). done.
Qed.

End OnTheHeap.

(** * [CholeskyL] computes the lower factor *)

Lemma sget_insert_ne (u : list float) i v k : k <> i -> sget (<[i := v]> u) k = sget u k.
Proof. intros Hne. unfold sget. by rewrite list_lookup_insert_ne. Qed.

Lemma dotU_insert L k u i v : k <= i -> dotU L k (<[i := v]> u) = dotU L k u.
Proof.
  intros Hle. apply fold_left_ext_in. intros s t Ht%in_seq_0.
  rewrite sget_insert_ne by lia. done.
Qed.

Lemma sumsqU_insert u k i v : k <= i -> sumsqU (<[i := v]> u) k = sumsqU u k.
Proof.
  intros Hle. apply fold_left_ext_in. intros s t Ht%in_seq_0.
  rewrite sget_insert_ne by lia. done.
Qed.

Lemma sumsqU_S u k : sumsqU u (S k) = (sumsqU u k + sget u k * sget u k)%float.
Proof. unfold sumsqU. rewrite seq_S_end, fold_left_app. done. Qed.

Ltac step H := rewrite (bind_Ok _ _ _ _ _ H); cbv beta iota.

Lemma rowL_agree (A : Dense) (n : nat) L L' j :
  j < n ->
  (forall i c, i <= j -> c < n -> get L' i c = get L i c) ->
  rowL A L n j -> rowL A L' n j.
Proof.
  intros Hj Hagree (Hbelow & Hdiag & Habove). split; [|split].
  - intros k Hk. rewrite !Hagree by lia. rewrite Hbelow by done.
    f_equal. f_equal. apply dotL_ext. intros i Hi.
    rewrite !Hagree by lia. done.
  - rewrite Hagree by lia. rewrite Hdiag. unfold pivotL.
    do 3 f_equal. apply sumsqL_ext. intros k Hk. by rewrite Hagree by lia.
  - intros k Hk. rewrite Hagree by lia. by apply Habove.
Qed.

Lemma pivotL_agree (A : Dense) (n : nat) L L' j :
  j < n ->
  (forall c, c < n -> get L' j c = get L j c) ->
  pivotL A L' j = pivotL A L j.
Proof.
  intros Hj Hagree. unfold pivotL. f_equal.
  apply sumsqL_ext. intros k Hk. by rewrite Hagree by lia.
Qed.

Section CholeskyL_correct.

Variables (h : heap) (a : loc) (A : Dense).
Hypothesis Ha : h !! a = Some A.
Hypothesis HwfA : wf A.

#[local] Abbreviation n := (cols A).
#[local] Abbreviation l := (length h).

Lemma CholeskyL_inner_run L j k d spd u w :
  square n L -> k < j -> j < n -> j < rows A -> length u = n -> length w = n ->
  CholeskyL_inner a l j k (d, spd, u, w) (h ++ [L])
  = (let s := ((get A j k - dotU L k u) / get L k k)%float in
     (Ok ((d + s * s)%float, spd && (get A k j =? get A j k)%float,
          <[k := s]> u, rowView L k), h ++ [L])).
Proof using Ha HwfA.
  intros HL Hk Hj Hjr Hu Hw. unfold CholeskyL_inner.
  destruct (Row_new h n L w k HL ltac:(lia) Hw) as (Hrow & Hlen & Hget).
  step Hrow.
  assert (for_ 0 k (fun i s =>
              let* x := index (rowView L k) i in
              let* y := index u i in
              ret (s + x * y)%float) 0%float (h ++ [L])
          = (Ok (dotU L k u), h ++ [L])) as Hdot.
  { rewrite (for__pure (fun s i => (s + sget (rowView L k) i * sget u i)%float)).
    - rewrite Nat.sub_0_r. f_equal. f_equal.
      apply fold_left_ext_in. intros s i Hi%in_seq_0. rewrite Hget by lia. done.
    - intros i s Hi.
      rewrite (bind_Ok _ _ _ _ _ (index_run (rowView L k) i _ ltac:(lia))).
      rewrite (bind_Ok _ _ _ _ _ (index_run u i _ ltac:(lia))). done. }
  step Hdot.
  step (At_arg h a A Ha HwfA L j k ltac:(lia) ltac:(lia)).
  step (At_new h n L k k HL ltac:(lia) ltac:(lia)).
  step (store_run u k ((get A j k - dotU L k u) / get L k k)%float (h ++ [L])
          ltac:(lia)).
  step (symmetry_check_run h a A Ha HwfA spd L j k
          ltac:(lia) ltac:(lia) ltac:(lia) ltac:(lia)).
  done.
Qed.

(** The inner loop of row [j]. *)
Lemma CholeskyL_inner_loop L j spd u0 w0 :
  square n L -> j < n -> j < rows A -> length u0 = n -> length w0 = n ->
  exists u w,
    for_ 0 j (CholeskyL_inner a l j) (0%float, spd, u0, w0) (h ++ [L])
    = (Ok (sumsqU u j, spd && symmetric_upto A j, u, w), h ++ [L])
    /\ length u = n /\ length w = n
    /\ forall i, i < j ->
         sget u i = ((get A j i - dotU L i u) / get L i i)%float.
Proof using Ha HwfA.
  intros HL Hj Hjr Hu0 Hw0.
  pose (I := fun (k : nat) (st : innerL) (h' : heap) =>
    let '(d, spd', u, w) := st in
    h' = h ++ [L] /\ length u = n /\ length w = n
    /\ (forall i, i < k ->
          sget u i = ((get A j i - dotU L i u) / get L i i)%float)
    /\ d = sumsqU u k /\ spd' = spd && symmetric_prefix A j k).
  destruct (for__inv I (CholeskyL_inner a l j) 0 j (0%float, spd, u0, w0) (h ++ [L]))
    as ([[[d spd'] u] w] & h' & Hrun & HI).
  - lia.
  - simpl. repeat split; try done; [lia|]. by rewrite andb_true_r.
  - intros k [[[d spd'] u] w] h' Hk (-> & Hu & Hw & Hrec & -> & ->).
    rewrite CholeskyL_inner_run by (done || lia). cbv zeta.
    eexists _, _. split; [done|]. simpl.
    split; [done|]. split; [by rewrite length_insert|].
    split; [by destruct (Row_new h n L w k HL ltac:(lia) Hw) as (_ & ? & _)|].
    split; [|split].
    + intros i Hi. destruct (decide (i = k)) as [->|Hne].
      * rewrite sget_insert by lia. rewrite decide_True by done.
        by rewrite dotU_insert by lia.
      * rewrite sget_insert_ne by done. rewrite dotU_insert by lia.
        apply Hrec. lia.
    + rewrite sumsqU_S, sumsqU_insert by lia.
      rewrite sget_insert by lia. by rewrite decide_True by done.
    + unfold symmetric_prefix. rewrite forallb_seq_S. by rewrite andb_assoc.
  - simpl in HI. destruct HI as (-> & Hu & Hw & Hrec & -> & ->).
    exists u, w. done.
Qed.

(** The loop that clears row [j] to the right of the diagonal. *)
Lemma CholeskyL_clear_loop L j :
  square n L -> j < n ->
  exists L',
    for_ (j + 1) n (fun k _ => Set_ l j k 0%float) tt (h ++ [L])
    = (Ok tt, h ++ [L'])
    /\ square n L'
    /\ forall i c, i < n -> c < n ->
         get L' i c = if decide (i = j /\ j < c) then 0%float else get L i c.
Proof using Type.
  intros HL Hj.
  pose (I := fun (k : nat) (_ : unit) (h' : heap) =>
    exists L', h' = h ++ [L'] /\ square n L'
      /\ forall i c, i < n -> c < n ->
           get L' i c = if decide (i = j /\ j < c < k) then 0%float else get L i c).
  destruct (for__inv I (fun k _ => Set_ l j k 0%float) (j + 1) n tt (h ++ [L]))
    as ([] & h' & Hrun & L' & -> & HL' & Hget).
  - lia.
  - exists L. split; [done|]. split; [done|]. intros i c Hi Hc.
    rewrite decide_False by lia. done.
  - intros k [] h' Hk (L1 & -> & HL1 & Hget1).
    destruct (Set_new h n L1 j k 0%float HL1 Hj ltac:(lia)) as (L2 & Hrun & HL2 & Hget2).
    exists tt, (h ++ [L2]). split; [done|].
    exists L2. split; [done|]. split; [done|]. intros i c Hi Hc.
    rewrite Hget2 by done. rewrite Hget1 by done.
    repeat case_decide; try done; lia.
  - exists L'. split; [done|]. split; [done|]. intros i c Hi Hc.
    rewrite Hget by done. repeat case_decide; try done; lia.
Qed.

(** One round of the outer loop. *)
Lemma CholeskyL_outer_run L j spd u0 w0 :
  square n L -> j < n -> j < rows A -> length u0 = n -> length w0 = n ->
  exists L' u w,
    CholeskyL_outer a l n j (spd, u0, w0) (h ++ [L])
    = (Ok (spd && symmetric_upto A j && (0 <? pivotL A L' j)%float, u, w),
       h ++ [L'])
    /\ square n L' /\ length u = n /\ length w = n
    /\ (forall i c, i < n -> c < n -> i <> j -> get L' i c = get L i c)
    /\ rowL A L' n j.
Proof using Ha HwfA.
  intros HL Hj Hjr Hu0 Hw0. unfold CholeskyL_outer.
  destruct (Row_new h n L u0 j HL Hj Hu0) as (Hrow & Hlen & _).
  step Hrow.
  destruct (CholeskyL_inner_loop L j spd (rowView L j) w0 HL Hj Hjr Hlen Hw0)
    as (u & w & Hinner & Hu & Hw & Hrec).
  step Hinner.
  destruct (SetRow_new h n L j u HL Hj Hu) as (L1 & Hrun1 & HL1 & Hget1).
  step Hrun1.
  step (At_arg h a A Ha HwfA L1 j j ltac:(lia) ltac:(lia)).
  destruct (Set_new h n L1 j j
              (math.Sqrt (math.Max (get A j j - sumsqU u j) 0)) HL1 Hj Hj)
    as (L2 & Hrun2 & HL2 & Hget2).
  step Hrun2.
  destruct (CholeskyL_clear_loop L2 j HL2 Hj) as (L3 & Hrun3 & HL3 & Hget3).
  step Hrun3.
  assert (forall i c, i < n -> c < n ->
            get L3 i c
            = if decide (i = j)
              then (if decide (c < j) then sget u c
                    else if decide (c = j)
                         then math.Sqrt (math.Max (get A j j - sumsqU u j) 0)
                         else 0%float)
              else get L i c) as Hget.
  { intros i c Hi Hc. rewrite Hget3, Hget2, Hget1 by done.
    repeat case_decide; try done; lia. }
  assert (sumsqL L3 j = sumsqU u j) as Hsum.
  { apply fold_left_ext_in. intros s k Hk%in_seq_0.
    rewrite Hget by lia. rewrite decide_True by done.
    rewrite decide_True by done. done. }
  assert (pivotL A L3 j = (get A j j - sumsqU u j)%float) as Hpiv
    by (unfold pivotL; by rewrite Hsum).
  exists L3, u, w. split; [by rewrite Hpiv|].
  split; [done|]. split; [done|]. split; [done|]. split.
  - intros i c Hi Hc Hne. rewrite Hget by done. by rewrite decide_False.
  - split; [|split].
    + intros k Hk. rewrite (Hget j k) by lia.
      rewrite decide_True by done. rewrite decide_True by done.
      rewrite (Hget k k) by lia. rewrite decide_False by lia.
      rewrite Hrec by done. f_equal. f_equal.
      apply fold_left_ext_in. intros s i Hi%in_seq_0.
      rewrite (Hget k i) by lia. rewrite decide_False by lia.
      rewrite (Hget j i) by lia. rewrite decide_True by done.
      rewrite decide_True by lia. done.
    + rewrite Hget by done. rewrite decide_True by done.
      rewrite decide_False by lia. rewrite decide_True by done.
      by rewrite Hpiv.
    + intros k Hk. rewrite Hget by lia. rewrite decide_True by done.
      rewrite decide_False by lia. rewrite decide_False by lia. done.
Qed.

Lemma CholeskyL_new :
  NewDense n n (make (n * n)) h = (Ok l, h ++ [mkDense n n (make (n * n))]).
Proof using Type.
  unfold NewDense, make. by rewrite length_replicate, Nat.eqb_refl.
Qed.

(** The first [m] rounds of the outer loop, for [m] within the rows of the
    input. *)
Lemma CholeskyL_rounds m :
  m <= n -> m <= rows A ->
  exists L spd u w,
    for_ 0 m (CholeskyL_outer a l n) (rows A =? n, make n, make n)
      (h ++ [mkDense n n (make (n * n))])
    = (Ok (spd, u, w), h ++ [L])
    /\ square n L /\ length u = n /\ length w = n
    /\ (forall j, j < m -> rowL A L n j)
    /\ spd = flag_upto A (pivotL A L) m.
Proof using Ha HwfA.
  intros Hmn Hmr.
  pose (I := fun (j : nat) (st : outerL) (h' : heap) =>
    let '(spd, u, w) := st in
    exists L, h' = h ++ [L] /\ square n L /\ length u = n /\ length w = n
      /\ (forall j', j' < j -> rowL A L n j')
      /\ spd = flag_upto A (pivotL A L) j).
  destruct (for__inv I (CholeskyL_outer a l n) 0 m
              (rows A =? n, make n, make n)
              (h ++ [mkDense n n (make (n * n))]))
    as ([[spd u] w] & h' & Hrun & L & -> & HL & Hu & Hw & Hrows & ->).
  - lia.
  - exists (mkDense n n (make (n * n))). split; [done|]. split.
    { split; [done|]. split; [done|]. unfold wf, make. simpl.
      by rewrite length_replicate. }
    unfold make. rewrite !length_replicate. split; [done|]. split; [done|].
    split; [intros; lia|]. unfold flag_upto. simpl. by rewrite andb_true_r.
  - intros j [[spd u] w] h' Hj (L & -> & HL & Hu & Hw & Hrows & ->).
    destruct (CholeskyL_outer_run L j (flag_upto A (pivotL A L) j) u w
                HL ltac:(lia) ltac:(lia) Hu Hw)
      as (L' & u' & w' & Hrun & HL' & Hu' & Hw' & Hsame & Hrow).
    eexists _, _. split; [exact Hrun|].
    exists L'. split; [done|]. split; [done|]. split; [done|]. split; [done|].
    split.
    + intros j' Hj'. destruct (decide (j' = j)) as [->|Hne]; [done|].
      apply (rowL_agree A n L); [lia| |apply Hrows; lia].
      intros i c Hi Hc. apply Hsame; lia.
    + rewrite flag_upto_S. f_equal. f_equal.
      apply flag_upto_ext. intros i Hi. symmetry.
      apply (pivotL_agree A n); [lia|]. intros c Hc. apply Hsame; lia.
  - exists L, (flag_upto A (pivotL A L) m), u, w. done.
Qed.

(** The whole of [CholeskyL]: it returns a fresh factor, at the end of the
    heap, with the flag. *)
Lemma CholeskyL_run :
  cols A <= rows A ->
  exists L spd,
    CholeskyL a h = (Ok (l, spd), h ++ [L]) /\ factorL A L spd.
Proof using Ha HwfA.
  intros Hdims. unfold CholeskyL.
  step (Dims_run a h A Ha). step CholeskyL_new.
  destruct (CholeskyL_rounds n ltac:(lia) Hdims)
    as (L & spd & u & w & Hrun & HL & _ & _ & Hrows & ->).
  step Hrun. exists L, (flag_upto A (pivotL A L) n). done.
Qed.

(** The round of a row that the input does not have: it panics at
    [a.At(j, 0)], or at [a.At(0, 0)] when the input has no row at all. *)
Lemma CholeskyL_outer_wide L j spd u0 w0 :
  square n L -> j < n -> rows A <= j -> length u0 = n -> length w0 = n ->
  exists L',
    CholeskyL_outer a l n j (spd, u0, w0) (h ++ [L])
    = (Panic ErrIndexOutOfRange, h ++ [L']).
Proof using Ha.
  intros HL Hj Hjr Hu0 Hw0. unfold CholeskyL_outer.
  destruct (Row_new h n L u0 j HL Hj Hu0) as (Hrow & Hlen & _).
  step Hrow.
  destruct (decide (j = 0)) as [->|Hj0].
  - rewrite (bind_Ok _ _ _ _ _ (for__empty _ 0 0 _ _ ltac:(lia))). cbv beta iota.
    destruct (SetRow_new h n L 0 (rowView L 0) HL Hj Hlen)
      as (L1 & Hrun1 & HL1 & _).
    step Hrun1. exists L1. apply bind_Panic. apply (At_arg_outside h a A Ha). lia.
  - exists L. apply bind_Panic. rewrite for__first by lia. apply bind_Panic.
    unfold CholeskyL_inner.
    destruct (Row_new h n L w0 0 HL ltac:(lia) Hw0) as (Hrow0 & _ & _).
    step Hrow0.
    rewrite (bind_Ok _ _ _ _ _ (for__empty _ 0 0 _ _ ltac:(lia))). cbv beta iota.
    apply bind_Panic. apply (At_arg_outside h a A Ha). lia.
Qed.

(** An input with fewer rows than columns. *)
Lemma CholeskyL_wide :
  rows A < cols A ->
  exists L, CholeskyL a h = (Panic ErrIndexOutOfRange, h ++ [L]).
Proof using Ha HwfA.
  intros Hwide.
  destruct (CholeskyL_rounds (rows A) ltac:(lia) ltac:(lia))
    as (L & spd & u & w & Hrun & HL & Hu & Hw & _).
  destruct (CholeskyL_outer_wide L (rows A) spd u w HL Hwide ltac:(lia) Hu Hw)
    as (L' & Hpanic).
  exists L'. unfold CholeskyL.
  step (Dims_run a h A Ha). step CholeskyL_new. apply bind_Panic.
  rewrite (for__split _ 0 (rows A) n) by lia. step Hrun.
  rewrite for__first by lia. by apply bind_Panic.
Qed.

End CholeskyL_correct.

(** * [CholeskyR] computes the upper factor *)

Lemma sumsqR_prefix_S R j k :
  sumsqR_prefix R j (S k) = (sumsqR_prefix R j k + get R k j * get R k j)%float.
Proof. unfold sumsqR_prefix. rewrite seq_S_end, fold_left_app. done. Qed.

Lemma sumsqR_prefix_ext R R' j k :
  (forall i, i < k -> get R i j = get R' i j) ->
  sumsqR_prefix R j k = sumsqR_prefix R' j k.
Proof.
  intros H. apply fold_left_ext_in. intros s i Hi%in_seq_0. by rewrite H.
Qed.

Lemma colR_agree (A : Dense) (n : nat) R R' j :
  j < n ->
  (forall i c, i < n -> c <= j -> get R' i c = get R i c) ->
  colR A R n j -> colR A R' n j.
Proof.
  intros Hj Hagree (Habove & Hdiag & Hbelow). split; [|split].
  - intros k Hk. rewrite !Hagree by lia. rewrite Habove by done.
    f_equal. apply accR_ext. intros i Hi. rewrite !Hagree by lia. done.
  - rewrite Hagree by lia. rewrite Hdiag. unfold pivotR.
    do 3 f_equal. apply sumsqR_ext. intros k Hk. by rewrite Hagree by lia.
  - intros k Hk. rewrite Hagree by lia. by apply Hbelow.
Qed.

Lemma pivotR_agree (A : Dense) (n : nat) R R' j :
  j < n ->
  (forall i, i < n -> get R' i j = get R i j) ->
  pivotR A R' j = pivotR A R j.
Proof.
  intros Hj Hagree. unfold pivotR. f_equal.
  apply sumsqR_ext. intros k Hk. by rewrite Hagree by lia.
Qed.

Section CholeskyR_correct.

Variables (h : heap) (a : loc) (A : Dense).
Hypothesis Ha : h !! a = Some A.
Hypothesis HwfA : wf A.

#[local] Abbreviation n := (cols A).
#[local] Abbreviation l := (length h).

Lemma CholeskyR_inner_run R j k d spd :
  square n R -> k < j -> j < n -> j <= rows A -> spd = false \/ j < rows A ->
  exists R',
    CholeskyR_inner a l j k (d, spd) (h ++ [R])
    = (let s := (accR A R k j / get R k k)%float in
       (Ok ((d + s * s)%float, spd && (get A k j =? get A j k)%float),
        h ++ [R']))
    /\ square n R'
    /\ forall i c, i < n -> c < n ->
         get R' i c
         = if decide (i = k /\ c = j) then (accR A R k j / get R k k)%float
           else get R i c.
Proof using Ha HwfA.
  intros HR Hk Hj Hjr Hor. unfold CholeskyR_inner.
  step (At_arg h a A Ha HwfA R k j ltac:(lia) ltac:(lia)).
  assert (for_ 0 k (fun i s =>
              let* x := At l i k in
              let* y := At l i j in
              ret (s - x * y)%float) (get A k j) (h ++ [R])
          = (Ok (accR A R k j), h ++ [R])) as Hacc.
  { rewrite (for__pure (fun s i => (s - get R i k * get R i j)%float)).
    - by rewrite Nat.sub_0_r.
    - intros i s Hi.
      rewrite (bind_Ok _ _ _ _ _ (At_new h n R i k HR ltac:(lia) ltac:(lia))).
      rewrite (bind_Ok _ _ _ _ _ (At_new h n R i j HR ltac:(lia) ltac:(lia))).
      done. }
  step Hacc.
  step (At_new h n R k k HR ltac:(lia) ltac:(lia)).
  destruct (Set_new h n R k j (accR A R k j / get R k k)%float HR
              ltac:(lia) ltac:(lia)) as (R' & Hrun & HR' & Hget).
  step Hrun.
  assert ((if spd
           then let* akj := At a k j in let* ajk := At a j k in
                ret (akj =? ajk)%float
           else ret false) (h ++ [R'])
          = (Ok (spd && (get A k j =? get A j k)%float), h ++ [R'])) as Hsym.
  { destruct Hor as [->|Hlt]; [done|].
    apply (symmetry_check_run h a A Ha HwfA); lia. }
  step Hsym. exists R'. done.
Qed.

(** The inner loop of column [j]. *)
Lemma CholeskyR_inner_loop R j spd :
  square n R -> j < n -> j <= rows A -> spd = false \/ j < rows A ->
  exists R',
    for_ 0 j (CholeskyR_inner a l j) (0%float, spd) (h ++ [R])
    = (Ok (sumsqR R' j, spd && symmetric_upto A j), h ++ [R'])
    /\ square n R'
    /\ (forall i c, i < n -> c < n -> c <> j \/ j <= i -> get R' i c = get R i c)
    /\ forall k, k < j -> get R' k j = (accR A R' k j / get R' k k)%float.
Proof using Ha HwfA.
  intros HR Hj Hjr Hflag.
  pose (I := fun (k : nat) (st : float * bool) (h' : heap) =>
    let '(d, spd') := st in
    exists R', h' = h ++ [R'] /\ square n R'
      /\ (forall i c, i < n -> c < n -> c <> j \/ k <= i -> get R' i c = get R i c)
      /\ (forall i, i < k -> get R' i j = (accR A R' i j / get R' i i)%float)
      /\ d = sumsqR_prefix R' j k /\ spd' = spd && symmetric_prefix A j k).
  destruct (for__inv I (CholeskyR_inner a l j) 0 j (0%float, spd) (h ++ [R]))
    as ([d spd'] & h' & Hrun & R' & -> & HR' & Hsame & Hrec & -> & ->).
  - lia.
  - exists R. split; [done|]. split; [done|]. split; [done|].
    split; [intros; lia|]. split; [done|]. simpl. by rewrite andb_true_r.
  - intros k [d spd'] h' Hk (R1 & -> & HR1 & Hsame1 & Hrec1 & -> & ->).
    assert (spd && symmetric_prefix A j k = false \/ j < rows A) as Hflag'
      by (destruct Hflag as [->|Hlt]; [by left|by right]).
    destruct (CholeskyR_inner_run R1 j k (sumsqR_prefix R1 j k)
                (spd && symmetric_prefix A j k) HR1 ltac:(lia) Hj Hjr Hflag')
      as (R2 & Hrun & HR2 & Hget).
    cbv zeta in Hrun. eexists _, _. split; [exact Hrun|].
    exists R2. split; [done|]. split; [done|].
    assert (forall i, i < k -> accR A R2 i j = accR A R1 i j) as Hacc.
    { intros i Hi. apply accR_ext. intros t Ht.
      rewrite !Hget by lia. rewrite !decide_False by lia. done. }
    split; [|split; [|split]].
    + intros i c Hi Hc Hor. rewrite Hget by done.
      rewrite decide_False by lia. apply Hsame1; [done..|lia].
    + intros i Hi. destruct (decide (i = k)) as [->|Hne].
      * rewrite (Hget k j) by lia. rewrite decide_True by done.
        rewrite (Hget k k) by lia. rewrite decide_False by lia.
        f_equal. symmetry. apply accR_ext. intros t Ht.
        rewrite !Hget by lia. rewrite !decide_False by lia. done.
      * rewrite (Hget i j) by lia. rewrite decide_False by lia.
        rewrite (Hget i i) by lia. rewrite decide_False by lia.
        rewrite Hacc by lia. apply Hrec1. lia.
    + rewrite sumsqR_prefix_S. rewrite (Hget k j) by lia.
      rewrite decide_True by done. f_equal.
      apply sumsqR_prefix_ext. intros i Hi.
      rewrite Hget by lia. by rewrite decide_False by lia.
    + unfold symmetric_prefix. rewrite forallb_seq_S. by rewrite andb_assoc.
  - exists R'. split; [done|]. split; [done|]. split; [|done].
    intros i c Hi Hc Hor. apply Hsame; [done..|lia].
Qed.

(** The loop that clears column [j] below the diagonal. *)
Lemma CholeskyR_clear_loop R j :
  square n R -> j < n ->
  exists R',
    for_ (j + 1) n (fun k _ => Set_ l k j 0%float) tt (h ++ [R])
    = (Ok tt, h ++ [R'])
    /\ square n R'
    /\ forall i c, i < n -> c < n ->
         get R' i c = if decide (c = j /\ j < i) then 0%float else get R i c.
Proof using Type.
  intros HR Hj.
  pose (I := fun (k : nat) (_ : unit) (h' : heap) =>
    exists R', h' = h ++ [R'] /\ square n R'
      /\ forall i c, i < n -> c < n ->
           get R' i c = if decide (c = j /\ j < i < k) then 0%float else get R i c).
  destruct (for__inv I (fun k _ => Set_ l k j 0%float) (j + 1) n tt (h ++ [R]))
    as ([] & h' & Hrun & R' & -> & HR' & Hget).
  - lia.
  - exists R. split; [done|]. split; [done|]. intros i c Hi Hc.
    rewrite decide_False by lia. done.
  - intros k [] h' Hk (R1 & -> & HR1 & Hget1).
    destruct (Set_new h n R1 k j 0%float HR1 ltac:(lia) Hj) as (R2 & Hrun & HR2 & Hget2).
    exists tt, (h ++ [R2]). split; [done|].
    exists R2. split; [done|]. split; [done|]. intros i c Hi Hc.
    rewrite Hget2 by done. rewrite Hget1 by done.
    repeat case_decide; try done; lia.
  - exists R'. split; [done|]. split; [done|]. intros i c Hi Hc.
    rewrite Hget by done. repeat case_decide; try done; lia.
Qed.

(** One round of the outer loop. *)
Lemma CholeskyR_outer_run R j spd :
  square n R -> j < n -> j < rows A ->
  exists R',
    CholeskyR_outer a l n j spd (h ++ [R])
    = (Ok (spd && symmetric_upto A j && (0 <? pivotR A R' j)%float), h ++ [R'])
    /\ square n R'
    /\ (forall i c, i < n -> c < n -> c <> j -> get R' i c = get R i c)
    /\ colR A R' n j.
Proof using Ha HwfA.
  intros HR Hj Hjr. unfold CholeskyR_outer.
  destruct (CholeskyR_inner_loop R j spd HR Hj ltac:(lia) (or_intror Hjr))
    as (R1 & Hinner & HR1 & Hsame1 & Hrec).
  step Hinner.
  step (At_arg h a A Ha HwfA R1 j j ltac:(lia) ltac:(lia)).
  destruct (Set_new h n R1 j j
              (math.Sqrt (math.Max (get A j j - sumsqR R1 j) 0)) HR1 Hj Hj)
    as (R2 & Hrun2 & HR2 & Hget2).
  step Hrun2.
  destruct (CholeskyR_clear_loop R2 j HR2 Hj) as (R3 & Hrun3 & HR3 & Hget3).
  step Hrun3.
  assert (forall i c, i < n -> c < n ->
            get R3 i c
            = if decide (c = j)
              then (if decide (i < j) then get R1 i j
                    else if decide (i = j)
                         then math.Sqrt (math.Max (get A j j - sumsqR R1 j) 0)
                         else 0%float)
              else get R i c) as Hget.
  { intros i c Hi Hc. rewrite Hget3, Hget2 by done.
    repeat case_decide; try done; try lia.
    - by subst.
    - apply Hsame1; [done..|]. by left. }
  assert (sumsqR R3 j = sumsqR R1 j) as Hsum.
  { apply sumsqR_ext. intros k Hk.
    rewrite Hget by lia. rewrite decide_True by done.
    rewrite decide_True by done. done. }
  assert (pivotR A R3 j = (get A j j - sumsqR R1 j)%float) as Hpiv
    by (unfold pivotR; by rewrite Hsum).
  exists R3. split; [by rewrite Hpiv|].
  split; [done|]. split.
  - intros i c Hi Hc Hne. rewrite Hget by done. by rewrite decide_False.
  - split; [|split].
    + intros k Hk. rewrite (Hget k j) by lia.
      rewrite decide_True by done. rewrite decide_True by done.
      rewrite (Hget k k) by lia. rewrite decide_False by lia.
      rewrite Hrec by done.
      rewrite (Hsame1 k k) by (done || lia). f_equal.
      apply accR_ext. intros i Hi.
      rewrite (Hget i k) by lia. rewrite decide_False by lia.
      rewrite (Hget i j) by lia. rewrite decide_True by done.
      rewrite decide_True by lia. split; [|done].
      apply Hsame1; lia.
    + rewrite Hget by done. rewrite decide_True by done.
      rewrite decide_False by lia. rewrite decide_True by done.
      by rewrite Hpiv.
    + intros k Hk. rewrite Hget by lia. rewrite decide_True by done.
      rewrite decide_False by lia. rewrite decide_False by lia. done.
Qed.

Lemma CholeskyR_new :
  NewDense n n (make (n * n)) h = (Ok l, h ++ [mkDense n n (make (n * n))]).
Proof using Type.
  unfold NewDense, make. by rewrite length_replicate, Nat.eqb_refl.
Qed.

(** The first [m] rounds of the outer loop, for [m] within the rows of the
    input. *)
Lemma CholeskyR_rounds m :
  m <= n -> m <= rows A ->
  exists R spd,
    for_ 0 m (CholeskyR_outer a l n) (rows A =? n)
      (h ++ [mkDense n n (make (n * n))])
    = (Ok spd, h ++ [R])
    /\ square n R
    /\ (forall j, j < m -> colR A R n j)
    /\ spd = flag_upto A (pivotR A R) m.
Proof using Ha HwfA.
  intros Hmn Hmr.
  pose (I := fun (j : nat) (spd : bool) (h' : heap) =>
    exists R, h' = h ++ [R] /\ square n R
      /\ (forall j', j' < j -> colR A R n j')
      /\ spd = flag_upto A (pivotR A R) j).
  destruct (for__inv I (CholeskyR_outer a l n) 0 m
              (rows A =? n) (h ++ [mkDense n n (make (n * n))]))
    as (spd & h' & Hrun & R & -> & HR & Hcols & ->).
  - lia.
  - exists (mkDense n n (make (n * n))). split; [done|]. split.
    { split; [done|]. split; [done|]. unfold wf, make. simpl.
      by rewrite length_replicate. }
    split; [intros; lia|]. unfold flag_upto. simpl. by rewrite andb_true_r.
  - intros j spd h' Hj (R & -> & HR & Hcols & ->).
    destruct (CholeskyR_outer_run R j (flag_upto A (pivotR A R) j)
                HR ltac:(lia) ltac:(lia))
      as (R' & Hrun & HR' & Hsame & Hcol).
    eexists _, _. split; [exact Hrun|].
    exists R'. split; [done|]. split; [done|]. split.
    + intros j' Hj'. destruct (decide (j' = j)) as [->|Hne]; [done|].
      apply (colR_agree A n R); [lia| |apply Hcols; lia].
      intros i c Hi Hc. apply Hsame; lia.
    + rewrite flag_upto_S. f_equal. f_equal.
      apply flag_upto_ext. intros i Hi. symmetry.
      apply (pivotR_agree A n); [lia|]. intros c Hc. apply Hsame; lia.
  - exists R, (flag_upto A (pivotR A R) m). done.
Qed.

(** The whole of [CholeskyR]. *)
Lemma CholeskyR_run :
  cols A <= rows A ->
  exists R spd,
    CholeskyR a h = (Ok (l, spd), h ++ [R]) /\ factorR A R spd.
Proof using Ha HwfA.
  intros Hdims. unfold CholeskyR.
  step (Dims_run a h A Ha). step CholeskyR_new.
  destruct (CholeskyR_rounds n ltac:(lia) Hdims)
    as (R & spd & Hrun & HR & Hcols & ->).
  step Hrun. exists R, (flag_upto A (pivotR A R) n). done.
Qed.

(** The round of the first column that has no diagonal element in the
    input: with a false flag the inner loop does not read below the
    diagonal, and the round panics at [a.At(j, j)]. *)
Lemma CholeskyR_outer_wide R j :
  square n R -> j < n -> rows A = j ->
  exists R',
    CholeskyR_outer a l n j false (h ++ [R])
    = (Panic ErrIndexOutOfRange, h ++ [R']).
Proof using Ha HwfA.
  intros HR Hj Hjr. unfold CholeskyR_outer.
  destruct (CholeskyR_inner_loop R j false HR Hj ltac:(lia) (or_introl eq_refl))
    as (R1 & Hinner & _).
  step Hinner. exists R1. apply bind_Panic. apply (At_arg_outside h a A Ha). lia.
Qed.

(** An input with fewer rows than columns. *)
Lemma CholeskyR_wide :
  rows A < cols A ->
  exists R, CholeskyR a h = (Panic ErrIndexOutOfRange, h ++ [R]).
Proof using Ha HwfA.
  intros Hwide.
  destruct (CholeskyR_rounds (rows A) ltac:(lia) ltac:(lia))
    as (R & spd & Hrun & HR & _ & Hspd).
  assert (spd = false) as ->.
  { rewrite Hspd. unfold flag_upto.
    assert ((rows A =? n) = false) as -> by (apply Nat.eqb_neq; lia). done. }
  destruct (CholeskyR_outer_wide R (rows A) HR Hwide eq_refl) as (R' & Hpanic).
  exists R'. unfold CholeskyR.
  step (Dims_run a h A Ha). step CholeskyR_new. apply bind_Panic.
  rewrite (for__split _ 0 (rows A) n) by lia. step Hrun.
  rewrite for__first by lia. by apply bind_Panic.
Qed.

End CholeskyR_correct.

(** * Facts about binary64 arithmetic *)

(** The kernel's floats are specified by [SpecFloat] through the axioms of
    [FloatAxioms]; the facts below are read off that specification. *)

Section SF.
Local Open Scope Z_scope.

Lemma digits2_pos_lower (m : positive) : 2 ^ (Zpos (digits2_pos m) - 1) <= Zpos m.
Proof.
  induction m as [m IH|m IH|]; simpl digits2_pos.
  - rewrite Pos2Z.inj_succ. replace (Z.succ (Z.pos (digits2_pos m)) - 1) with (Z.succ (Z.pos (digits2_pos m) - 1)) by lia.
    rewrite Z.pow_succ_r by lia. lia.
  - rewrite Pos2Z.inj_succ. replace (Z.succ (Z.pos (digits2_pos m)) - 1) with (Z.succ (Z.pos (digits2_pos m) - 1)) by lia.
    rewrite Z.pow_succ_r by lia. lia.
  - simpl. lia.
Qed.

Lemma shr_1_m mrs : 0 <= shr_m mrs -> shr_m (shr_1 mrs) = shr_m mrs / 2.
Proof.
  destruct mrs as [m r s]. simpl. intros Hm. rewrite <- Z.div2_div.
  destruct m as [|[p|p|]|p]; simpl; done || lia.
Qed.

Lemma iter_shr_1_m p : forall mrs, 0 <= shr_m mrs ->
  shr_m (SpecFloat.iter_pos shr_1 p mrs) = shr_m mrs / 2 ^ Zpos p.
Proof.
  induction p as [p IH|p IH|]; intros mrs Hm; simpl SpecFloat.iter_pos.
  - assert (0 <= shr_m (shr_1 mrs)) as H1.
    { rewrite shr_1_m by done. apply Z.div_pos; lia. }
    assert (0 <= shr_m (SpecFloat.iter_pos shr_1 p (shr_1 mrs))) as H2.
    { rewrite IH by done. apply Z.div_pos; [done|]. apply Z.pow_pos_nonneg; lia. }
    rewrite IH by done. rewrite IH by done. rewrite shr_1_m by done.
    rewrite !Z.div_div by (try apply Z.pow_pos_nonneg; lia).
    f_equal. rewrite (Pos2Z.inj_xI p).
    replace (2 * Z.pos p + 1) with (1 + Z.pos p + Z.pos p) by lia.
    rewrite !Z.pow_add_r by lia. rewrite Z.pow_1_r. ring.
  - assert (0 <= shr_m (SpecFloat.iter_pos shr_1 p mrs)) as H2.
    { rewrite IH by done. apply Z.div_pos; [done|]. apply Z.pow_pos_nonneg; lia. }
    rewrite IH by done. rewrite IH by done.
    rewrite !Z.div_div by (try apply Z.pow_pos_nonneg; lia).
    f_equal. rewrite (Pos2Z.inj_xO p).
    replace (2 * Z.pos p) with (Z.pos p + Z.pos p) by lia.
    rewrite Z.pow_add_r by lia. done.
  - rewrite shr_1_m by done. done.
Qed.

Lemma shr_m_of_loc m l : shr_m (shr_record_of_loc m l) = m.
Proof. destruct l as [|[]]; done. Qed.

Lemma shr_fexp_pos m e l :
  0 < m -> SpecFloat.emin prec emax <= e ->
  0 < shr_m (shr_fexp prec emax m e l).1 /\ SpecFloat.emin prec emax <= (shr_fexp prec emax m e l).2.
Proof.
  intros Hm He. unfold shr_fexp, shr.
  destruct m as [|m|m]; try lia. simpl Zdigits2.
  pose proof (digits2_pos_lower m) as Hd.
  unfold fexp, SpecFloat.emin, prec, emax in *.
  destruct (Z.max (Z.pos (digits2_pos m) + e - 53) (3 - 1024 - 53) - e) as [|p|p] eqn:Hn; simpl.
  - rewrite shr_m_of_loc. lia.
  - rewrite iter_shr_1_m by (rewrite shr_m_of_loc; lia). rewrite shr_m_of_loc.
    split; [|lia].
    apply Z.div_str_pos. split; [apply Z.pow_pos_nonneg; lia|].
    etransitivity; [|exact Hd]. apply Z.pow_le_mono_r; lia.
  - rewrite shr_m_of_loc. lia.
Qed.

Lemma round_nearest_even_ge m l : m <= round_nearest_even m l.
Proof. destruct l as [|[]]; simpl; try lia. destruct (Z.even m); lia. Qed.

Lemma binary_round_aux_pos m e l :
  0 < m -> SpecFloat.emin prec emax <= e -> positive_sf (binary_round_aux prec emax false m e l).
Proof.
  intros Hm He. unfold binary_round_aux.
  destruct (shr_fexp_pos m e l Hm He) as [H1 H2].
  destruct (shr_fexp prec emax m e l) as [mrs1 e1]. simpl in H1, H2.
  pose proof (round_nearest_even_ge (shr_m mrs1) (loc_of_shr_record mrs1)) as Hr.
  destruct (shr_fexp_pos (round_nearest_even (shr_m mrs1) (loc_of_shr_record mrs1)) e1 loc_Exact ltac:(lia) H2) as [H3 H4].
  destruct (shr_fexp prec emax _ e1 loc_Exact) as [mrs2 e2]. simpl in H3, H4.
  destruct (shr_m mrs2); try lia.
  destruct (_ <=? _); done.
Qed.

Lemma div2_bounds e : 2 * IntDef.Z.div2 e <= e <= 2 * IntDef.Z.div2 e + 1.
Proof.
  change (IntDef.Z.div2 e) with (Z.div2 e). rewrite Z.div2_div.
  pose proof (Z.div_mod e 2 ltac:(lia)). pose proof (Z.mod_pos_bound e 2 ltac:(lia)).
  lia.
Qed.

Lemma SFsqrt_pos m e :
  valid_binary (S754_finite false m e) = true ->
  positive_sf (SFsqrt prec emax (S754_finite false m e)).
Proof.
  intros Hv. simpl in Hv. unfold bounded, canonical_mantissa in Hv.
  apply andb_prop in Hv as [Hc _]. apply Z.eqb_eq in Hc.
  assert (SpecFloat.emin prec emax <= e) as He by (unfold fexp in Hc; lia).
  unfold SFsqrt, SFsqrt_core_binary.
  set (e' := Z.min _ _).
  assert (SpecFloat.emin prec emax <= e' /\ 2 * e' <= e) as [He1 He2].
  { subst e'. pose proof (div2_bounds e).
    unfold fexp, SpecFloat.emin, prec, emax in *. lia. }
  set (m' := match e - 2 * e' with Z0 => _ | _ => _ end).
  assert (0 < m') as Hm'.
  { subst m'. destruct (e - 2 * e') as [|p|p] eqn:Hs; try lia.
    rewrite Z.shiftl_mul_pow2 by lia. apply Z.mul_pos_pos; [lia|].
    apply Z.pow_pos_nonneg; lia. }
  pose proof (Z.sqrtrem_sqrt m') as Hq.
  destruct (Z.sqrtrem m') as [q r]. simpl in Hq. subst q.
  apply binary_round_aux_pos; [|done].
  by apply Z.sqrt_pos.
Qed.
End SF.

Section FloatFacts.
Local Open Scope float_scope.

Lemma Prim2SF_0 : Prim2SF 0 = S754_zero false.
Proof. reflexivity. Qed.

Lemma ltb_0_positive d : (0 <? d) = true <-> positive_sf (Prim2SF d).
Proof.
  rewrite FloatAxioms.ltb_spec, Prim2SF_0. unfold SFltb, SFcompare, positive_sf.
  destruct (Prim2SF d) as [s|[]| |[] m e]; try destruct s; simpl; split; try done.
Qed.

Lemma sqrt_positive d : (0 <? d) = true -> (0 <? PrimFloat.sqrt d) = true.
Proof.
  rewrite !ltb_0_positive. intros Hd. rewrite FloatAxioms.sqrt_spec.
  pose proof (Prim2SF_valid d) as Hv.
  destruct (Prim2SF d) as [s|[]| |[] m e]; try done.
  by apply SFsqrt_pos.
Qed.

Lemma SFcompare_refl x : x <> S754_nan -> SFcompare x x = Some Eq.
Proof.
  intros Hx. destruct x as [s|[]| |[] m e]; simpl; try done;
    rewrite (Z.compare_refl e), (Pos.compare_cont_refl m Eq); done.
Qed.

Lemma IsNaN_spec x : math.IsNaN x = true <-> Prim2SF x = S754_nan.
Proof.
  unfold math.IsNaN. rewrite FloatAxioms.eqb_spec. unfold SFeqb.
  destruct (Prim2SF x) as [s|s| |s m e] eqn:Hx; [| |done|];
    rewrite SFcompare_refl by done; done.
Qed.

Lemma Max_0_cases d :
  math.Max d 0 = infinity
  \/ (math.IsNaN d = true /\ math.Max d 0 = nan)
  \/ math.Max d 0 = 0
  \/ (math.Max d 0 = d /\ (d =? 0) = true)
  \/ (math.Max d 0 = d /\ (0 <? d) = true).
Proof.
  unfold math.Max.
  destruct (math.IsPosInf d); [by left|].
  change (math.IsPosInf 0) with false. cbv iota beta delta [orb].
  destruct (math.IsNaN d); [right; by left|].
  change (math.IsNaN 0) with false. cbv iota beta delta [orb].
  destruct (d =? 0) eqn:Hz; simpl.
  - destruct (math.Signbit d); [right; right; by left|].
    right; right; right; by left.
  - destruct (0 <? d) eqn:Hp; [|right; right; by left].
    right; right; right; by right.
Qed.

Lemma eqb_0_not_negative d : (d =? 0) = true -> (d <? 0) = false.
Proof.
  rewrite FloatAxioms.eqb_spec, FloatAxioms.ltb_spec. unfold SFeqb, SFltb.
  destruct (SFcompare (Prim2SF d) (Prim2SF 0)) as [[]|]; done.
Qed.

Lemma positive_not_negative d : (0 <? d) = true -> (d <? 0) = false.
Proof.
  rewrite !FloatAxioms.ltb_spec, Prim2SF_0. unfold SFltb, SFcompare.
  destruct (Prim2SF d) as [s|[]| |[] m e]; try destruct s; done.
Qed.

Lemma positive_nonzero d : (0 <? d) = true -> (d =? 0) = false.
Proof.
  rewrite FloatAxioms.ltb_spec, FloatAxioms.eqb_spec, Prim2SF_0. unfold SFltb, SFeqb, SFcompare.
  destruct (Prim2SF d) as [s|[]| |[] m e]; try destruct s; done.
Qed.

Lemma Max_0_not_negative d : (math.Max d 0 <? 0) = false.
Proof.
  destruct (Max_0_cases d) as [->|[[_ ->]|[->|[[-> H]|[-> H]]]]]; try done.
  - by apply eqb_0_not_negative.
  - by apply positive_not_negative.
Qed.

Lemma positive_not_nan d : (0 <? d) = true -> math.IsNaN d = false.
Proof.
  intros Hd. apply not_true_is_false. rewrite IsNaN_spec.
  apply ltb_0_positive in Hd. by destruct (Prim2SF d).
Qed.

Lemma Max_0_positive d : (0 <? d) = true -> math.Max d 0 = d.
Proof.
  intros Hd. destruct (Max_0_cases d) as [H|[[H _]|[H|[[H _]|[H _]]]]]; try done.
  - revert H. unfold math.Max.
    destruct (math.IsPosInf d) eqn:Hinf.
    + intros _. symmetry. apply Prim2SF_inj.
      unfold math.IsPosInf in Hinf. rewrite FloatAxioms.eqb_spec in Hinf.
      change (Prim2SF infinity) with (S754_infinity false) in *.
      unfold SFeqb, SFcompare in Hinf.
      destruct (Prim2SF d) as [s|[]| |[] m e]; try destruct s; done.
    + change (math.IsPosInf 0) with false. cbv iota beta delta [orb].
      rewrite (positive_not_nan d Hd).
      change (math.IsNaN 0) with false. cbv iota beta delta [orb].
      rewrite (positive_nonzero d Hd), Hd. simpl. done.
  - by rewrite (positive_not_nan d Hd) in H.
  - revert H. unfold math.Max.
    destruct (math.IsPosInf d) eqn:Hinf; [done|].
    change (math.IsPosInf 0) with false. cbv iota beta delta [orb].
    rewrite (positive_not_nan d Hd).
    change (math.IsNaN 0) with false. cbv iota beta delta [orb].
    rewrite (positive_nonzero d Hd), Hd. simpl. done.
Qed.

Lemma Sqrt_Max_positive d :
  (0 <? d) = true -> (0 <? math.Sqrt (math.Max d 0)) = true.
Proof.
  intros Hd. rewrite Max_0_positive by done. by apply sqrt_positive.
Qed.

Lemma Sqrt_Max_not_nan d :
  math.IsNaN d = false -> math.IsNaN (math.Sqrt (math.Max d 0)) = false.
Proof.
  intros Hd. destruct (Max_0_cases d) as [->|[[H _]|[->|[[-> H]|[-> H]]]]]; try done.
  - congruence.
  - apply not_true_is_false. rewrite IsNaN_spec. unfold math.Sqrt.
    rewrite FloatAxioms.sqrt_spec. rewrite FloatAxioms.eqb_spec, Prim2SF_0 in H.
    unfold SFeqb, SFcompare in H.
    destruct (Prim2SF d) as [s|[]| |[] m e]; try destruct s; done.
  - apply positive_not_nan. by apply sqrt_positive.
Qed.

Lemma nan_add_l x : nan + x = nan.
Proof. apply Prim2SF_inj. rewrite FloatAxioms.add_spec. done. Qed.

Lemma nan_div_l x : nan / x = nan.
Proof. apply Prim2SF_inj. rewrite FloatAxioms.div_spec. done. Qed.

End FloatFacts.

(** * The claims about the factorisations *)

Lemma flag_upto_true A piv n :
  flag_upto A piv n = true
  <-> rows A = cols A
      /\ (forall j k, k < j -> j < n -> (get A k j =? get A j k)%float = true)
      /\ (forall j, j < n -> (0 <? piv j)%float = true).
Proof.
  unfold flag_upto, symmetric_upto, symmetric_prefix.
  rewrite andb_true_iff, Nat.eqb_eq, forallb_seq_true. split.
  - intros [Hsq Hall]. split; [done|]. split.
    + intros j k Hk Hj. destruct (andb_prop _ _ (Hall j Hj)) as [Hsym _].
      by apply (proj1 (forallb_seq_true _ _) Hsym).
    + intros j Hj. by destruct (andb_prop _ _ (Hall j Hj)) as [_ Hpos].
  - intros (Hsq & Hsym & Hpos). split; [done|]. intros j Hj.
    apply andb_true_intro. split; [|by apply Hpos].
    apply forallb_seq_true. intros k Hk. by apply Hsym.
Qed.

(** C3: when [CholeskyL] and [CholeskyR] return (the input has at least as
    many rows as columns; otherwise they panic in an access), the flag is
    true exactly when the input is square, every pair [k < j] passes the
    exact test [a[k,j] == a[j,k]], and every pivot, the value whose clamped
    square root becomes the diagonal entry, is strictly positive. So a
    square input with one pair that fails the test has a false flag, whatever
    its pivots. *)
Theorem spd_flag_iff (h : heap) (a : loc) (A : Dense) :
  h !! a = Some A -> wf A -> cols A <= rows A ->
  (exists L spd,
      CholeskyL a h = (Ok (length h, spd), h ++ [L])
      /\ (forall j, j < cols A ->
            get L j j = math.Sqrt (math.Max (pivotL A L j) 0))
      /\ (spd = true
          <-> rows A = cols A
              /\ (forall j k, k < j -> j < cols A ->
                    (get A k j =? get A j k)%float = true)
              /\ (forall j, j < cols A -> (0 <? pivotL A L j)%float = true))
      /\ (forall j k, k < j -> j < cols A ->
            (get A k j =? get A j k)%float = false -> spd = false))
  /\ (exists R spd,
      CholeskyR a h = (Ok (length h, spd), h ++ [R])
      /\ (forall j, j < cols A ->
            get R j j = math.Sqrt (math.Max (pivotR A R j) 0))
      /\ (spd = true
          <-> rows A = cols A
              /\ (forall j k, k < j -> j < cols A ->
                    (get A k j =? get A j k)%float = true)
              /\ (forall j, j < cols A -> (0 <? pivotR A R j)%float = true))
      /\ (forall j k, k < j -> j < cols A ->
            (get A k j =? get A j k)%float = false -> spd = false)).
Proof.
  intros Ha Hwf Hdims. split.
  - destruct (CholeskyL_run h a A Ha Hwf Hdims) as (L & spd & Hrun & HL & Hrows & ->).
    eexists L, _. split; [exact Hrun|]. split.
    { intros j Hj. by destruct (Hrows j Hj) as (_ & ? & _). }
    split; [apply flag_upto_true|].
    intros j k Hk Hj Hne. apply not_true_is_false. intros Hflag.
    apply flag_upto_true in Hflag as (_ & Hsym & _).
    rewrite (Hsym j k Hk Hj) in Hne. done.
  - destruct (CholeskyR_run h a A Ha Hwf Hdims) as (R & spd & Hrun & HR & Hcols & ->).
    eexists R, _. split; [exact Hrun|]. split.
    { intros j Hj. by destruct (Hcols j Hj) as (_ & ? & _). }
    split; [apply flag_upto_true|].
    intros j k Hk Hj Hne. apply not_true_is_false. intros Hflag.
    apply flag_upto_true in Hflag as (_ & Hsym & _).
    rewrite (Hsym j k Hk Hj) in Hne. done.
Qed.

(** C6: the factor that [CholeskyL] returns has a zero at every place
    strictly above the diagonal, and the factor that [CholeskyR] returns has
    a zero at every place strictly below it, for every input on which they
    return: no hypothesis on symmetry or definiteness. *)
Theorem factors_are_triangular (h : heap) (a : loc) (A : Dense) :
  h !! a = Some A -> wf A -> cols A <= rows A ->
  (exists L spd,
      CholeskyL a h = (Ok (length h, spd), h ++ [L])
      /\ rows L = cols A /\ cols L = cols A
      /\ forall j k, j < k -> k < cols A -> at_ L j k = Some 0%float)
  /\ (exists R spd,
      CholeskyR a h = (Ok (length h, spd), h ++ [R])
      /\ rows R = cols A /\ cols R = cols A
      /\ forall j k, k < j -> j < cols A -> at_ R j k = Some 0%float).
Proof.
  intros Ha Hwf Hdims. split.
  - destruct (CholeskyL_run h a A Ha Hwf Hdims)
      as (L & spd & Hrun & (Hr & Hc & HwfL) & Hrows & _).
    exists L, spd. split; [done|]. split; [done|]. split; [done|].
    intros j k Hjk Hk. rewrite at_Some_get by (done || lia). f_equal.
    destruct (Hrows j ltac:(lia)) as (_ & _ & Habove). apply Habove. lia.
  - destruct (CholeskyR_run h a A Ha Hwf Hdims)
      as (R & spd & Hrun & (Hr & Hc & HwfR) & Hcols & _).
    exists R, spd. split; [done|]. split; [done|]. split; [done|].
    intros j k Hkj Hj. rewrite at_Some_get by (done || lia). f_equal.
    destruct (Hcols k ltac:(lia)) as (_ & _ & Hbelow). apply Hbelow. lia.
Qed.

(** C7: on a square input [CholeskyL] (and [CholeskyR]) returns without a
    panic, whatever the entries. Each diagonal entry is the square root of
    [math.Max(d, 0)] for the pivot [d]; that argument is never below zero,
    and the entry is a NaN only when the pivot already is one. *)
Theorem factorisation_never_panics_on_square_input (h : heap) (a : loc) (A : Dense) :
  h !! a = Some A -> wf A -> rows A = cols A ->
  (exists L spd,
      CholeskyL a h = (Ok (length h, spd), h ++ [L])
      /\ forall j, j < cols A ->
           get L j j = math.Sqrt (math.Max (pivotL A L j) 0)
           /\ (math.Max (pivotL A L j) 0 <? 0)%float = false
           /\ (math.IsNaN (pivotL A L j) = false
               -> math.IsNaN (get L j j) = false))
  /\ (exists R spd,
      CholeskyR a h = (Ok (length h, spd), h ++ [R])
      /\ forall j, j < cols A ->
           get R j j = math.Sqrt (math.Max (pivotR A R j) 0)
           /\ (math.Max (pivotR A R j) 0 <? 0)%float = false
           /\ (math.IsNaN (pivotR A R j) = false
               -> math.IsNaN (get R j j) = false)).
Proof.
  intros Ha Hwf Hsq. split.
  - destruct (CholeskyL_run h a A Ha Hwf ltac:(lia)) as (L & spd & Hrun & _ & Hrows & _).
    exists L, spd. split; [done|]. intros j Hj.
    destruct (Hrows j Hj) as (_ & Hdiag & _).
    split; [done|]. split; [apply Max_0_not_negative|].
    intros Hnan. rewrite Hdiag. by apply Sqrt_Max_not_nan.
  - destruct (CholeskyR_run h a A Ha Hwf ltac:(lia)) as (R & spd & Hrun & _ & Hcols & _).
    exists R, spd. split; [done|]. intros j Hj.
    destruct (Hcols j Hj) as (_ & Hdiag & _).
    split; [done|]. split; [apply Max_0_not_negative|].
    intros Hnan. rewrite Hdiag. by apply Sqrt_Max_not_nan.
Qed.

(** C10: when the flag returned by [CholeskyL] (or [CholeskyR]) is true,
    every diagonal entry of the factor is strictly positive, hence not equal
    to zero: the divisors [l.At(k, k)] of [CholeskySolve] are then nonzero. *)
Theorem spd_factor_has_positive_diagonal (h : heap) (a : loc) (A : Dense) :
  h !! a = Some A -> wf A -> cols A <= rows A ->
  (exists L spd,
      CholeskyL a h = (Ok (length h, spd), h ++ [L])
      /\ (spd = true ->
          forall k, k < cols A ->
            (0 <? get L k k)%float = true /\ (get L k k =? 0)%float = false))
  /\ (exists R spd,
      CholeskyR a h = (Ok (length h, spd), h ++ [R])
      /\ (spd = true ->
          forall k, k < cols A ->
            (0 <? get R k k)%float = true /\ (get R k k =? 0)%float = false)).
Proof.
  intros Ha Hwf Hdims. split.
  - destruct (CholeskyL_run h a A Ha Hwf Hdims) as (L & spd & Hrun & _ & Hrows & ->).
    eexists L, _. split; [exact Hrun|]. intros Hflag k Hk.
    apply flag_upto_true in Hflag as (_ & _ & Hpos).
    destruct (Hrows k Hk) as (_ & Hdiag & _).
    assert ((0 <? get L k k)%float = true) as Hp
      by (rewrite Hdiag; apply Sqrt_Max_positive; by apply Hpos).
    split; [done|]. by apply positive_nonzero.
  - destruct (CholeskyR_run h a A Ha Hwf Hdims) as (R & spd & Hrun & _ & Hcols & ->).
    eexists R, _. split; [exact Hrun|]. intros Hflag k Hk.
    apply flag_upto_true in Hflag as (_ & _ & Hpos).
    destruct (Hcols k Hk) as (_ & Hdiag & _).
    assert ((0 <? get R k k)%float = true) as Hp
      by (rewrite Hdiag; apply Sqrt_Max_positive; by apply Hpos).
    split; [done|]. by apply positive_nonzero.
Qed.

(** ** The theorems at concrete inputs *)

Lemma spd_flag_iff_witness :
  (exists L, CholeskyL 0 [Inputs.asymmetric] = (Ok (1, false), [Inputs.asymmetric] ++ [L]))
  /\ (exists R, CholeskyR 0 [Inputs.asymmetric] = (Ok (1, false), [Inputs.asymmetric] ++ [R])).
Proof.
  destruct (spd_flag_iff [Inputs.asymmetric] 0 Inputs.asymmetric)
    as [(L & spdL & HrunL & _ & _ & HasymL) (R & spdR & HrunR & _ & _ & HasymR)];
    [reflexivity | reflexivity | simpl; lia |].
  split.
  - exists L. rewrite <- (HasymL 1 0); [exact HrunL | lia | simpl; lia | reflexivity].
  - exists R. rewrite <- (HasymR 1 0); [exact HrunR | lia | simpl; lia | reflexivity].
Defined.

Lemma factors_are_triangular_witness :
  (exists L spd,
      CholeskyL 0 [Examples.A1] = (Ok (1, spd), [Examples.A1] ++ [L])
      /\ at_ L 0 1 = Some 0%float)
  /\ (exists R spd,
      CholeskyR 0 [Examples.A1] = (Ok (1, spd), [Examples.A1] ++ [R])
      /\ at_ R 1 0 = Some 0%float).
Proof.
  destruct (factors_are_triangular [Examples.A1] 0 Examples.A1)
    as [(L & spdL & HrunL & _ & _ & HL) (R & spdR & HrunR & _ & _ & HR)];
    [reflexivity | reflexivity | simpl; lia |].
  split.
  - exists L, spdL. split; [exact HrunL|]. apply HL; simpl; lia.
  - exists R, spdR. split; [exact HrunR|]. apply HR; simpl; lia.
Defined.

Lemma factorisation_never_panics_on_square_input_witness :
  (exists L spd,
      CholeskyL 0 [Inputs.indefinite] = (Ok (1, spd), [Inputs.indefinite] ++ [L])
      /\ (math.Max (pivotL Inputs.indefinite L 1) 0 <? 0)%float = false)
  /\ (exists R spd,
      CholeskyR 0 [Inputs.indefinite] = (Ok (1, spd), [Inputs.indefinite] ++ [R])
      /\ (math.Max (pivotR Inputs.indefinite R 1) 0 <? 0)%float = false).
Proof.
  destruct (factorisation_never_panics_on_square_input
              [Inputs.indefinite] 0 Inputs.indefinite)
    as [(L & spdL & HrunL & HL) (R & spdR & HrunR & HR)];
    [reflexivity | reflexivity | reflexivity |].
  split.
  - exists L, spdL. split; [exact HrunL|].
    destruct (HL 1) as (_ & Hclamp & _); [simpl; lia | exact Hclamp].
  - exists R, spdR. split; [exact HrunR|].
    destruct (HR 1) as (_ & Hclamp & _); [simpl; lia | exact Hclamp].
Defined.

Lemma spd_factor_has_positive_diagonal_witness :
  (exists L spd,
      CholeskyL 0 [Examples.A1] = (Ok (1, spd), [Examples.A1] ++ [L])
      /\ (spd = true -> (get L 1 1 =? 0)%float = false))
  /\ (exists R spd,
      CholeskyR 0 [Examples.A1] = (Ok (1, spd), [Examples.A1] ++ [R])
      /\ (spd = true -> (get R 1 1 =? 0)%float = false)).
Proof.
  destruct (spd_factor_has_positive_diagonal [Examples.A1] 0 Examples.A1)
    as [(L & spdL & HrunL & HL) (R & spdR & HrunR & HR)];
    [reflexivity | reflexivity | simpl; lia |].
  split.
  - exists L, spdL. split; [exact HrunL|]. intros Hspd.
    destruct (HL Hspd 1) as [_ Hnz]; [simpl; lia | exact Hnz].
  - exists R, spdR. split; [exact HrunR|]. intros Hspd.
    destruct (HR Hspd 1) as [_ Hnz]; [simpl; lia | exact Hnz].
Defined.

(** * The zero matrix *)

Lemma fold_left_nan (f : nat -> float) (l : list nat) :
  fold_left (fun s i => (s + f i)%float) l nan = nan.
Proof.
  induction l as [|i l IH]; simpl; [done|]. by rewrite nan_add_l.
Qed.

Lemma seq_0_S (k : nat) : seq 0 (S k) = 0 :: seq 1 k.
Proof. reflexivity. Qed.

(** C4, as the code has it: on the zero matrix of order [n >= 1],
    [CholeskyL] returns a false flag and a factor whose first row and whose
    entries above the diagonal are zero; every entry on or below the
    diagonal of the rows after the first is a NaN, since [l[j,0]] is
    [(0 - 0) / l[0,0]] with [l[0,0] = 0]. The factor is the zero matrix only
    for [n = 1]. *)
Theorem CholeskyL_zero_matrix (h : heap) (a : loc) (n : nat) :
  h !! a = Some (zero_matrix n) -> 1 <= n ->
  exists L,
    CholeskyL a h = (Ok (length h, false), h ++ [L])
    /\ (forall k, k < n -> at_ L 0 k = Some 0%float)
    /\ (forall j k, j < k -> k < n -> at_ L j k = Some 0%float)
    /\ (forall j k, 1 <= j -> j < n -> k <= j -> at_ L j k = Some nan).
Proof.
  intros Ha Hn.
  assert (wf (zero_matrix n)) as Hwf
    by (unfold wf, zero_matrix, make; simpl; by rewrite length_replicate).
  destruct (CholeskyL_run h a (zero_matrix n) Ha Hwf ltac:(done))
    as (L & spd & Hrun & (Hr & Hc & HwfL) & Hrows & Hflag).
  change (cols (zero_matrix n)) with n in *.
  assert (forall i j, get (zero_matrix n) i j = 0%float) as Hzero
    by (intros; apply get_make).
  assert (get L 0 0 = 0%float) as H00.
  { destruct (Hrows 0 ltac:(lia)) as (_ & Hdiag & _).
    rewrite Hdiag. unfold pivotL, sumsqL. rewrite Hzero. reflexivity. }
  assert (forall j, 1 <= j -> j < n -> get L j 0 = nan) as Hcol0.
  { intros j Hj1 Hj. destruct (Hrows j Hj) as (Hbelow & _ & _).
    rewrite Hbelow by lia. rewrite Hzero, H00. reflexivity. }
  assert (forall j k, 1 <= j -> j < n -> k <= j -> get L j k = nan) as Hnan.
  { intros j k Hj1 Hj Hk. destruct (Hrows j Hj) as (Hbelow & Hdiag & _).
    destruct (decide (k = j)) as [->|Hne].
    - rewrite Hdiag. unfold pivotL, sumsqL. rewrite Hzero.
      destruct j as [|j]; [lia|]. rewrite seq_0_S. simpl fold_left.
      rewrite Hcol0 by lia. change (0 + nan * nan)%float with nan.
      rewrite (fold_left_nan (fun k => (get L (S j) k * get L (S j) k)%float)).
      reflexivity.
    - destruct k as [|k]; [by apply Hcol0|].
      rewrite Hbelow by lia. rewrite Hzero. unfold dotL.
      rewrite seq_0_S. simpl fold_left.
      rewrite !Hcol0 by lia. change (0 + nan * nan)%float with nan.
      rewrite (fold_left_nan (fun i => (get L (S k) i * get L j i)%float)).
      change (0 - nan)%float with nan. apply nan_div_l. }
  assert (spd = false) as ->.
  { rewrite Hflag. apply not_true_is_false. intros Htrue.
    apply flag_upto_true in Htrue as (_ & _ & Hpos).
    specialize (Hpos 0 ltac:(lia)). unfold pivotL, sumsqL in Hpos.
    rewrite Hzero in Hpos. simpl in Hpos. done. }
  exists L. split; [done|]. split; [|split].
  - intros k Hk. rewrite at_Some_get by (done || lia). f_equal.
    destruct (decide (k = 0)) as [->|Hne]; [done|].
    destruct (Hrows 0 ltac:(lia)) as (_ & _ & Habove). apply Habove. lia.
  - intros j k Hjk Hk. rewrite at_Some_get by (done || lia). f_equal.
    destruct (Hrows j ltac:(lia)) as (_ & _ & Habove). apply Habove. lia.
  - intros j k Hj1 Hj Hk. rewrite at_Some_get by (done || lia). f_equal.
    by apply Hnan.
Qed.

Lemma CholeskyL_zero_matrix_witness :
  exists L,
    CholeskyL 0 [zero_matrix 3] = (Ok (1, false), [zero_matrix 3] ++ [L])
    /\ at_ L 0 0 = Some 0%float
    /\ at_ L 1 2 = Some 0%float
    /\ at_ L 2 1 = Some nan.
Proof.
  destruct (CholeskyL_zero_matrix [zero_matrix 3] 0 3)
    as (L & Hrun & Hrow0 & Habove & Hnan); [reflexivity | lia |].
  exists L. split; [exact Hrun|]. split; [|split].
  - apply Hrow0. lia.
  - apply Habove; lia.
  - apply Hnan; lia.
Defined.

(** C4, as the claim has it, fails at order 2: the entry [(1, 0)] of the
    factor of the zero matrix is a NaN, which is not zero, not even for
    [==]. *)
Lemma CholeskyL_zero_matrix_order_2_is_not_zero :
  exists L,
    CholeskyL 0 [zero_matrix 2] = (Ok (1, false), [zero_matrix 2; L])
    /\ at_ L 1 0 = Some nan
    /\ at_ L 1 0 <> Some 0%float
    /\ (nan =? 0)%float = false.
Proof.
  eexists. split; [vm_compute; reflexivity|].
  split; [reflexivity|]. split; [|reflexivity].
  intros H. apply (f_equal (fun o => Prim2SF (default 0%float o))) in H.
  vm_compute in H. discriminate H.
Qed.

(** * Factorise, then solve *)

(** C2, as the claim has it, fails: for [A = [[4,2],[2,3]]] and the one
    column [B = [[1],[2]]] the call of [CholeskySolve] does not return; it
    panics with [ErrShape] (the check of C1), leaving [B] as it was. *)
Lemma solve_example_is_refused :
  exists L,
    factorise_and_solve 0 1 [Examples.A1; Examples.B21]
    = (Panic ErrShape, [Examples.A1; Examples.B21; L]).
Proof. eexists. vm_compute. reflexivity. Qed.

(** C2, as the code has it: with the same [A] and a right-hand side of two
    columns whose first column is [[1],[2]], which the check lets through,
    the factor is [[2,0],[1,sqrt 2]] and the first column of the result is
    [[-0.125],[0.75]] within [1e-9]: the solution of [A.x = [1,2]]. The
    values [[0.0625],[0.625]] of the claim are not within that tolerance,
    and they do not solve the system: [4 * 0.0625 + 2 * 0.625] is [1.5]. *)
Theorem solve_example :
  exists L X,
    factorise_and_solve 0 1 [Examples.A1; Examples.B22]
    = (Ok 1, [Examples.A1; X; L])
    /\ L = ofRows 2 2 [[2; 0]; [1; math.Sqrt 2]]%float
    /\ within_tolerance (get X 0 0) (-0.125) = true
    /\ within_tolerance (get X 1 0) 0.75 = true
    /\ within_tolerance (4 * get X 0 0 + 2 * get X 1 0) 1 = true
    /\ within_tolerance (2 * get X 0 0 + 3 * get X 1 0) 2 = true
    /\ within_tolerance (get X 0 0) 0.0625 = false
    /\ within_tolerance (get X 1 0) 0.625 = false
    /\ (4 * 0.0625 + 2 * 0.625 = 1.5)%float.
Proof.
  eexists _, _. split; [vm_compute; reflexivity|].
  repeat split; vm_compute; reflexivity.
Qed.

(** * The two factorisations side by side *)

(** ** Symmetric positive-definite inputs *)

Ltac entry i j :=
  let v := eval vm_compute in (Prim2SF (get gap i j)) in
  replace (Prim2SF (get gap i j)) with v by (vm_compute; reflexivity);
  simpl.

Lemma gap_entries (i j : nat) : i < 4 -> j < 4 ->
  finite (get gap i j) = true /\ get gap i j = get gap j i.
Proof.
  intros Hi Hj.
  do 4 (destruct i as [|i]; [do 4 (destruct j as [|j]; [split; vm_compute; reflexivity|]); lia|]).
  lia.
Qed.

Section Gap.
Local Open Scope R_scope.

Lemma gap_quadratic_form (x : nat -> R) :
  quadratic_form gap x
  = (65066435 * x 0%nat + 59515875 * x 2%nat - 29051158 * x 3%nat) ^ 2
    + (x 1%nat - 35328446 * x 2%nat + 66564117 * x 3%nat) ^ 2
    + (51230113 * x 2%nat - 50266769 * x 3%nat) ^ 2
    + x 3%nat ^ 2 + x 0%nat ^ 2.
Proof.
  unfold quadratic_form, sumR. change (cols gap) with 4%nat.
  cbn [seq fold_right]. unfold F2R.
  entry 0%nat 0%nat. entry 0%nat 1%nat. entry 0%nat 2%nat. entry 0%nat 3%nat.
  entry 1%nat 0%nat. entry 1%nat 1%nat. entry 1%nat 2%nat. entry 1%nat 3%nat.
  entry 2%nat 0%nat. entry 2%nat 1%nat. entry 2%nat 2%nat. entry 2%nat 3%nat.
  entry 3%nat 0%nat. entry 3%nat 1%nat. entry 3%nat 2%nat. entry 3%nat 3%nat.
  field.
Qed.

Lemma gap_SPD : SPD gap.
Proof.
  split; [reflexivity|]. split; [reflexivity|]. split; [apply gap_entries|].
  intros x (i & Hi & Hx). rewrite gap_quadratic_form.
  change (cols gap) with 4%nat in Hi.
  set (y0 := 65066435 * x 0%nat + 59515875 * x 2%nat - 29051158 * x 3%nat).
  set (y1 := x 1%nat - 35328446 * x 2%nat + 66564117 * x 3%nat).
  set (y2 := 51230113 * x 2%nat - 50266769 * x 3%nat).
  pose proof (pow2_ge_0 y0). pose proof (pow2_ge_0 y1). pose proof (pow2_ge_0 y2).
  pose proof (pow2_ge_0 (x 3%nat)). pose proof (pow2_ge_0 (x 0%nat)).
  assert (forall r, r <> 0 -> 0 < r ^ 2) as Hpos.
  { intros r Hr. rewrite <- Rsqr_pow2. by apply Rsqr_pos_lt. }
  destruct (Req_dec (x 3%nat) 0) as [Hx3|Hx3]; [|specialize (Hpos _ Hx3); lra].
  destruct (Req_dec (x 0%nat) 0) as [Hx0|Hx0]; [|specialize (Hpos _ Hx0); lra].
  destruct (Req_dec (x 2%nat) 0) as [Hx2|Hx2].
  - assert (y1 <> 0) as Hy1.
    { subst y1. rewrite Hx3, Hx2.
      do 4 (destruct i as [|i]; [try contradiction; try lra|]); try lia. }
    specialize (Hpos _ Hy1). lra.
  - assert (y2 <> 0) as Hy2 by (subst y2; rewrite Hx3; lra).
    specialize (Hpos _ Hy2). lra.
Qed.
End Gap.

(** C5, as the claim has it, fails: on the symmetric positive-definite
    input [gap] the flag of [CholeskyL] is true and the flag of [CholeskyR]
    is false; the last diagonal entries are one and zero, and the entries
    [l[3,2]] and [r[2,3]] differ. *)
Lemma factors_differ_on_an_SPD_input :
  SPD gap
  /\ exists L R,
      CholeskyL 0 [gap] = (Ok (1, true), [gap; L])
      /\ CholeskyR 0 [gap] = (Ok (1, false), [gap; R])
      /\ get L 3 3 = 1%float /\ get R 3 3 = 0%float
      /\ (get L 3 2 =? get R 2 3)%float = false.
Proof.
  split; [apply gap_SPD|].
  eexists _, _. split; [vm_compute; reflexivity|].
  split; [vm_compute; reflexivity|].
  repeat split; vm_compute; reflexivity.
Qed.

(** ** When the factors are transposes *)

Lemma sub_0_r (x : float) : (x - 0)%float = x.
Proof.
  apply Prim2SF_inj. rewrite FloatAxioms.sub_spec.
  change (Prim2SF 0) with (S754_zero false).
  destruct (Prim2SF x) as [[]|[]| |[] m e]; reflexivity.
Qed.

Lemma factors_transposed (A L R : Dense) (spdL spdR : bool) :
  (forall j k, k < j -> j < cols A -> get A k j = get A j k) ->
  factorL A L spdL -> factorR A R spdR -> orders_agree A L ->
  (forall j k, j < cols A -> k < cols A -> get L j k = get R k j)
  /\ spdL = spdR.
Proof.
  intros Hsym (_ & Hrows & ->) (_ & Hcols & ->) Hagree.
  assert (forall j, j < cols A -> forall k, k <= j -> get L j k = get R k j) as Hlow.
  { induction j as [j IHj] using lt_wf_ind. intros Hj.
    induction k as [k IHk] using lt_wf_ind. intros Hk.
    destruct (Hrows j Hj) as (Hbelow & HdiagL & _).
    destruct (Hcols j Hj) as (Habove & HdiagR & _).
    destruct (decide (k = j)) as [->|Hne].
    - rewrite HdiagL, HdiagR. unfold pivotL, pivotR. do 3 f_equal.
      apply fold_left_ext_in. intros s i Hi%in_seq_0.
      rewrite (IHk i) by lia. done.
    - rewrite Hbelow, Habove by lia.
      rewrite (IHj k ltac:(lia) ltac:(lia) k) by lia. f_equal.
      assert (accR A R k j = subtract_in_turn A L k j) as ->.
      { unfold accR, subtract_in_turn. rewrite Hsym by lia.
        apply fold_left_ext_in. intros s i Hi%in_seq_0.
        rewrite (IHj k ltac:(lia) ltac:(lia) i) by lia.
        rewrite (IHk i) by lia. done. }
      destruct k as [|k]; [|apply Hagree; lia].
      unfold dotL, subtract_in_turn. simpl. apply sub_0_r. }
  assert (forall j, j < cols A -> pivotL A L j = pivotR A R j) as Hpiv.
  { intros j Hj. unfold pivotL, pivotR. f_equal.
    apply fold_left_ext_in. intros s i Hi%in_seq_0.
    rewrite (Hlow j Hj i) by lia. done. }
  split; [|by apply flag_upto_ext].
  intros j k Hj Hk. destruct (decide (k <= j)) as [Hle|Hgt]; [by apply Hlow|].
  destruct (Hrows j Hj) as (_ & _ & HzeroL).
  destruct (Hcols j Hj) as (_ & _ & HzeroR).
  rewrite HzeroL, HzeroR by lia. done.
Qed.

(** C5, as the code has it: for a square input whose mirrored entries are
    the same floats, the factors of [CholeskyL] and [CholeskyR] are exact
    transposes and the flags are equal as soon as the two orders of
    subtraction round alike ([orders_agree]), which no input of order at
    most two can fail. *)
Theorem transposes_when_orders_agree (h : heap) (a : loc) (A : Dense) :
  h !! a = Some A -> wf A -> rows A = cols A ->
  (forall j k, k < j -> j < cols A -> get A k j = get A j k) ->
  exists L R spdL spdR,
    CholeskyL a h = (Ok (length h, spdL), h ++ [L])
    /\ CholeskyR a h = (Ok (length h, spdR), h ++ [R])
    /\ (orders_agree A L ->
        (forall j k, j < cols A -> k < cols A -> get L j k = get R k j)
        /\ spdL = spdR)
    /\ (cols A <= 2 -> orders_agree A L).
Proof.
  intros Ha Hwf Hsq Hsym.
  destruct (CholeskyL_run h a A Ha Hwf ltac:(lia)) as (L & spdL & HrunL & HL).
  destruct (CholeskyR_run h a A Ha Hwf ltac:(lia)) as (R & spdR & HrunR & HR).
  exists L, R, spdL, spdR. split; [done|]. split; [done|]. split.
  - by apply factors_transposed.
  - intros Hn j k Hk Hkj Hj. lia.
Qed.

Lemma transposes_when_orders_agree_witness :
  exists L R spdL spdR,
    CholeskyL 0 [A3] = (Ok (1, spdL), [A3] ++ [L])
    /\ CholeskyR 0 [A3] = (Ok (1, spdR), [A3] ++ [R])
    /\ (forall j k, j < 3 -> k < 3 -> get L j k = get R k j)
    /\ spdL = spdR.
Proof.
  destruct (transposes_when_orders_agree [A3] 0 A3)
    as (L & R & spdL & spdR & HrunL & HrunR & Hagree & _);
    [reflexivity | reflexivity | reflexivity | |].
  { intros j k Hk Hj. change (cols A3) with 3 in Hj.
    do 3 (destruct j as [|j]; [do 3 (destruct k as [|k]; [reflexivity || lia|]); lia|]).
    lia. }
  exists L, R, spdL, spdR. split; [exact HrunL|]. split; [exact HrunR|].
  apply Hagree.
  pose proof (f_equal (fun r => default A3 (r.2 !! 1)) HrunL) as HL.
  vm_compute in HL. subst L.
  intros j k Hk1 Hk Hj. change (cols A3) with 3 in Hj.
  do 3 (destruct j as [|j]; [do 3 (destruct k as [|k]; [reflexivity || lia|]); lia|]).
  lia.
Defined.

(** * [CholeskySolve] substitutes forwards, then backwards *)

Lemma forward_sum_ext (L X X' : Dense) k j s :
  (forall i, i < k -> get X i j = get X' i j) ->
  forward_sum L X k j s = forward_sum L X' k j s.
Proof.
  intros H. apply fold_left_ext_in. intros a i Hi%in_seq_0. by rewrite H.
Qed.

Lemma backward_sum_ext (L X X' : Dense) n k j s :
  (forall i, k < i < n -> get X i j = get X' i j) ->
  backward_sum L X n k j s = backward_sum L X' n k j s.
Proof.
  intros H. apply fold_left_ext_in. intros a i Hi%in_seq. by rewrite H by lia.
Qed.

Section Substitution.

Variables (h : heap) (l x : loc) (L : Dense) (n r : nat).
Hypothesis Hl : h !! l = Some L.
Hypothesis HL : square n L.
Hypothesis Hne : l <> x.
Hypothesis Hx : x < length h.

(** The right-hand side while it is overwritten: [r] rows of [n]
    elements. *)
#[local] Abbreviation shaped X := (wf X /\ rows X = r /\ cols X = n).

Lemma lookup_rhs X : (<[x := X]> h) !! x = Some X.
Proof using Hx. apply list_lookup_insert_eq. exact Hx. Qed.

Lemma lookup_factor X : (<[x := X]> h) !! l = Some L.
Proof using Hl Hne. rewrite list_lookup_insert_ne; [exact Hl|]. intros Heq. apply Hne. symmetry. exact Heq. Qed.

Lemma At_rhs X i j :
  shaped X -> i < r -> j < n ->
  At x i j (<[x := X]> h) = (Ok (get X i j), <[x := X]> h).
Proof using Hx.
  clear Hl HL Hne. intros (Hwf & Hr & Hc) Hi Hj. apply At_run; [apply lookup_rhs|done|lia..].
Qed.

Lemma At_factor X i j :
  i < n -> j < n ->
  At l i j (<[x := X]> h) = (Ok (get L i j), <[x := X]> h).
Proof using Hl Hne HL.
  clear Hx. intros Hi Hj. destruct HL as (Hr & Hc & Hwf).
  apply At_run; [apply lookup_factor|done|lia..].
Qed.

Lemma Set_rhs X i j v :
  shaped X -> i < r -> j < n ->
  exists X', Set_ x i j v (<[x := X]> h) = (Ok tt, <[x := X']> h)
    /\ shaped X'
    /\ forall i' j', i' < r -> j' < n ->
         get X' i' j' = if decide (i' = i /\ j' = j) then v else get X i' j'.
Proof using Hx.
  clear Hl HL Hne. intros (Hwf & Hr & Hc) Hi Hj.
  destruct (Set_run x (<[x := X]> h) X i j v) as (X' & Hset & Hrun);
    [apply lookup_rhs|done|lia..|].
  exists X'. rewrite list_insert_insert_eq in Hrun. split; [done|].
  destruct (set_dims _ _ _ _ _ Hset) as [Hr' Hc']. split.
  - split; [by eapply set_wf|]. split; lia.
  - intros i' j' Hi' Hj'. eapply get_set; [done..|lia|lia].
Qed.

(** [x.Set(k, j, x.At(k, j) - x.At(i, j) * l.At(p, q))] *)
Lemma elim_run X k j i p q :
  shaped X -> k < r -> i < r -> j < n -> p < n -> q < n ->
  exists X', elim x l k j i p q (<[x := X]> h) = (Ok tt, <[x := X']> h)
    /\ shaped X'
    /\ forall i' j', i' < r -> j' < n ->
         get X' i' j'
         = if decide (i' = k /\ j' = j)
           then (get X k j - get X i j * get L p q)%float
           else get X i' j'.
Proof using Hl Hne HL Hx.
  intros HX Hk Hi Hj Hp Hq. unfold elim.
  step (At_rhs X k j HX Hk Hj).
  step (At_rhs X i j HX Hi Hj).
  step (At_factor X p q Hp Hq).
  apply Set_rhs; done.
Qed.

(** [x.Set(k, j, x.At(k, j) / l.At(k, k))] *)
Lemma scale_run X k j :
  shaped X -> k < r -> k < n -> j < n ->
  exists X', scale x l k j (<[x := X]> h) = (Ok tt, <[x := X']> h)
    /\ shaped X'
    /\ forall i' j', i' < r -> j' < n ->
         get X' i' j'
         = if decide (i' = k /\ j' = j)
           then (get X k j / get L k k)%float
           else get X i' j'.
Proof using Hl Hne HL Hx.
  intros HX Hk Hkn Hj. unfold scale.
  step (At_rhs X k j HX Hk Hj).
  step (At_factor X k k Hkn Hkn).
  apply Set_rhs; done.
Qed.

(** The innermost loop of either pass: the products of the elements
    [x[i,j]], [lo <= i < hi], with the elements [l[p i, q i]] are
    subtracted from [x[k,j]] in turn. *)
Lemma elim_loop X k j (p q : nat -> nat) lo hi :
  shaped X -> k < r -> j < n -> lo <= hi ->
  (forall i, lo <= i < hi -> i < r /\ i <> k /\ p i < n /\ q i < n) ->
  exists X',
    for_ lo hi (fun i _ => elim x l k j i (p i) (q i)) tt (<[x := X]> h)
    = (Ok tt, <[x := X']> h)
    /\ shaped X'
    /\ forall i' j', i' < r -> j' < n ->
         get X' i' j'
         = if decide (i' = k /\ j' = j)
           then fold_left (fun s i => (s - get X i j * get L (p i) (q i))%float)
                  (seq lo (hi - lo)) (get X k j)
           else get X i' j'.
Proof using Hl Hne HL Hx.
  intros HX Hk Hj Hle Hrange.
  pose (I := fun (i : nat) (_ : unit) (h' : heap) =>
    exists X', h' = <[x := X']> h /\ shaped X'
      /\ forall i' j', i' < r -> j' < n ->
           get X' i' j'
           = if decide (i' = k /\ j' = j)
             then fold_left (fun s i => (s - get X i j * get L (p i) (q i))%float)
                    (seq lo (i - lo)) (get X k j)
             else get X i' j').
  destruct (for__inv I (fun i _ => elim x l k j i (p i) (q i)) lo hi tt
              (<[x := X]> h)) as ([] & h' & Hrun & X' & -> & HX' & Hget).
  - done.
  - exists X. split; [done|]. split; [done|]. intros i' j' Hi' Hj'.
    rewrite Nat.sub_diag. simpl. case_decide as Heq; [|done].
    by destruct Heq as [-> ->].
  - intros i [] h' Hi (X1 & -> & HX1 & Hget1).
    destruct (Hrange i Hi) as (Hir & Hik & Hp & Hq).
    destruct (elim_run X1 k j i (p i) (q i) HX1 Hk Hir Hj Hp Hq)
      as (X2 & Hrun & HX2 & Hget2).
    exists tt, (<[x := X2]> h). split; [done|].
    exists X2. split; [done|]. split; [done|]. intros i' j' Hi' Hj'.
    rewrite Hget2 by done. case_decide as Heq.
    + replace (Datatypes.S i - lo) with (Datatypes.S (i - lo)) by lia.
      rewrite seq_S_end, fold_left_app. simpl.
      replace (lo + (i - lo)) with i by lia.
      rewrite (Hget1 k j) by done. rewrite decide_True by done.
      rewrite (Hget1 i j) by done. rewrite decide_False by lia. done.
    + rewrite Hget1 by done. by rewrite decide_False.
  - exists X'. done.
Qed.

(** One element of either pass: the innermost loop, then the division by
    the diagonal element. *)
Lemma solve_cell X k j (p q : nat -> nat) lo hi :
  shaped X -> k < r -> k < n -> j < n -> lo <= hi ->
  (forall i, lo <= i < hi -> i < r /\ i <> k /\ p i < n /\ q i < n) ->
  exists X',
    (for_ lo hi (fun i _ => elim x l k j i (p i) (q i)) tt ;;; scale x l k j)
      (<[x := X]> h)
    = (Ok tt, <[x := X']> h)
    /\ shaped X'
    /\ forall i' j', i' < r -> j' < n ->
         get X' i' j'
         = if decide (i' = k /\ j' = j)
           then (fold_left (fun s i => (s - get X i j * get L (p i) (q i))%float)
                   (seq lo (hi - lo)) (get X k j) / get L k k)%float
           else get X i' j'.
Proof using Hl Hne HL Hx.
  intros HX Hk Hkn Hj Hle Hrange.
  destruct (elim_loop X k j p q lo hi HX Hk Hj Hle Hrange)
    as (X1 & Hrun1 & HX1 & Hget1).
  step Hrun1.
  destruct (scale_run X1 k j HX1 Hk Hkn Hj) as (X2 & Hrun2 & HX2 & Hget2).
  exists X2. split; [done|]. split; [done|]. intros i' j' Hi' Hj'.
  rewrite Hget2 by done. case_decide as Heq.
  - rewrite (Hget1 k j) by done. by rewrite decide_True.
  - rewrite Hget1 by done. by rewrite decide_False.
Qed.

(** One row of either pass. *)
Lemma solve_row X k (p q : nat -> nat) lo hi :
  shaped X -> k < r -> k < n -> lo <= hi ->
  (forall i, lo <= i < hi -> i < r /\ i <> k /\ p i < n /\ q i < n) ->
  exists X',
    for_ 0 n (fun j _ =>
      for_ lo hi (fun i _ => elim x l k j i (p i) (q i)) tt ;;; scale x l k j) tt
      (<[x := X]> h)
    = (Ok tt, <[x := X']> h)
    /\ shaped X'
    /\ forall i' j', i' < r -> j' < n ->
         get X' i' j'
         = if decide (i' = k)
           then (fold_left (fun s i => (s - get X i j' * get L (p i) (q i))%float)
                   (seq lo (hi - lo)) (get X k j') / get L k k)%float
           else get X i' j'.
Proof using Hl Hne HL Hx.
  intros HX Hk Hkn Hle Hrange.
  pose (I := fun (j : nat) (_ : unit) (h' : heap) =>
    exists X', h' = <[x := X']> h /\ shaped X'
      /\ forall i' j', i' < r -> j' < n ->
           get X' i' j'
           = if decide (i' = k /\ j' < j)
             then (fold_left (fun s i => (s - get X i j' * get L (p i) (q i))%float)
                     (seq lo (hi - lo)) (get X k j') / get L k k)%float
             else get X i' j').
  destruct (for__inv I (fun j _ =>
              for_ lo hi (fun i _ => elim x l k j i (p i) (q i)) tt ;;;
              scale x l k j) 0 n tt (<[x := X]> h))
    as ([] & h' & Hrun & X' & -> & HX' & Hget).
  - lia.
  - exists X. split; [done|]. split; [done|]. intros i' j' Hi' Hj'.
    rewrite decide_False by lia. done.
  - intros j [] h' Hj (X1 & -> & HX1 & Hget1).
    destruct (solve_cell X1 k j p q lo hi HX1 Hk Hkn ltac:(lia) Hle Hrange)
      as (X2 & Hrun & HX2 & Hget2).
    exists tt, (<[x := X2]> h). split; [done|].
    exists X2. split; [done|]. split; [done|]. intros i' j' Hi' Hj'.
    rewrite Hget2 by done. case_decide as Heq.
    + destruct Heq as [-> ->]. rewrite decide_True by lia.
      rewrite (Hget1 k j) by lia. rewrite decide_False by lia. f_equal.
      apply fold_left_ext_in. intros s i Hi%in_seq.
      destruct (Hrange i ltac:(lia)) as (Hir & Hik & _).
      rewrite (Hget1 i j) by lia. rewrite decide_False by lia. done.
    + rewrite Hget1 by done.
      destruct (decide (i' = k /\ j' < j)) as [[-> Hlt]|Hn].
      * rewrite decide_True by lia. done.
      * rewrite decide_False by lia. done.
  - exists X'. split; [done|]. split; [done|]. intros i' j' Hi' Hj'.
    rewrite Hget by done.
    destruct (decide (i' = k)) as [->|Hn].
    + rewrite decide_True by lia. done.
    + rewrite decide_False by lia. done.
Qed.

(** The body of the loop over [k] of the first pass, and of the second. *)
#[local] Abbreviation forward_body := (fun (k : nat) (_ : unit) =>
  for_ 0 n (fun j _ =>
    for_ 0 k (fun i _ => elim x l k j i k i) tt ;;; scale x l k j) tt).
#[local] Abbreviation backward_body := (fun (k : nat) (_ : unit) =>
  for_ 0 n (fun j _ =>
    for_ (k + 1) n (fun i _ => elim x l k j i i k) tt ;;; scale x l k j) tt).

(** The first [m] rounds of the first pass. *)
Lemma forward_rows B m :
  shaped B -> m <= n -> m <= r ->
  exists Y,
    for_ 0 m forward_body tt (<[x := B]> h) = (Ok tt, <[x := Y]> h)
    /\ shaped Y
    /\ (forall k j, k < m -> j < n ->
          get Y k j = (forward_sum L Y k j (get B k j) / get L k k)%float)
    /\ forall i j, m <= i < r -> j < n -> get Y i j = get B i j.
Proof using Hl Hne HL Hx.
  intros HB Hmn Hmr.
  pose (I := fun (k : nat) (_ : unit) (h' : heap) =>
    exists Y, h' = <[x := Y]> h /\ shaped Y
      /\ (forall k' j, k' < k -> j < n ->
            get Y k' j = (forward_sum L Y k' j (get B k' j) / get L k' k')%float)
      /\ forall i j, k <= i < r -> j < n -> get Y i j = get B i j).
  destruct (for__inv I forward_body 0 m tt (<[x := B]> h))
    as ([] & h' & Hrun & Y & -> & HY & Hdone & Hrest).
  - lia.
  - exists B. split; [done|]. split; [done|]. split; [intros; lia|done].
  - intros k [] h' Hk (Y1 & -> & HY1 & Hdone1 & Hrest1).
    destruct (solve_row Y1 k (fun _ => k) (fun i => i) 0 k HY1)
      as (Y2 & Hrun & HY2 & Hget); [lia..|intros i Hi; lia|].
    cbv beta in Hrun. exists tt, (<[x := Y2]> h). split; [exact Hrun|].
    exists Y2. split; [done|]. split; [done|].
    assert (forall i j, i < r -> j < n -> i <> k -> get Y2 i j = get Y1 i j) as Hsame.
    { intros i j Hi Hj Hik. rewrite Hget by done. by rewrite decide_False. }
    split.
    + intros k' j Hk' Hj. destruct (decide (k' = k)) as [->|Hneq].
      * rewrite (Hget k j) by lia. rewrite decide_True by done.
        rewrite Nat.sub_0_r. rewrite (Hrest1 k j) by lia. f_equal.
        apply fold_left_ext_in. intros s i Hi%in_seq_0.
        rewrite Hsame by lia. done.
      * rewrite Hsame by lia. rewrite Hdone1 by lia. f_equal.
        apply forward_sum_ext. intros i Hi. rewrite Hsame by lia. done.
    + intros i j Hi Hj. rewrite Hsame by lia. apply Hrest1; lia.
  - exists Y. done.
Qed.

(** The second pass. *)
Lemma backward_rows Y :
  shaped Y -> n <= r ->
  exists X,
    for_down n backward_body tt (<[x := Y]> h) = (Ok tt, <[x := X]> h)
    /\ shaped X
    /\ (forall k j, k < n -> j < n ->
          get X k j = (backward_sum L X n k j (get Y k j) / get L k k)%float)
    /\ forall i j, n <= i < r -> j < n -> get X i j = get Y i j.
Proof using Hl Hne HL Hx.
  intros HY Hnr.
  pose (I := fun (k : nat) (_ : unit) (h' : heap) =>
    exists X, h' = <[x := X]> h /\ shaped X
      /\ (forall k' j, k <= k' < n -> j < n ->
            get X k' j = (backward_sum L X n k' j (get Y k' j) / get L k' k')%float)
      /\ forall i j, i < r -> j < n -> i < k \/ n <= i -> get X i j = get Y i j).
  destruct (for_down_inv I backward_body n tt (<[x := Y]> h))
    as ([] & h' & Hrun & X & -> & HX & Hdone & Hrest).
  - exists Y. split; [done|]. split; [done|]. split; [intros; lia|done].
  - intros k [] h' Hk (X1 & -> & HX1 & Hdone1 & Hrest1).
    destruct (solve_row X1 k (fun i => i) (fun _ => k) (k + 1) n HX1)
      as (X2 & Hrun & HX2 & Hget); [lia..|intros i Hi; lia|].
    cbv beta in Hrun. exists tt, (<[x := X2]> h). split; [exact Hrun|].
    exists X2. split; [done|]. split; [done|].
    assert (forall i j, i < r -> j < n -> i <> k -> get X2 i j = get X1 i j) as Hsame.
    { intros i j Hi Hj Hik. rewrite Hget by done. by rewrite decide_False. }
    split.
    + intros k' j Hk' Hj. destruct (decide (k' = k)) as [->|Hneq].
      * rewrite (Hget k j) by lia. rewrite decide_True by done.
        rewrite (Hrest1 k j) by lia. f_equal.
        apply fold_left_ext_in. intros s i Hi%in_seq.
        rewrite Hsame by lia. done.
      * rewrite Hsame by lia. rewrite Hdone1 by lia. f_equal.
        apply backward_sum_ext. intros i Hi. rewrite Hsame by lia. done.
    + intros i j Hi Hj Hor. rewrite Hsame by lia. apply Hrest1; lia.
  - exists X. split; [done|]. split; [done|]. split.
    + intros k j Hk Hj. apply Hdone; lia.
    + intros i j Hi Hj. apply Hrest; lia.
Qed.

(** Both passes, on a right-hand side of at least [n] rows. *)
Lemma substitute_run B :
  h !! x = Some B -> shaped B -> n <= r ->
  exists Y X,
    substitute l x n n h = (Ok x, <[x := X]> h)
    /\ shaped X
    /\ forward_solved L B Y n
    /\ backward_solved L Y X n
    /\ forall i j, n <= i < r -> j < n -> get X i j = get B i j.
Proof using Hl Hne HL Hx.
  intros Hb HB Hnr. unfold substitute.
  destruct (forward_rows B n HB ltac:(lia) Hnr) as (Y & HrunY & HY & Hfwd & HrestY).
  destruct (backward_rows Y HY Hnr) as (X & HrunX & HX & Hbwd & HrestX).
  rewrite (list_insert_id h x B Hb) in HrunY.
  exists Y, X. step HrunY. step HrunX. split; [done|]. split; [done|].
  split; [done|]. split; [done|].
  intros i j Hi Hj. rewrite HrestX by done. by apply HrestY.
Qed.

Lemma At_rhs_outside X i j :
  shaped X -> r <= i ->
  At x i j (<[x := X]> h) = (Panic ErrIndexOutOfRange, <[x := X]> h).
Proof using Hx.
  clear Hl HL Hne. intros (Hwf & Hr & Hc) Hi. unfold At, bind, deref.
  rewrite lookup_rhs. rewrite at_outside by lia. done.
Qed.

(** The first pass on a right-hand side of fewer than [n] rows: the rows
    that exist are overwritten, then the access to row [r] panics. *)
Lemma forward_short B :
  shaped B -> r < n ->
  exists Y,
    for_ 0 n forward_body tt (<[x := B]> h)
    = (Panic ErrIndexOutOfRange, <[x := Y]> h)
    /\ shaped Y
    /\ forall k j, k < r -> j < n ->
         get Y k j = (forward_sum L Y k j (get B k j) / get L k k)%float.
Proof using Hl Hne HL Hx.
  intros HB Hrn.
  destruct (forward_rows B r HB ltac:(lia) ltac:(lia)) as (Y & HrunY & HY & Hfwd & _).
  exists Y. split; [|done].
  rewrite (for__split _ 0 r n) by lia. step HrunY.
  rewrite for__first by done. apply bind_Panic.
  rewrite for__first by lia. apply bind_Panic.
  destruct (decide (r = 0)) as [Hr0|Hr0].
  - rewrite (bind_Ok _ _ _ tt _ (for__empty _ 0 r tt _ ltac:(lia))).
    unfold scale. apply bind_Panic. by apply At_rhs_outside.
  - apply bind_Panic. rewrite for__first by lia. apply bind_Panic.
    unfold elim. apply bind_Panic. by apply At_rhs_outside.
Qed.

Lemma substitute_short B :
  h !! x = Some B -> shaped B -> r < n ->
  exists Y,
    substitute l x n n h = (Panic ErrIndexOutOfRange, <[x := Y]> h)
    /\ shaped Y
    /\ forall k j, k < r -> j < n ->
         get Y k j = (forward_sum L Y k j (get B k j) / get L k k)%float.
Proof using Hl Hne HL Hx.
  intros Hb HB Hrn. unfold substitute.
  destruct (forward_short B HB Hrn) as (Y & HrunY & HY & Hfwd).
  rewrite (list_insert_id h x B Hb) in HrunY.
  exists Y. split; [|done]. by apply bind_Panic.
Qed.

End Substitution.

(** ** A factor that is its own right-hand side *)

Section Aliased.

Variables (h : heap) (x : loc) (n : nat).
Hypothesis Hx : x < length h.

#[local] Abbreviation squared X := (wf X /\ rows X = n /\ cols X = n).

Lemma elim_aliased X k j i p q :
  squared X -> k < n -> i < n -> j < n -> p < n -> q < n ->
  exists X', elim x x k j i p q (<[x := X]> h) = (Ok tt, <[x := X']> h)
    /\ squared X'.
Proof using Hx.
  intros HX Hk Hi Hj Hp Hq. unfold elim.
  step (At_rhs h x n n Hx X k j HX Hk Hj).
  step (At_rhs h x n n Hx X i j HX Hi Hj).
  step (At_rhs h x n n Hx X p q HX Hp Hq).
  destruct (Set_rhs h x n n Hx X k j
              (get X k j - get X i j * get X p q)%float HX Hk Hj)
    as (X' & Hrun & HX' & _).
  by exists X'.
Qed.

Lemma scale_aliased X k j :
  squared X -> k < n -> j < n ->
  exists X', scale x x k j (<[x := X]> h) = (Ok tt, <[x := X']> h)
    /\ squared X'.
Proof using Hx.
  intros HX Hk Hj. unfold scale.
  step (At_rhs h x n n Hx X k j HX Hk Hj).
  step (At_rhs h x n n Hx X k k HX Hk Hk).
  destruct (Set_rhs h x n n Hx X k j (get X k j / get X k k)%float HX Hk Hj)
    as (X' & Hrun & HX' & _).
  by exists X'.
Qed.

(** A loop whose every round keeps the matrix at [x] square. *)
Lemma loop_aliased (body : nat -> unit -> M unit) lo hi X :
  squared X -> lo <= hi ->
  (forall i X, lo <= i < hi -> squared X ->
     exists X', body i tt (<[x := X]> h) = (Ok tt, <[x := X']> h) /\ squared X') ->
  exists X', for_ lo hi body tt (<[x := X]> h) = (Ok tt, <[x := X']> h)
    /\ squared X'.
Proof using Type.
  intros HX Hle Hbody.
  destruct (for__inv (fun _ _ h' => exists X', h' = <[x := X']> h /\ squared X')
              body lo hi tt (<[x := X]> h)) as ([] & h' & Hrun & X' & -> & HX').
  - done.
  - by exists X.
  - intros i [] h' Hi (X1 & -> & HX1).
    destruct (Hbody i X1 Hi HX1) as (X2 & Hrun & HX2).
    exists tt, (<[x := X2]> h). split; [done|]. by exists X2.
  - by exists X'.
Qed.

Lemma row_aliased X k (p q : nat -> nat) lo hi :
  squared X -> k < n -> lo <= hi ->
  (forall i, lo <= i < hi -> i < n /\ p i < n /\ q i < n) ->
  exists X',
    for_ 0 n (fun j _ =>
      for_ lo hi (fun i _ => elim x x k j i (p i) (q i)) tt ;;; scale x x k j) tt
      (<[x := X]> h)
    = (Ok tt, <[x := X']> h)
    /\ squared X'.
Proof using Hx.
  intros HX Hk Hle Hrange. apply loop_aliased; [done|lia|].
  intros j X0 Hj HX0.
  destruct (loop_aliased (fun i _ => elim x x k j i (p i) (q i)) lo hi X0 HX0 Hle)
    as (X1 & Hrun1 & HX1).
  { intros i X2 Hi HX2. destruct (Hrange i Hi) as (Hin & Hp & Hq).
    apply elim_aliased; (done || lia). }
  step Hrun1. apply scale_aliased; (done || lia).
Qed.

Lemma substitute_aliased X :
  h !! x = Some X -> squared X ->
  exists X', substitute x x n n h = (Ok x, <[x := X']> h) /\ squared X'.
Proof using Hx.
  intros Hlook HX. unfold substitute.
  destruct (loop_aliased (fun k _ =>
              for_ 0 n (fun j _ =>
                for_ 0 k (fun i _ => elim x x k j i k i) tt ;;; scale x x k j) tt)
              0 n X HX ltac:(lia)) as (X1 & Hrun1 & HX1).
  { intros k X0 Hk HX0.
    destruct (row_aliased X0 k (fun _ => k) (fun i => i) 0 k HX0)
      as (X2 & Hrun & HX2); [lia..|intros i Hi; lia|].
    cbv beta in Hrun. by exists X2. }
  rewrite (list_insert_id h x X Hlook) in Hrun1. step Hrun1.
  destruct (for_down_inv (fun _ _ h' => exists X', h' = <[x := X']> h /\ squared X')
              (fun k _ =>
                for_ 0 n (fun j _ =>
                  for_ (k + 1) n (fun i _ => elim x x k j i i k) tt ;;;
                  scale x x k j) tt)
              n tt (<[x := X1]> h)) as ([] & h' & Hrun2 & X2 & -> & HX2).
  - by exists X1.
  - intros k [] h' Hk (X0 & -> & HX0).
    destruct (row_aliased X0 k (fun i => i) (fun _ => k) (k + 1) n HX0)
      as (X2 & Hrun & HX2); [lia..|intros i Hi; lia|].
    cbv beta in Hrun. exists tt, (<[x := X2]> h). split; [done|]. by exists X2.
  - step Hrun2. by exists X2.
Qed.

End Aliased.

Lemma get_outside (A : Dense) i j :
  ~ (i < rows A /\ j < cols A) -> get A i j = 0%float.
Proof. intros H. unfold get. by rewrite at_outside. Qed.

(** The substitution passes of a call that has passed both checks. *)
Lemma CholeskySolve_run h l b L B :
  h !! l = Some L -> h !! b = Some B -> l <> b ->
  wf L -> wf B -> rows L = cols L -> cols B = cols L -> cols L <= rows B ->
  exists Y X,
    CholeskySolve l b h = (Ok b, <[b := X]> h)
    /\ (wf X /\ rows X = rows B /\ cols X = cols L)
    /\ forward_solved L B Y (cols L)
    /\ backward_solved L Y X (cols L)
    /\ forall i j, cols L <= i < rows B -> j < cols L -> get X i j = get B i j.
Proof.
  intros Hl Hb Hne HwfL HwfB Hsq Hc Hr.
  rewrite (CholeskySolve_checked h l b L B) by done. rewrite Hc.
  apply (substitute_run h l b L (cols L) (rows B)); try done.
  by eapply lookup_lt_Some.
Qed.

Lemma CholeskySolve_short h l b L B :
  h !! l = Some L -> h !! b = Some B ->
  wf L -> wf B -> rows L = cols L -> cols B = cols L -> rows B < cols L ->
  exists Y,
    CholeskySolve l b h = (Panic ErrIndexOutOfRange, <[b := Y]> h)
    /\ (wf Y /\ rows Y = rows B /\ cols Y = cols L)
    /\ forall k j, k < rows B -> j < cols L ->
         get Y k j = (forward_sum L Y k j (get B k j) / get L k k)%float.
Proof.
  intros Hl Hb HwfL HwfB Hsq Hc Hr.
  assert (l <> b) as Hne.
  { intros ->. rewrite Hl in Hb. injection Hb as ->. lia. }
  rewrite (CholeskySolve_checked h l b L B) by done. rewrite Hc.
  apply (substitute_short h l b L (cols L) (rows B)); try done.
  by eapply lookup_lt_Some.
Qed.

Lemma CholeskySolve_returns h l b L B :
  h !! l = Some L -> h !! b = Some B ->
  wf L -> wf B -> rows L = cols L -> cols B = cols L -> cols L <= rows B ->
  (CholeskySolve l b h).1 = Ok b.
Proof.
  intros Hl Hb HwfL HwfB Hsq Hc Hr.
  destruct (decide (l = b)) as [->|Hne].
  - rewrite Hl in Hb. injection Hb as ->.
    rewrite (CholeskySolve_checked h b b B B) by done.
    destruct (substitute_aliased h b (cols B) ltac:(by eapply lookup_lt_Some) B Hl)
      as (X & Hrun & _); [done|].
    by rewrite Hrun.
  - destruct (CholeskySolve_run h l b L B) as (Y & X & Hrun & _); try done.
    by rewrite Hrun.
Qed.

(** X1: called with a square factor [L] of order [n] and, at another
    location, a right-hand side [B] of [n] columns and at least [n] rows,
    [CholeskySolve] returns [b] and leaves there a matrix [X] of the
    dimensions of [B]: the first [n] rows of [B] are replaced by the result
    [Y] of the forward substitution, [y[k,j] = (b[k,j] - y[0,j] l[k,0] - ...
    - y[k-1,j] l[k,k-1]) / l[k,k]], and these by the result of the backward
    substitution, [x[k,j] = (y[k,j] - x[k+1,j] l[k+1,k] - ... -
    x[n-1,j] l[n-1,k]) / l[k,k]], the products being subtracted one at a
    time in this order; the rows of [B] from [n] on are left as they were.
    No entry of [L] is tested: a zero on its diagonal is divided by. *)
Theorem CholeskySolve_substitutes (h : heap) (l b : loc) (L B : Dense) :
  h !! l = Some L -> h !! b = Some B -> l <> b ->
  wf L -> wf B -> rows L = cols L -> cols B = cols L -> cols L <= rows B ->
  exists Y X,
    CholeskySolve l b h = (Ok b, <[b := X]> h)
    /\ wf X /\ rows X = rows B /\ cols X = cols B
    /\ forward_solved L B Y (cols L)
    /\ backward_solved L Y X (cols L)
    /\ forall i j, cols L <= i -> get X i j = get B i j.
Proof.
  intros Hl Hb Hne HwfL HwfB Hsq Hc Hr.
  destruct (CholeskySolve_run h l b L B)
    as (Y & X & Hrun & (HwfX & HrX & HcX) & Hfwd & Hbwd & Hrest); try done.
  exists Y, X. split; [done|]. split; [done|]. split; [done|].
  split; [lia|]. split; [done|]. split; [done|].
  intros i j Hi.
  destruct (decide (i < rows B /\ j < cols L)) as [[Hi' Hj]|Hout].
  - apply Hrest; lia.
  - rewrite !get_outside by lia. done.
Qed.

Lemma CholeskySolve_substitutes_witness :
  exists Y X,
    CholeskySolve 0 1 [L2; Examples.B32] = (Ok 1, <[1 := X]> [L2; Examples.B32])
    /\ get Y 0 0 = 0.5%float /\ get X 2 1 = 6%float.
Proof.
  destruct (CholeskySolve_substitutes [L2; Examples.B32] 0 1 L2 Examples.B32)
    as (Y & X & Hrun & _ & _ & _ & Hfwd & _ & Hrest);
    [reflexivity | reflexivity | lia | reflexivity | reflexivity
    | reflexivity | reflexivity | simpl; lia |].
  exists Y, X. split; [exact Hrun|]. split.
  - rewrite Hfwd by (simpl; lia). reflexivity.
  - rewrite Hrest by (simpl; lia). reflexivity.
Defined.

(** X2: what a call of [CholeskySolve] on two well-formed matrices ends in
    is decided by their dimensions alone, in this order: the panic
    [ErrSquare] when [L] is not square; the panic [ErrShape] when the number
    of columns of [B] is not the order [n] of [L]; a panic in an element
    access when [B] has fewer than [n] rows; and otherwise the return of
    [b], also when [b] is [l] itself. When one of the two checks fails,
    nothing has been written. *)
Theorem CholeskySolve_outcome (h : heap) (l b : loc) (L B : Dense) :
  h !! l = Some L -> h !! b = Some B -> wf L -> wf B ->
  (CholeskySolve l b h).1
  = (if negb (cols L =? rows L) then Panic ErrSquare
     else if negb (cols L =? cols B) then Panic ErrShape
     else if rows B <? cols L then Panic ErrIndexOutOfRange
     else Ok b)
  /\ (rows L <> cols L \/ cols B <> cols L -> (CholeskySolve l b h).2 = h).
Proof.
  intros Hl Hb HwfL HwfB.
  destruct (decide (rows L = cols L)) as [Hsq|Hsq].
  - rewrite Hsq, Nat.eqb_refl. simpl negb. cbv iota.
    destruct (decide (cols B = cols L)) as [Hc|Hc].
    + rewrite Hc, Nat.eqb_refl. simpl negb. cbv iota. split; [|tauto].
      destruct (rows B <? cols L) eqn:Hr.
      * apply Nat.ltb_lt in Hr.
        destruct (CholeskySolve_short h l b L B) as (Y & Hrun & _); try done.
        by rewrite Hrun.
      * apply Nat.ltb_ge in Hr. by apply (CholeskySolve_returns h l b L B).
    + assert ((cols L =? cols B) = false) as Hneq
        by (apply Nat.eqb_neq; congruence).
      rewrite Hneq. simpl negb. cbv iota.
      assert (CholeskySolve l b h = (Panic ErrShape, h)) as ->; [|done].
      rewrite CholeskySolve_unfold.
      rewrite (bind_Ok _ _ _ _ _ (Dims_run _ _ _ Hl)). simpl.
      rewrite Hsq, Nat.eqb_refl. simpl.
      rewrite (bind_Ok _ _ _ _ _ (Dims_run _ _ _ Hb)). simpl.
      by rewrite Hneq.
  - assert ((cols L =? rows L) = false) as Hneq
      by (apply Nat.eqb_neq; congruence).
    rewrite Hneq. simpl negb. cbv iota.
    assert (CholeskySolve l b h = (Panic ErrSquare, h)) as ->; [|done].
    rewrite CholeskySolve_unfold.
    rewrite (bind_Ok _ _ _ _ _ (Dims_run _ _ _ Hl)). simpl.
    by rewrite Hneq.
Qed.

Lemma CholeskySolve_outcome_witness :
  (CholeskySolve 0 1 [D3; Examples.B23]).1 = Panic ErrIndexOutOfRange
  /\ (CholeskySolve 0 0 [D3]).1 = Ok 0
  /\ (CholeskySolve 0 1 [D3; Examples.B32]).1 = Panic ErrShape
  /\ (CholeskySolve 0 1 [D3; Examples.B32]).2 = [D3; Examples.B32].
Proof.
  split; [|split; [|split]].
  - apply (CholeskySolve_outcome [D3; Examples.B23] 0 1 D3 Examples.B23);
      reflexivity.
  - apply (CholeskySolve_outcome [D3] 0 0 D3 D3); reflexivity.
  - apply (CholeskySolve_outcome [D3; Examples.B32] 0 1 D3 Examples.B32);
      reflexivity.
  - apply (CholeskySolve_outcome [D3; Examples.B32] 0 1 D3 Examples.B32);
      [reflexivity.. | right; simpl; lia].
Defined.

(** X3: when [B] has the [n] columns that the check asks for but fewer than
    [n] rows, the panic comes in the middle of the first pass: every row
    that [B] has is by then overwritten with the result of the forward
    substitution, and [B] stays so. *)
Theorem CholeskySolve_short_right_hand_side (h : heap) (l b : loc) (L B : Dense) :
  h !! l = Some L -> h !! b = Some B ->
  wf L -> wf B -> rows L = cols L -> cols B = cols L -> rows B < cols L ->
  exists Y,
    CholeskySolve l b h = (Panic ErrIndexOutOfRange, <[b := Y]> h)
    /\ wf Y /\ rows Y = rows B /\ cols Y = cols B
    /\ forall k j, k < rows B -> j < cols L ->
         get Y k j = (forward_sum L Y k j (get B k j) / get L k k)%float.
Proof.
  intros Hl Hb HwfL HwfB Hsq Hc Hr.
  destruct (CholeskySolve_short h l b L B)
    as (Y & Hrun & (HwfY & HrY & HcY) & Hfwd); try done.
  exists Y. split; [done|]. split; [done|]. split; [done|]. split; [lia|done].
Qed.

Lemma CholeskySolve_short_right_hand_side_witness :
  exists Y,
    CholeskySolve 0 1 [D3; Examples.B23]
    = (Panic ErrIndexOutOfRange, <[1 := Y]> [D3; Examples.B23])
    /\ get Y 1 2 = 3%float.
Proof.
  destruct (CholeskySolve_short_right_hand_side
              [D3; Examples.B23] 0 1 D3 Examples.B23)
    as (Y & Hrun & _ & _ & _ & Hfwd);
    [reflexivity | reflexivity | reflexivity | reflexivity
    | reflexivity | reflexivity | simpl; lia |].
  exists Y. split; [exact Hrun|].
  rewrite Hfwd by (simpl; lia).
  unfold forward_sum. simpl fold_left.
  rewrite (Hfwd 0 2) by (simpl; lia). reflexivity.
Defined.

(** * More on the factorisations *)

Lemma dense_ext (A A' : Dense) :
  wf A -> wf A' -> rows A = rows A' -> cols A = cols A' ->
  (forall i j, i < rows A -> j < cols A -> get A i j = get A' i j) ->
  A = A'.
Proof.
  destruct A as [r c d], A' as [r' c' d']. unfold wf. simpl.
  intros Hwf Hwf' <- <- Hget. f_equal.
  apply list_eq. intros t.
  destruct (decide (t < r * c)) as [Ht|Ht].
  - assert (0 < c) as Hc by nia.
    assert (t `div` c < r) as Hi by (apply Nat.Div0.div_lt_upper_bound; lia).
    assert (t `mod` c < c) as Hj by (apply Nat.mod_upper_bound; lia).
    assert (t `div` c * c + t `mod` c = t) as Ht'
      by (pose proof (Nat.div_mod_eq t c); lia).
    specialize (Hget _ _ Hi Hj). unfold get in Hget.
    rewrite !at_eq_lookup in Hget by done. simpl in Hget. rewrite Ht' in Hget.
    destruct (lookup_lt_is_Some_2 d t ltac:(lia)) as [v Hv].
    destruct (lookup_lt_is_Some_2 d' t ltac:(lia)) as [v' Hv'].
    rewrite Hv, Hv' in *. simpl in Hget. by subst.
  - rewrite !lookup_ge_None_2 by lia. done.
Qed.

(** The entries of the leading block of the lower factor are determined by
    the entries of the input on and below the diagonal of its leading
    block; those of the upper factor by the entries on and above. *)
Lemma rowL_prefix_unique (A A' L L' : Dense) (n n' m : nat) :
  m <= n -> m <= n' ->
  (forall j k, k <= j -> j < m -> get A j k = get A' j k) ->
  (forall j, j < m -> rowL A L n j) ->
  (forall j, j < m -> rowL A' L' n' j) ->
  forall j k, j < m -> k < m -> get L j k = get L' j k.
Proof.
  intros Hmn Hmn' Hlow Hrows Hrows'.
  assert (forall j, j < m -> forall k, k <= j -> get L j k = get L' j k) as Hbelow.
  { induction j as [j IHj] using lt_wf_ind. intros Hj.
    induction k as [k IHk] using lt_wf_ind. intros Hk.
    destruct (Hrows j Hj) as (Hrec & Hdiag & _).
    destruct (Hrows' j Hj) as (Hrec' & Hdiag' & _).
    destruct (decide (k = j)) as [->|Hne].
    - rewrite Hdiag, Hdiag'. unfold pivotL, sumsqL. rewrite Hlow by lia.
      do 3 f_equal. apply fold_left_ext_in. intros s i Hi%in_seq_0.
      rewrite (IHk i) by lia. done.
    - rewrite Hrec, Hrec' by lia. rewrite Hlow by lia.
      rewrite (IHj k ltac:(lia) ltac:(lia) k) by lia. do 2 f_equal.
      apply fold_left_ext_in. intros s i Hi%in_seq_0.
      rewrite (IHj k ltac:(lia) ltac:(lia) i) by lia.
      rewrite (IHk i) by lia. done. }
  intros j k Hj Hk. destruct (decide (k <= j)) as [Hle|Hgt]; [by apply Hbelow|].
  destruct (Hrows j Hj) as (_ & _ & Hzero).
  destruct (Hrows' j Hj) as (_ & _ & Hzero').
  rewrite Hzero, Hzero' by lia. done.
Qed.

Lemma colR_prefix_unique (A A' R R' : Dense) (n n' m : nat) :
  m <= n -> m <= n' ->
  (forall j k, k <= j -> j < m -> get A k j = get A' k j) ->
  (forall j, j < m -> colR A R n j) ->
  (forall j, j < m -> colR A' R' n' j) ->
  forall k j, k < m -> j < m -> get R k j = get R' k j.
Proof.
  intros Hmn Hmn' Hup Hcols Hcols'.
  assert (forall j, j < m -> forall k, k <= j -> get R k j = get R' k j) as Habove.
  { induction j as [j IHj] using lt_wf_ind. intros Hj.
    induction k as [k IHk] using lt_wf_ind. intros Hk.
    destruct (Hcols j Hj) as (Hrec & Hdiag & _).
    destruct (Hcols' j Hj) as (Hrec' & Hdiag' & _).
    destruct (decide (k = j)) as [->|Hne].
    - rewrite Hdiag, Hdiag'. unfold pivotR, sumsqR. rewrite Hup by lia.
      do 3 f_equal. apply fold_left_ext_in. intros s i Hi%in_seq_0.
      rewrite (IHk i) by lia. done.
    - rewrite Hrec, Hrec' by lia.
      rewrite (IHj k ltac:(lia) ltac:(lia) k) by lia. f_equal.
      unfold accR. rewrite Hup by lia.
      apply fold_left_ext_in. intros s i Hi%in_seq_0.
      rewrite (IHj k ltac:(lia) ltac:(lia) i) by lia.
      rewrite (IHk i) by lia. done. }
  intros k j Hk Hj. destruct (decide (k <= j)) as [Hle|Hgt]; [by apply Habove|].
  destruct (Hcols j Hj) as (_ & _ & Hzero).
  destruct (Hcols' j Hj) as (_ & _ & Hzero').
  rewrite Hzero, Hzero' by lia. done.
Qed.

(** X4: the entries of the factor that [CholeskyL] returns are those of
    the recurrence of the source, with the sums taken in the order of its
    loops: below the diagonal [l[j,k] = (a[j,k] - (l[k,0] l[j,0] + ... +
    l[k,k-1] l[j,k-1])) / l[k,k]], the sum starting from zero, and on the
    diagonal the square root of the clamped [a[j,j] - (l[j,0]^2 + ... +
    l[j,j-1]^2)]. Those of [CholeskyR] are [r[k,j] = (a[k,j] - r[0,k] r[0,j]
    - ... - r[k-1,k] r[k-1,j]) / r[k,k]], the products being subtracted from
    [a[k,j]] one at a time. The factor is a new matrix of order [cols A],
    allocated behind the matrices of the heap. *)
Theorem factors_satisfy_the_recurrences (h : heap) (a : loc) (A : Dense) :
  h !! a = Some A -> wf A -> cols A <= rows A ->
  (exists L spd,
      CholeskyL a h = (Ok (length h, spd), h ++ [L])
      /\ (forall j k, k < j -> j < cols A ->
            get L j k = ((get A j k - dotL L k j) / get L k k)%float)
      /\ (forall j, j < cols A ->
            get L j j = math.Sqrt (math.Max (get A j j - sumsqL L j) 0)))
  /\ (exists R spd,
      CholeskyR a h = (Ok (length h, spd), h ++ [R])
      /\ (forall j k, k < j -> j < cols A ->
            get R k j = (accR A R k j / get R k k)%float)
      /\ (forall j, j < cols A ->
            get R j j = math.Sqrt (math.Max (get A j j - sumsqR R j) 0))).
Proof.
  intros Ha Hwf Hdims. split.
  - destruct (CholeskyL_run h a A Ha Hwf Hdims) as (L & spd & Hrun & _ & Hrows & _).
    exists L, spd. split; [done|]. split.
    + intros j k Hk Hj. destruct (Hrows j Hj) as (Hrec & _). by apply Hrec.
    + intros j Hj. by destruct (Hrows j Hj) as (_ & Hdiag & _).
  - destruct (CholeskyR_run h a A Ha Hwf Hdims) as (R & spd & Hrun & _ & Hcols & _).
    exists R, spd. split; [done|]. split.
    + intros j k Hk Hj. destruct (Hcols j Hj) as (Hrec & _). by apply Hrec.
    + intros j Hj. by destruct (Hcols j Hj) as (_ & Hdiag & _).
Qed.

Lemma factors_satisfy_the_recurrences_witness :
  (exists L spd,
      CholeskyL 0 [Examples.A1] = (Ok (1, spd), [Examples.A1] ++ [L])
      /\ get L 1 0 = ((2 - 0) / get L 0 0)%float)
  /\ (exists R spd,
      CholeskyR 0 [Examples.A1] = (Ok (1, spd), [Examples.A1] ++ [R])
      /\ get R 0 1 = (2 / get R 0 0)%float).
Proof.
  destruct (factors_satisfy_the_recurrences [Examples.A1] 0 Examples.A1)
    as [(L & spdL & HrunL & HL & _) (R & spdR & HrunR & HR & _)];
    [reflexivity | reflexivity | simpl; lia |].
  split.
  - exists L, spdL. split; [exact HrunL|]. apply (HL 1 0); simpl; lia.
  - exists R, spdR. split; [exact HrunR|]. apply (HR 1 0); simpl; lia.
Defined.

(** X5: the rows of the factor of [CholeskyL] are made one after the
    other from the entries of the input on and below its diagonal, and from
    nothing else. If the leading block of order [m] of an input agrees on
    and below the diagonal with an input of [m] columns, the leading block
    of order [m] of its factor is the factor of that input, entry for
    entry; two inputs of [m] columns that agree there get the same factor.
    Likewise for [CholeskyR] and the entries on and above the diagonal. The
    other triangle is read for the flag alone. *)
Theorem factors_read_one_triangle (h h' : heap) (a a' : loc) (A A' : Dense) :
  h !! a = Some A -> h' !! a' = Some A' -> wf A -> wf A' ->
  cols A <= rows A -> cols A' <= rows A' -> cols A' <= cols A ->
  ((forall j k, k <= j -> j < cols A' -> get A j k = get A' j k) ->
   exists L L' spd spd',
     CholeskyL a h = (Ok (length h, spd), h ++ [L])
     /\ CholeskyL a' h' = (Ok (length h', spd'), h' ++ [L'])
     /\ (forall j k, j < cols A' -> k < cols A' -> get L j k = get L' j k)
     /\ (cols A = cols A' -> L = L'))
  /\ ((forall j k, k <= j -> j < cols A' -> get A k j = get A' k j) ->
      exists R R' spd spd',
        CholeskyR a h = (Ok (length h, spd), h ++ [R])
        /\ CholeskyR a' h' = (Ok (length h', spd'), h' ++ [R'])
        /\ (forall k j, k < cols A' -> j < cols A' -> get R k j = get R' k j)
        /\ (cols A = cols A' -> R = R')).
Proof.
  intros Ha Ha' Hwf Hwf' Hdims Hdims' Hc. split.
  - intros Hlow.
    destruct (CholeskyL_run h a A Ha Hwf Hdims)
      as (L & spd & Hrun & (Hr & Hcl & HwfL) & Hrows & _).
    destruct (CholeskyL_run h' a' A' Ha' Hwf' Hdims')
      as (L' & spd' & Hrun' & (Hr' & Hcl' & HwfL') & Hrows' & _).
    assert (forall j k, j < cols A' -> k < cols A' -> get L j k = get L' j k)
      as Hblock.
    { apply (rowL_prefix_unique A A' L L' (cols A) (cols A') (cols A'));
        [done|done|done| |done].
      intros j Hj. apply Hrows. lia. }
    exists L, L', spd, spd'. split; [done|]. split; [done|]. split; [done|].
    intros Heq. apply dense_ext; [done|done|lia|lia|].
    intros i j Hi Hj. apply Hblock; lia.
  - intros Hup.
    destruct (CholeskyR_run h a A Ha Hwf Hdims)
      as (R & spd & Hrun & (Hr & Hcl & HwfR) & Hcols & _).
    destruct (CholeskyR_run h' a' A' Ha' Hwf' Hdims')
      as (R' & spd' & Hrun' & (Hr' & Hcl' & HwfR') & Hcols' & _).
    assert (forall k j, k < cols A' -> j < cols A' -> get R k j = get R' k j)
      as Hblock.
    { apply (colR_prefix_unique A A' R R' (cols A) (cols A') (cols A'));
        [done|done|done| |done].
      intros j Hj. apply Hcols. lia. }
    exists R, R', spd, spd'. split; [done|]. split; [done|]. split; [done|].
    intros Heq. apply dense_ext; [done|done|lia|lia|].
    intros i j Hi Hj. apply Hblock; lia.
Qed.

Lemma factors_read_one_triangle_witness :
  (exists L L' spd spd',
      CholeskyL 0 [A3] = (Ok (1, spd), [A3] ++ [L])
      /\ CholeskyL 0 [A3_lower_block] = (Ok (1, spd'), [A3_lower_block] ++ [L'])
      /\ forall j k, j < 2 -> k < 2 -> get L j k = get L' j k)
  /\ (exists R R' spd spd',
      CholeskyR 0 [A3] = (Ok (1, spd), [A3] ++ [R])
      /\ CholeskyR 0 [A3_upper_block] = (Ok (1, spd'), [A3_upper_block] ++ [R'])
      /\ forall k j, k < 2 -> j < 2 -> get R k j = get R' k j).
Proof.
  split.
  - destruct (factors_read_one_triangle [A3] [A3_lower_block] 0 0
                A3 A3_lower_block) as [HL _];
      [reflexivity | reflexivity | reflexivity | reflexivity
      | simpl; lia | simpl; lia | simpl; lia |].
    destruct HL as (L & L' & spd & spd' & Hrun & Hrun' & Hblock & _).
    { intros j k Hk Hj. change (cols A3_lower_block) with 2 in Hj.
      do 2 (destruct j as [|j]; [do 2 (destruct k as [|k]; [reflexivity || lia|]); lia|]).
      lia. }
    exists L, L', spd, spd'. split; [exact Hrun|]. split; [exact Hrun'|].
    exact Hblock.
  - destruct (factors_read_one_triangle [A3] [A3_upper_block] 0 0
                A3 A3_upper_block) as [_ HR];
      [reflexivity | reflexivity | reflexivity | reflexivity
      | simpl; lia | simpl; lia | simpl; lia |].
    destruct HR as (R & R' & spd & spd' & Hrun & Hrun' & Hblock & _).
    { intros j k Hk Hj. change (cols A3_upper_block) with 2 in Hj.
      do 2 (destruct j as [|j]; [do 2 (destruct k as [|k]; [reflexivity || lia|]); lia|]).
      lia. }
    exists R, R', spd, spd'. split; [exact Hrun|]. split; [exact Hrun'|].
    exact Hblock.
Defined.

(** ** The diagonal of the factors *)

Section Diagonal.
Local Open Scope float_scope.

Lemma leb_0_cases d :
  (d <=? 0) = true <-> (d =? 0) = true \/ (d <? 0) = true.
Proof.
  rewrite FloatAxioms.leb_spec, FloatAxioms.eqb_spec, FloatAxioms.ltb_spec.
  unfold SFleb, SFeqb, SFltb.
  destruct (SFcompare (Prim2SF d) (Prim2SF 0)) as [[]|]; intuition discriminate.
Qed.

Lemma sqrt_zero d : (d =? 0) = true -> (PrimFloat.sqrt d =? 0) = true.
Proof.
  rewrite !FloatAxioms.eqb_spec, FloatAxioms.sqrt_spec, Prim2SF_0.
  unfold SFeqb, SFcompare.
  destruct (Prim2SF d) as [s|[]| |[] m e]; try destruct s; done.
Qed.

(** The square root of the clamped pivot is zero exactly when the pivot is
    at most zero, and it is never below zero. *)
Lemma Sqrt_Max_zero_iff d :
  ((math.Sqrt (math.Max d 0) =? 0) = true <-> (d <=? 0) = true)
  /\ (math.Sqrt (math.Max d 0) <? 0) = false.
Proof.
  unfold math.Max, math.Sqrt.
  change (math.IsPosInf 0) with false. change (math.IsNaN 0) with false.
  rewrite !orb_false_r.
  destruct (math.IsPosInf d) eqn:Hinf.
  { split; [|reflexivity]. split; [done|]. intros Hle. exfalso.
    revert Hinf Hle. unfold math.IsPosInf.
    rewrite FloatAxioms.eqb_spec, FloatAxioms.leb_spec.
    change (Prim2SF infinity) with (S754_infinity false). rewrite Prim2SF_0.
    unfold SFeqb, SFleb, SFcompare.
    destruct (Prim2SF d) as [s|[]| |[] m e]; try destruct s; done. }
  destruct (math.IsNaN d) eqn:Hnan.
  { split; [|reflexivity]. split; [done|]. intros Hle. exfalso.
    apply IsNaN_spec in Hnan. revert Hle.
    rewrite FloatAxioms.leb_spec, Hnan. done. }
  destruct (d =? 0) eqn:Hz; simpl.
  - assert ((d <=? 0) = true) as Hle by (apply leb_0_cases; by left).
    destruct (math.Signbit d).
    + split; [|reflexivity]. done.
    + split; [by rewrite sqrt_zero|].
      apply eqb_0_not_negative. by apply sqrt_zero.
  - destruct (0 <? d) eqn:Hp.
    + pose proof (sqrt_positive d Hp) as Hs. split.
      * rewrite (positive_nonzero _ Hs). split; [done|].
        intros [Hc|Hc]%leb_0_cases; [congruence|].
        by rewrite (positive_not_negative d Hp) in Hc.
      * by apply positive_not_negative.
    + split; [|reflexivity]. split; [intros _|done].
      apply leb_0_cases. right. revert Hz Hp Hnan.
      intros Hz Hp Hnan%not_true_iff_false. revert Hz Hp.
      rewrite FloatAxioms.eqb_spec, !FloatAxioms.ltb_spec, Prim2SF_0.
      rewrite IsNaN_spec in Hnan.
      unfold SFeqb, SFltb, SFcompare.
      destruct (Prim2SF d) as [s|[]| |[] m e]; try destruct s; done.
Qed.

End Diagonal.

(** X6: no diagonal entry of a factor is below zero, and a diagonal entry
    is zero exactly when its pivot is at most zero: the clamp turns every
    pivot that is zero or negative into a zero on the diagonal, which the
    later rounds, and [CholeskySolve], divide by. *)
Theorem diagonal_is_zero_iff_pivot_is_not_positive
    (h : heap) (a : loc) (A : Dense) :
  h !! a = Some A -> wf A -> cols A <= rows A ->
  (exists L spd,
      CholeskyL a h = (Ok (length h, spd), h ++ [L])
      /\ forall j, j < cols A ->
           (get L j j <? 0)%float = false
           /\ ((get L j j =? 0)%float = true
               <-> (pivotL A L j <=? 0)%float = true))
  /\ (exists R spd,
      CholeskyR a h = (Ok (length h, spd), h ++ [R])
      /\ forall j, j < cols A ->
           (get R j j <? 0)%float = false
           /\ ((get R j j =? 0)%float = true
               <-> (pivotR A R j <=? 0)%float = true)).
Proof.
  intros Ha Hwf Hdims. split.
  - destruct (CholeskyL_run h a A Ha Hwf Hdims) as (L & spd & Hrun & _ & Hrows & _).
    exists L, spd. split; [done|]. intros j Hj.
    destruct (Hrows j Hj) as (_ & -> & _).
    destruct (Sqrt_Max_zero_iff (pivotL A L j)) as [Hz Hn]. done.
  - destruct (CholeskyR_run h a A Ha Hwf Hdims) as (R & spd & Hrun & _ & Hcols & _).
    exists R, spd. split; [done|]. intros j Hj.
    destruct (Hcols j Hj) as (_ & -> & _).
    destruct (Sqrt_Max_zero_iff (pivotR A R j)) as [Hz Hn]. done.
Qed.

Lemma diagonal_is_zero_iff_pivot_is_not_positive_witness :
  (exists L spd,
      CholeskyL 0 [Inputs.indefinite]
      = (Ok (1, spd), [Inputs.indefinite] ++ [L])
      /\ (get L 1 1 =? 0)%float = true)
  /\ (exists R spd,
      CholeskyR 0 [Inputs.indefinite]
      = (Ok (1, spd), [Inputs.indefinite] ++ [R])
      /\ (get R 1 1 =? 0)%float = true).
Proof.
  destruct (diagonal_is_zero_iff_pivot_is_not_positive
              [Inputs.indefinite] 0 Inputs.indefinite)
    as [(L & spdL & HrunL & HL) (R & spdR & HrunR & HR)];
    [reflexivity | reflexivity | simpl; lia |].
  split.
  - exists L, spdL. split; [exact HrunL|].
    apply (HL 1); [simpl; lia|].
    pose proof (f_equal (fun r => default Inputs.indefinite (r.2 !! 1)) HrunL) as HL'.
    vm_compute in HL'. subst L. reflexivity.
  - exists R, spdR. split; [exact HrunR|].
    apply (HR 1); [simpl; lia|].
    pose proof (f_equal (fun r => default Inputs.indefinite (r.2 !! 1)) HrunR) as HR'.
    vm_compute in HR'. subst R. reflexivity.
Defined.

(** X7: on an input without columns the loops do not run: [CholeskyL] and
    [CholeskyR] return an empty factor, with a flag that is true exactly
    when the input has no rows either; and [CholeskySolve] with an empty
    factor returns its right-hand side, which must have no columns, without
    writing to it. *)
Theorem empty_inputs (h : heap) (a : loc) (A : Dense) :
  h !! a = Some A -> cols A = 0 ->
  CholeskyL a h = (Ok (length h, rows A =? 0), h ++ [mkDense 0 0 []])
  /\ CholeskyR a h = (Ok (length h, rows A =? 0), h ++ [mkDense 0 0 []])
  /\ forall (b : loc) (B : Dense),
       h !! b = Some B -> rows A = 0 -> cols B = 0 ->
       CholeskySolve a b h = (Ok b, h).
Proof.
  intros Ha Hc. split; [|split].
  - unfold CholeskyL. step (Dims_run a h A Ha). rewrite Hc. reflexivity.
  - unfold CholeskyR. step (Dims_run a h A Ha). rewrite Hc. reflexivity.
  - intros b B Hb Hr Hcb. rewrite CholeskySolve_unfold.
    step (Dims_run a h A Ha). rewrite Hc, Hr. simpl.
    step (Dims_run b h B Hb). rewrite Hcb. reflexivity.
Qed.

Lemma empty_inputs_witness :
  CholeskyL 0 [no_columns] = (Ok (1, false), [no_columns] ++ [mkDense 0 0 []])
  /\ CholeskyR 0 [empty_matrix]
     = (Ok (1, true), [empty_matrix] ++ [mkDense 0 0 []])
  /\ CholeskySolve 0 1 [empty_matrix; no_columns]
     = (Ok 1, [empty_matrix; no_columns]).
Proof.
  split; [|split].
  - apply (empty_inputs [no_columns] 0 no_columns); reflexivity.
  - apply (empty_inputs [empty_matrix] 0 empty_matrix); reflexivity.
  - destruct (empty_inputs [empty_matrix; no_columns] 0 empty_matrix)
      as (_ & _ & Hsolve); [reflexivity | reflexivity |].
    apply (Hsolve 1 no_columns); reflexivity.
Defined.

(** X8: the factor that [CholeskyL] returns is accepted by the first check
    of [CholeskySolve] whatever the flag says, which [CholeskySolve] has no
    way to see. Called with the pointer and on the heap that [CholeskyL]
    returns, for an input of [n] columns, [CholeskySolve] panics with
    [ErrShape] when [B] has not [n] columns and in an element access when
    [B] has fewer than [n] rows; otherwise it returns [b], where the two
    substitutions with the returned factor have been carried out. *)
Theorem factor_then_solve (h : heap) (a b : loc) (A B : Dense) :
  h !! a = Some A -> h !! b = Some B -> wf A -> wf B -> cols A <= rows A ->
  exists L spd,
    CholeskyL a h = (Ok (length h, spd), h ++ [L])
    /\ (CholeskySolve (length h) b (h ++ [L])).1
       = (if negb (cols A =? cols B) then Panic ErrShape
          else if rows B <? cols A then Panic ErrIndexOutOfRange
          else Ok b)
    /\ (cols B = cols A -> cols A <= rows B ->
        exists Y X,
          CholeskySolve (length h) b (h ++ [L]) = (Ok b, <[b := X]> h ++ [L])
          /\ forward_solved L B Y (cols A)
          /\ backward_solved L Y X (cols A)).
Proof.
  intros Ha Hb HwfA HwfB Hdims.
  destruct (CholeskyL_run h a A Ha HwfA Hdims)
    as (L & spd & Hrun & (Hr & Hc & HwfL) & _).
  exists L, spd. split; [done|].
  assert ((h ++ [L]) !! length h = Some L) as Hl by apply lookup_snoc_new.
  assert ((h ++ [L]) !! b = Some B) as Hb' by (by apply lookup_app_l_Some).
  assert (b < length h) as Hlt by (by eapply lookup_lt_Some).
  split.
  - destruct (decide (cols B = cols A)) as [Hcb|Hcb].
    + rewrite Hcb, Nat.eqb_refl. simpl negb. cbv iota.
      destruct (rows B <? cols A) eqn:Hrb.
      * apply Nat.ltb_lt in Hrb.
        destruct (CholeskySolve_short (h ++ [L]) (length h) b L B)
          as (Y & HrunS & _); try done; try lia.
        by rewrite HrunS.
      * apply Nat.ltb_ge in Hrb.
        apply (CholeskySolve_returns (h ++ [L]) (length h) b L B);
          try done; lia.
    + assert ((cols A =? cols B) = false) as Hneq
        by (apply Nat.eqb_neq; congruence).
      rewrite Hneq. simpl negb. cbv iota.
      rewrite CholeskySolve_unfold.
      rewrite (bind_Ok _ _ _ _ _ (Dims_run _ _ _ Hl)). simpl.
      rewrite Hr, Hc, Nat.eqb_refl. simpl.
      rewrite (bind_Ok _ _ _ _ _ (Dims_run _ _ _ Hb')). simpl.
      by rewrite Hneq.
  - intros Hcb Hrb.
    destruct (CholeskySolve_run (h ++ [L]) (length h) b L B)
      as (Y & X & HrunS & _ & Hfwd & Hbwd & _); try done; try lia.
    exists Y, X. rewrite Hc in Hfwd, Hbwd. split; [|done].
    rewrite HrunS. f_equal. by rewrite insert_app_l.
Qed.

Lemma factor_then_solve_witness :
  exists L spd,
    CholeskyL 0 [Inputs.indefinite; Examples.B21]
    = (Ok (2, spd), [Inputs.indefinite; Examples.B21] ++ [L])
    /\ (CholeskySolve 2 1 ([Inputs.indefinite; Examples.B21] ++ [L])).1
       = Panic ErrShape.
Proof.
  destruct (factor_then_solve [Inputs.indefinite; Examples.B21] 0 1
              Inputs.indefinite Examples.B21)
    as (L & spd & Hrun & Hout & _);
    [reflexivity | reflexivity | reflexivity | reflexivity | simpl; lia |].
  exists L, spd. split; [exact Hrun|exact Hout].
Defined.

(** ** Columns of the right-hand side *)

Lemma forward_unique (L B B' Y Y' : Dense) (n j : nat) :
  j < n ->
  (forall k, k < n -> get B k j = get B' k j) ->
  forward_solved L B Y n -> forward_solved L B' Y' n ->
  forall k, k < n -> get Y k j = get Y' k j.
Proof.
  intros Hj HB HY HY'.
  induction k as [k IH] using lt_wf_ind. intros Hk.
  rewrite HY, HY' by done. rewrite HB by done. f_equal.
  apply fold_left_ext_in. intros s i Hi%in_seq_0.
  rewrite (IH i) by lia. done.
Qed.

Lemma backward_unique (L Y Y' X X' : Dense) (n j : nat) :
  j < n ->
  (forall k, k < n -> get Y k j = get Y' k j) ->
  backward_solved L Y X n -> backward_solved L Y' X' n ->
  forall k, k < n -> get X k j = get X' k j.
Proof.
  intros Hj HY HX HX'.
  assert (forall d k, k < n -> n - k <= d -> get X k j = get X' k j) as Hgen.
  { induction d as [|d IH]; intros k Hk Hd; [lia|].
    rewrite HX, HX' by done. rewrite HY by done. f_equal.
    apply fold_left_ext_in. intros s i Hi%in_seq.
    rewrite (IH i) by lia. done. }
  intros k Hk. by apply (Hgen (n - k)).
Qed.

(** X9: [CholeskySolve] treats the columns of the right-hand side one by
    one: column [j] of the result is made from column [j] of [B] and the
    factor alone. Two calls with the same factor, on right-hand sides that
    agree in the first [n] rows of column [j], leave the same first [n]
    rows of column [j], whatever the other columns hold. *)
Theorem CholeskySolve_columns_are_independent
    (h h' : heap) (l l' b b' : loc) (L B B' : Dense) (j : nat) :
  h !! l = Some L -> h !! b = Some B -> l <> b ->
  h' !! l' = Some L -> h' !! b' = Some B' -> l' <> b' ->
  wf L -> wf B -> wf B' -> rows L = cols L ->
  cols B = cols L -> cols L <= rows B ->
  cols B' = cols L -> cols L <= rows B' ->
  j < cols L ->
  (forall k, k < cols L -> get B k j = get B' k j) ->
  exists X X',
    CholeskySolve l b h = (Ok b, <[b := X]> h)
    /\ CholeskySolve l' b' h' = (Ok b', <[b' := X']> h')
    /\ forall k, k < cols L -> get X k j = get X' k j.
Proof.
  intros Hl Hb Hne Hl' Hb' Hne' HwfL HwfB HwfB' Hsq Hc Hr Hc' Hr' Hj Hcol.
  destruct (CholeskySolve_run h l b L B)
    as (Y & X & Hrun & _ & Hfwd & Hbwd & _); try done.
  destruct (CholeskySolve_run h' l' b' L B')
    as (Y' & X' & Hrun' & _ & Hfwd' & Hbwd' & _); try done.
  exists X, X'. split; [done|]. split; [done|].
  apply (backward_unique L Y Y' X X' (cols L) j); try done.
  by apply (forward_unique L B B' Y Y' (cols L) j).
Qed.

Lemma CholeskySolve_columns_are_independent_witness :
  exists X X',
    CholeskySolve 0 1 [L2; Examples.B22] = (Ok 1, <[1 := X]> [L2; Examples.B22])
    /\ CholeskySolve 0 1 [L2; C32] = (Ok 1, <[1 := X']> [L2; C32])
    /\ forall k, k < 2 -> get X k 0 = get X' k 0.
Proof.
  apply (CholeskySolve_columns_are_independent
           [L2; Examples.B22] [L2; C32] 0 0 1 1 L2 Examples.B22 C32 0);
    try reflexivity; try lia; try (simpl; lia).
  intros k Hk. change (cols L2) with 2 in Hk.
  do 2 (destruct k as [|k]; [reflexivity|]). lia.
Defined.

(** ** Inputs that are not square *)

(** X10: an input with more rows than columns gets a factor, of the order
    of its number of columns, and a false flag. An input with fewer rows than
    columns makes both functions panic in an element access: [CholeskyL]
    at [a.At(j, 0)] in the round of the first row [j] that the input does
    not have ([a.At(0, 0)] when it has no row), [CholeskyR] at [a.At(j, j)]
    of that round, the inner loop of which does not read below the diagonal
    because the flag is already false. The factor under construction stays
    allocated behind the heap. *)
Theorem inputs_that_are_not_square (h : heap) (a : loc) (A : Dense) :
  h !! a = Some A -> wf A ->
  (cols A < rows A ->
   (exists L, CholeskyL a h = (Ok (length h, false), h ++ [L]))
   /\ (exists R, CholeskyR a h = (Ok (length h, false), h ++ [R])))
  /\ (rows A < cols A ->
      (exists L, CholeskyL a h = (Panic ErrIndexOutOfRange, h ++ [L]))
      /\ (exists R, CholeskyR a h = (Panic ErrIndexOutOfRange, h ++ [R]))).
Proof.
  intros Ha Hwf. split.
  - intros Htall.
    assert (forall piv, flag_upto A piv (cols A) = false) as Hflag.
    { intros piv. unfold flag_upto.
      assert ((rows A =? cols A) = false) as -> by (apply Nat.eqb_neq; lia).
      done. }
    split.
    + destruct (CholeskyL_run h a A Ha Hwf ltac:(lia)) as (L & spd & Hrun & _ & _ & ->).
      exists L. by rewrite Hflag in Hrun.
    + destruct (CholeskyR_run h a A Ha Hwf ltac:(lia)) as (R & spd & Hrun & _ & _ & ->).
      exists R. by rewrite Hflag in Hrun.
  - intros Hwide. split.
    + by apply (CholeskyL_wide h a A Ha Hwf).
    + by apply (CholeskyR_wide h a A Ha Hwf).
Qed.

Lemma inputs_that_are_not_square_witness :
  ((exists L, CholeskyL 0 [Examples.B32] = (Ok (1, false), [Examples.B32] ++ [L]))
   /\ (exists R, CholeskyR 0 [Examples.B32] = (Ok (1, false), [Examples.B32] ++ [R])))
  /\ ((exists L, CholeskyL 0 [Examples.B23]
                 = (Panic ErrIndexOutOfRange, [Examples.B23] ++ [L]))
      /\ (exists R, CholeskyR 0 [Examples.B23]
                    = (Panic ErrIndexOutOfRange, [Examples.B23] ++ [R]))).
Proof.
  split.
  - apply (inputs_that_are_not_square [Examples.B32] 0 Examples.B32);
      [reflexivity | reflexivity | simpl; lia].
  - apply (inputs_that_are_not_square [Examples.B23] 0 Examples.B23);
      [reflexivity | reflexivity | simpl; lia].
Defined.

(** ** NaNs *)

Section NaN.
Local Open Scope float_scope.

Lemma IsNaN_eq x : math.IsNaN x = true -> x = nan.
Proof.
  intros H%IsNaN_spec. apply Prim2SF_inj. rewrite H. reflexivity.
Qed.

Lemma nan_add_r x : x + nan = nan.
Proof.
  apply Prim2SF_inj. rewrite FloatAxioms.add_spec.
  change (Prim2SF nan) with S754_nan. by destruct (Prim2SF x).
Qed.

Lemma nan_sub_l x : nan - x = nan.
Proof.
  apply Prim2SF_inj. rewrite FloatAxioms.sub_spec.
  change (Prim2SF nan) with S754_nan. by destruct (Prim2SF x).
Qed.

Lemma nan_sub_r x : x - nan = nan.
Proof.
  apply Prim2SF_inj. rewrite FloatAxioms.sub_spec.
  change (Prim2SF nan) with S754_nan. by destruct (Prim2SF x).
Qed.

Lemma nan_mul_l x : nan * x = nan.
Proof.
  apply Prim2SF_inj. rewrite FloatAxioms.mul_spec.
  change (Prim2SF nan) with S754_nan. by destruct (Prim2SF x).
Qed.

Lemma not_nan_add x y :
  math.IsNaN (x + y) = false -> math.IsNaN x = false /\ math.IsNaN y = false.
Proof.
  intros H. split; apply not_true_is_false; intros Hn%IsNaN_eq; subst.
  - by rewrite nan_add_l in H.
  - by rewrite nan_add_r in H.
Qed.

Lemma not_nan_sub x y :
  math.IsNaN (x - y) = false -> math.IsNaN x = false /\ math.IsNaN y = false.
Proof.
  intros H. split; apply not_true_is_false; intros Hn%IsNaN_eq; subst.
  - by rewrite nan_sub_l in H.
  - by rewrite nan_sub_r in H.
Qed.

Lemma not_nan_square x : math.IsNaN (x * x) = false -> math.IsNaN x = false.
Proof.
  intros H. apply not_true_is_false. intros Hn%IsNaN_eq. subst.
  by rewrite nan_mul_l in H.
Qed.

Lemma eqb_not_nan x y :
  (x =? y) = true -> math.IsNaN x = false /\ math.IsNaN y = false.
Proof.
  intros H. split; apply not_true_is_false; intros Hn%IsNaN_spec; revert H;
    rewrite FloatAxioms.eqb_spec, Hn; unfold SFeqb, SFcompare; [done|].
  by destruct (Prim2SF x) as [?|?| |? ? ?].
Qed.

(** A sum of squares that is not a NaN has no NaN among its terms. *)
Lemma sum_of_squares_not_nan (f : nat -> float) (l : list nat) (s : float) :
  math.IsNaN (fold_left (fun d k => d + f k * f k) l s) = false ->
  math.IsNaN s = false /\ forall k, In k l -> math.IsNaN (f k) = false.
Proof.
  revert s. induction l as [|k l IH]; intros s H; simpl in *.
  - split; [done|]. intros k [].
  - destruct (IH _ H) as [Hs Hl]. apply not_nan_add in Hs as [Hs Hk].
    split; [done|]. intros k' [<-|Hin]; [by apply not_nan_square|by apply Hl].
Qed.

End NaN.

(** X11: a true flag vouches for the absence of NaNs: when [CholeskyL] or
    [CholeskyR] returns [spd = true], no entry of the input is a NaN, and
    no entry of the factor is. *)
Theorem true_flag_excludes_NaN (h : heap) (a : loc) (A : Dense) :
  h !! a = Some A -> wf A -> cols A <= rows A ->
  (exists L spd,
      CholeskyL a h = (Ok (length h, spd), h ++ [L])
      /\ (spd = true ->
          forall i j, i < cols A -> j < cols A ->
            math.IsNaN (get A i j) = false /\ math.IsNaN (get L i j) = false))
  /\ (exists R spd,
      CholeskyR a h = (Ok (length h, spd), h ++ [R])
      /\ (spd = true ->
          forall i j, i < cols A -> j < cols A ->
            math.IsNaN (get A i j) = false /\ math.IsNaN (get R i j) = false)).
Proof.
  intros Ha Hwf Hdims. split.
  - destruct (CholeskyL_run h a A Ha Hwf Hdims) as (L & spd & Hrun & _ & Hrows & ->).
    eexists L, _. split; [exact Hrun|]. intros Hflag i j Hi Hj.
    apply flag_upto_true in Hflag as (_ & Hsym & Hpos).
    assert (forall j, j < cols A ->
              math.IsNaN (get A j j) = false
              /\ forall k, k < j -> math.IsNaN (get L j k) = false) as Hrow.
    { intros j' Hj'. pose proof (positive_not_nan _ (Hpos j' Hj')) as Hp.
      unfold pivotL in Hp. apply not_nan_sub in Hp as [Hd Hs].
      split; [done|]. unfold sumsqL in Hs.
      apply sum_of_squares_not_nan in Hs as [_ Hs].
      intros k Hk. apply Hs. by apply in_seq_0. }
    split.
    + destruct (Nat.lt_trichotomy i j) as [Hlt|[->|Hgt]].
      * by destruct (eqb_not_nan _ _ (Hsym j i Hlt Hj)).
      * by destruct (Hrow j Hj).
      * by destruct (eqb_not_nan _ _ (Hsym i j Hgt Hi)).
    + destruct (Nat.lt_trichotomy i j) as [Hlt|[->|Hgt]].
      * destruct (Hrows i Hi) as (_ & _ & Hzero). by rewrite Hzero by lia.
      * destruct (Hrows j Hj) as (_ & Hdiag & _). rewrite Hdiag.
        apply positive_not_nan. apply Sqrt_Max_positive. by apply Hpos.
      * destruct (Hrow i Hi) as [_ Hlow]. by apply Hlow.
  - destruct (CholeskyR_run h a A Ha Hwf Hdims) as (R & spd & Hrun & _ & Hcols & ->).
    eexists R, _. split; [exact Hrun|]. intros Hflag i j Hi Hj.
    apply flag_upto_true in Hflag as (_ & Hsym & Hpos).
    assert (forall j, j < cols A ->
              math.IsNaN (get A j j) = false
              /\ forall k, k < j -> math.IsNaN (get R k j) = false) as Hcol.
    { intros j' Hj'. pose proof (positive_not_nan _ (Hpos j' Hj')) as Hp.
      unfold pivotR in Hp. apply not_nan_sub in Hp as [Hd Hs].
      split; [done|]. unfold sumsqR in Hs.
      apply (sum_of_squares_not_nan (fun k => get R k j')) in Hs as [_ Hs].
      intros k Hk. apply Hs. by apply in_seq_0. }
    split.
    + destruct (Nat.lt_trichotomy i j) as [Hlt|[->|Hgt]].
      * by destruct (eqb_not_nan _ _ (Hsym j i Hlt Hj)).
      * by destruct (Hcol j Hj).
      * by destruct (eqb_not_nan _ _ (Hsym i j Hgt Hi)).
    + destruct (Nat.lt_trichotomy i j) as [Hlt|[->|Hgt]].
      * destruct (Hcol j Hj) as [_ Hup]. by apply Hup.
      * destruct (Hcols j Hj) as (_ & Hdiag & _). rewrite Hdiag.
        apply positive_not_nan. apply Sqrt_Max_positive. by apply Hpos.
      * destruct (Hcols j Hj) as (_ & _ & Hzero). by rewrite Hzero by lia.
Qed.

Lemma true_flag_excludes_NaN_witness :
  (exists L,
      CholeskyL 0 [Examples.A1] = (Ok (1, true), [Examples.A1] ++ [L])
      /\ math.IsNaN (get L 1 0) = false)
  /\ (exists R,
      CholeskyR 0 [Examples.A1] = (Ok (1, true), [Examples.A1] ++ [R])
      /\ math.IsNaN (get R 0 1) = false).
Proof.
  destruct (true_flag_excludes_NaN [Examples.A1] 0 Examples.A1)
    as [(L & spdL & HrunL & HL) (R & spdR & HrunR & HR)];
    [reflexivity | reflexivity | simpl; lia |].
  assert (spdL = true) as ->.
  { pose proof (f_equal (fun r => match r.1 with
                                  | Ok (_, b) => b
                                  | Panic _ => false
                                  end) HrunL) as Hb.
    vm_compute in Hb. by symmetry. }
  assert (spdR = true) as ->.
  { pose proof (f_equal (fun r => match r.1 with
                                  | Ok (_, b) => b
                                  | Panic _ => false
                                  end) HrunR) as Hb.
    vm_compute in Hb. by symmetry. }
  split.
  - exists L. split; [exact HrunL|]. apply (HL eq_refl 1 0); simpl; lia.
  - exists R. split; [exact HrunR|]. apply (HR eq_refl 0 1); simpl; lia.
Defined.

(** ** Diagonal inputs *)

Section DiagonalInputs.
Local Open Scope float_scope.

Lemma zero_div_positive p : (0 <? p) = true -> 0 / p = 0.
Proof.
  intros Hp%ltb_0_positive. apply Prim2SF_inj.
  rewrite FloatAxioms.div_spec, Prim2SF_0.
  by destruct (Prim2SF p) as [s|[]| |[] m e].
Qed.

Lemma fold_left_zero_products (f g : nat -> float) (l : list nat) :
  (forall i, In i l -> f i = 0 /\ g i = 0) ->
  fold_left (fun s i => s + f i * g i) l 0 = 0
  /\ fold_left (fun s i => s - f i * g i) l 0 = 0.
Proof.
  induction l as [|i l IH]; intros H; simpl; [done|].
  destruct (H i (or_introl eq_refl)) as [-> ->].
  change (0 + 0 * 0) with 0. change (0 - 0 * 0) with 0.
  apply IH. intros i' Hi'. apply H. by right.
Qed.

End DiagonalInputs.

Lemma rowL_of_positive_diagonal (A L : Dense) (n : nat) :
  positive_diagonal A n ->
  (forall j, j < n -> rowL A L n j) ->
  forall j k, j < n -> k < n ->
    get L j k = if decide (j = k) then math.Sqrt (get A j j) else 0%float.
Proof.
  intros HA Hrows.
  assert (forall j, j < n -> forall k, k <= j ->
            get L j k = if decide (j = k) then math.Sqrt (get A j j) else 0%float)
    as Hbelow.
  { induction j as [j IHj] using lt_wf_ind. intros Hj.
    induction k as [k IHk] using lt_wf_ind. intros Hk.
    destruct (Hrows j Hj) as (Hrec & Hdiag & _).
    pose proof (HA j j Hj Hj) as Hjj. rewrite decide_True in Hjj by done.
    case_decide as Heq.
    - subst k. rewrite Hdiag. unfold pivotL, sumsqL.
      destruct (fold_left_zero_products (fun k => get L j k) (fun k => get L j k)
                  (seq 0 j)) as [-> _].
      { intros i Hi%in_seq_0. rewrite (IHk i) by lia.
        by rewrite decide_False by lia. }
      rewrite sub_0_r. by rewrite Max_0_positive.
    - rewrite Hrec by lia. unfold dotL.
      destruct (fold_left_zero_products (fun i => get L k i) (fun i => get L j i)
                  (seq 0 k)) as [-> _].
      { intros i Hi%in_seq_0. rewrite (IHj k ltac:(lia) ltac:(lia) i) by lia.
        rewrite (IHk i) by lia. by rewrite !decide_False by lia. }
      pose proof (HA j k Hj ltac:(lia)) as Hjk. rewrite decide_False in Hjk by done.
      rewrite Hjk. change (0 - 0)%float with 0%float.
      rewrite (IHj k ltac:(lia) ltac:(lia) k) by lia. rewrite decide_True by done.
      apply zero_div_positive. apply sqrt_positive.
      pose proof (HA k k ltac:(lia) ltac:(lia)) as Hkk.
      by rewrite decide_True in Hkk by done. }
  intros j k Hj Hk. destruct (decide (k <= j)) as [Hle|Hgt]; [by apply Hbelow|].
  destruct (Hrows j Hj) as (_ & _ & Hzero).
  rewrite Hzero by lia. by rewrite decide_False by lia.
Qed.

Lemma colR_of_positive_diagonal (A R : Dense) (n : nat) :
  positive_diagonal A n ->
  (forall j, j < n -> colR A R n j) ->
  forall k j, k < n -> j < n ->
    get R k j = if decide (k = j) then math.Sqrt (get A j j) else 0%float.
Proof.
  intros HA Hcols.
  assert (forall j, j < n -> forall k, k <= j ->
            get R k j = if decide (k = j) then math.Sqrt (get A j j) else 0%float)
    as Habove.
  { induction j as [j IHj] using lt_wf_ind. intros Hj.
    induction k as [k IHk] using lt_wf_ind. intros Hk.
    destruct (Hcols j Hj) as (Hrec & Hdiag & _).
    pose proof (HA j j Hj Hj) as Hjj. rewrite decide_True in Hjj by done.
    case_decide as Heq.
    - subst k. rewrite Hdiag. unfold pivotR, sumsqR.
      destruct (fold_left_zero_products (fun k => get R k j) (fun k => get R k j)
                  (seq 0 j)) as [-> _].
      { intros i Hi%in_seq_0. rewrite (IHk i) by lia.
        by rewrite decide_False by lia. }
      rewrite sub_0_r. by rewrite Max_0_positive.
    - rewrite Hrec by lia. unfold accR.
      pose proof (HA k j ltac:(lia) Hj) as Hkj. rewrite decide_False in Hkj by done.
      rewrite Hkj.
      destruct (fold_left_zero_products (fun i => get R i k) (fun i => get R i j)
                  (seq 0 k)) as [_ ->].
      { intros i Hi%in_seq_0. rewrite (IHj k ltac:(lia) ltac:(lia) i) by lia.
        rewrite (IHk i) by lia. by rewrite !decide_False by lia. }
      rewrite (IHj k ltac:(lia) ltac:(lia) k) by lia. rewrite decide_True by done.
      apply zero_div_positive. apply sqrt_positive.
      pose proof (HA k k ltac:(lia) ltac:(lia)) as Hkk.
      by rewrite decide_True in Hkk by done. }
  intros k j Hk Hj. destruct (decide (k <= j)) as [Hle|Hgt]; [by apply Habove|].
  destruct (Hcols j Hj) as (_ & _ & Hzero).
  rewrite Hzero by lia. by rewrite decide_False by lia.
Qed.

Lemma flag_of_positive_diagonal (A : Dense) (piv : nat -> float) :
  rows A = cols A -> positive_diagonal A (cols A) ->
  (forall j, j < cols A -> piv j = get A j j) ->
  flag_upto A piv (cols A) = true.
Proof.
  intros Hsq HA Hpiv. apply flag_upto_true. split; [done|]. split.
  - intros j k Hk Hj.
    pose proof (HA k j ltac:(lia) Hj) as Hkj. rewrite decide_False in Hkj by lia.
    pose proof (HA j k Hj ltac:(lia)) as Hjk. rewrite decide_False in Hjk by lia.
    by rewrite Hkj, Hjk.
  - intros j Hj. rewrite Hpiv by done.
    pose proof (HA j j Hj Hj) as Hjj. by rewrite decide_True in Hjj by done.
Qed.

(** X12: a square input with a positive diagonal and zeros elsewhere is
    factorised exactly: both functions return the flag true and the
    diagonal matrix of the square roots of the diagonal, with no rounding
    other than that of the square roots. The identity matrix is its own
    factor. *)
Theorem diagonal_input (h : heap) (a : loc) (A : Dense) :
  h !! a = Some A -> wf A -> rows A = cols A ->
  positive_diagonal A (cols A) ->
  exists F,
    CholeskyL a h = (Ok (length h, true), h ++ [F])
    /\ CholeskyR a h = (Ok (length h, true), h ++ [F])
    /\ rows F = cols A /\ cols F = cols A
    /\ forall i j, i < cols A -> j < cols A ->
         get F i j = if decide (i = j) then math.Sqrt (get A i i) else 0%float.
Proof.
  intros Ha Hwf Hsq HA.
  destruct (CholeskyL_run h a A Ha Hwf ltac:(lia))
    as (L & spdL & HrunL & (HrL & HcL & HwfL) & Hrows & ->).
  destruct (CholeskyR_run h a A Ha Hwf ltac:(lia))
    as (R & spdR & HrunR & (HrR & HcR & HwfR) & Hcols & ->).
  pose proof (rowL_of_positive_diagonal A L (cols A) HA Hrows) as HL.
  pose proof (colR_of_positive_diagonal A R (cols A) HA Hcols) as HR.
  assert (L = R) as <-.
  { apply dense_ext; [done|done|lia|lia|]. intros i j Hi Hj.
    rewrite HL, HR by lia. case_decide; [by subst|done]. }
  exists L.
  rewrite (flag_of_positive_diagonal A (pivotL A L)) in HrunL; [|done|done|].
  rewrite (flag_of_positive_diagonal A (pivotR A L)) in HrunR; [|done|done|].
  - done.
  - intros j Hj. unfold pivotR, sumsqR.
    destruct (fold_left_zero_products (fun k => get L k j) (fun k => get L k j)
                (seq 0 j)) as [-> _]; [|apply sub_0_r].
    intros i Hi%in_seq_0. rewrite HL by lia. by rewrite decide_False by lia.
  - intros j Hj. unfold pivotL, sumsqL.
    destruct (fold_left_zero_products (fun k => get L j k) (fun k => get L j k)
                (seq 0 j)) as [-> _]; [|apply sub_0_r].
    intros i Hi%in_seq_0. rewrite HL by lia. by rewrite decide_False by lia.
Qed.

Lemma diagonal_input_witness :
  CholeskyL 0 [Examples.I3] = (Ok (1, true), [Examples.I3; Examples.I3])
  /\ CholeskyR 0 [Examples.I3] = (Ok (1, true), [Examples.I3; Examples.I3]).
Proof.
  destruct (diagonal_input [Examples.I3] 0 Examples.I3)
    as (F & HrunL & HrunR & Hr & Hc & HF);
    [reflexivity | reflexivity | reflexivity | |].
  { intros i j Hi Hj. change (cols Examples.I3) with 3 in Hi, Hj.
    do 3 (destruct i as [|i]; [do 3 (destruct j as [|j]; [reflexivity|]); lia|]).
    lia. }
  pose proof (f_equal (fun r => default Examples.I3 (r.2 !! 1)) HrunL) as HF'.
  vm_compute in HF'. subst F. split; [exact HrunL|exact HrunR].
Defined.
